(** * xwax: track import (track.c) and the pitch filter (pitch.c)

    A shallow embedding of the two C translation units and the
    properties of their natural-language specification.

    - [Pitch]: the two-state filter of pitch.c.  The C [float]s are
      idealised as real numbers.
    - the track importer of track.c: the struct [track_t], the block
      store, the child process and its pipe.  The operating system is an
      explicit [world]: allocated blocks, open descriptors, children not
      yet waited for, the poll entries of the rig, and the scripts of
      what [malloc] and [read] will answer.  A call that ends the process
      ([abort], a failed [assert]) yields [Aborted]; an access outside an
      array or through a dangling pointer yields [Undefined]. *)

From Stdlib Require Import ZArith List Lia String.
From Stdlib Require Import Init.Byte.
From Stdlib Require Reals Lra Psatz.
From Stdlib Require SpecFloat.
From Equations Require Import Equations.
From Equations.Prop Require Import Logic.
From stdpp Require Import base decidable option list gmap.

(* ================================================================= *)
(** ** pitch.c *)

Module Pitch.
Import Reals.
Local Open Scope R_scope.

(** Values for the filter concluded experimentally *)
Definition ALPHA : R := 1 / 512.
Definition BETA : R := ALPHA / 1024.

(** Modelled from the spec: pitch.h is not among the sources; the state
    of the filter is the period [dt], the residual position [x] and the
    velocity [v]. *)
Record pitch_t := { dt : R; x : R; v : R }.

(** Prepare the filter for observations every dt seconds *)
Definition pitch_init (dt0 : R) : pitch_t := {| dt := dt0; x := 0; v := 0 |}.

(** Input an observation to the filter; in the last dt seconds the
    position has moved by dx.  The three assignments to [p] are kept as
    three successive states. *)
Definition pitch_dt_observation (p : pitch_t) (dx : R) : pitch_t :=
  let predicted_x := x p + v p * dt p in
  let predicted_v := v p in
  let residual_x := dx - predicted_x in
  let p1 := {| dt := dt p; x := predicted_x + residual_x * ALPHA; v := v p |} in
  let p2 := {| dt := dt p1; x := x p1;
               v := predicted_v + residual_x * BETA / dt p1 |} in
  {| dt := dt p2; x := x p2 - dx; v := v p2 |}.


(** [n] observations of the same [dx]. *)
Fixpoint observe_n (n : nat) (p : pitch_t) (dx : R) : pitch_t :=
  match n with
  | O => p
  | S k => pitch_dt_observation (observe_n k p dx) dx
  end.

(** The distance of a state from the state that a constant input [c]
    leaves fixed: [err_s] is minus the residual of the next observation,
    [err_y] the error of the velocity scaled by [dt]; [energy] is the
    quadratic form in them that one observation scales by [1 - ALPHA]. *)
Definition err_s (p : pitch_t) (c : R) : R := x p + v p * dt p - c.
Definition err_y (p : pitch_t) (c : R) : R := v p * dt p - c.
Definition energy (p : pitch_t) (c : R) : R :=
  BETA * (err_s p c)² - (ALPHA + BETA) * err_s p c * err_y p c + (err_y p c)².

End Pitch.

(* ================================================================= *)
(** ** pitch.c, in floating point *)

(** The same two functions with the types of the C code.  Modelled from
    the spec: pitch.h is not among the sources; the three fields are
    [float] ("all floating point").  A [float] is an IEEE binary32
    number and a [double] a binary64 number; the constants [1.0/512] and
    [ALPHA/1024] are [double], an operation on a [float] and a [double]
    is done in [double], and a value stored in a [float] is rounded to
    binary32.  Every operation rounds to nearest, ties to even, in the
    type of its operands (FLT_EVAL_METHOD 0). *)
Module PitchFloat.
Import SpecFloat.

Definition fadd := SFadd 24 128.
Definition fsub := SFsub 24 128.
Definition fmul := SFmul 24 128.
Definition dadd := SFadd 53 1024.
Definition dmul := SFmul 53 1024.
Definition ddiv := SFdiv 53 1024.

(** Conversion to the format of precision [prec]: exact from [float]
    to [double], a rounding from [double] to [float]. *)
Definition convert (prec emax : Z) (f : spec_float) : spec_float :=
  match f with
  | S754_finite s m e => binary_normalize prec emax (cond_Zopp s (Zpos m)) e s
  | _ => f
  end.
Definition to_double := convert 53 1024.
Definition to_float := convert 24 128.
Definition double_of_int (z : Z) : spec_float := binary_normalize 53 1024 z 0 false.

(** Values for the filter concluded experimentally *)
Definition ALPHA : spec_float := ddiv (double_of_int 1) (double_of_int 512).
Definition BETA : spec_float := ddiv ALPHA (double_of_int 1024).

Record pitch_t := { dt : spec_float; x : spec_float; v : spec_float }.

(** Prepare the filter for observations every dt seconds *)
Definition pitch_init (dt0 : spec_float) : pitch_t :=
  {| dt := dt0; x := to_float (S754_zero false); v := to_float (S754_zero false) |}.

(** Input an observation to the filter; in the last dt seconds the
    position has moved by dx. *)
Definition pitch_dt_observation (p : pitch_t) (dx : spec_float) : pitch_t :=
  let predicted_x := fadd (x p) (fmul (v p) (dt p)) in
  let predicted_v := v p in
  let residual_x := fsub dx predicted_x in
  let p1 := {| dt := dt p;
               x := to_float (dadd (to_double predicted_x)
                                   (dmul (to_double residual_x) ALPHA));
               v := v p |} in
  let p2 := {| dt := dt p1; x := x p1;
               v := to_float (dadd (to_double predicted_v)
                                   (ddiv (dmul (to_double residual_x) BETA)
                                         (to_double (dt p1)))) |} in
  {| dt := dt p2; x := fsub (x p2) dx; v := v p2 |}.

(** The real number that a finite floating-point number stands for. *)
Import Reals.

End PitchFloat.

(* ================================================================= *)
(** ** Results of a C call *)

Inductive outcome (A : Type) : Type :=
| Ret (a : A)       (* the call returns *)
| Aborted           (* abort(), or an assert that fails *)
| Undefined.        (* access out of bounds or through a dead pointer *)
Arguments Ret {A} a.
Arguments Aborted {A}.
Arguments Undefined {A}.

Definition obind {A B} (m : outcome A) (k : A -> outcome B) : outcome B :=
  match m with
  | Ret a => k a
  | Aborted => Aborted
  | Undefined => Undefined
  end.

Notation "'let*' p ':=' m 'in' k" := (obind m (fun p => k))
  (at level 10, p pattern, k at level 200).

Local Open Scope Z_scope.

(* ================================================================= *)
(** ** Machine integers *)

Definition uint (z : Z) : Z := z mod 2 ^ 32.      (* unsigned int *)
Definition ushort (z : Z) : Z := z mod 2 ^ 16.    (* unsigned short *)
Definition uchar (z : Z) : Z := z mod 2 ^ 8.      (* unsigned char *)

Definition byte_val (b : byte) : Z := Z.of_N (Byte.to_N b).

(** A [signed short] from its two bytes, least significant first. *)
Definition sshort (lo hi : byte) : Z :=
  let u := byte_val lo + 256 * byte_val hi in
  if decide (u < 32768) then u else u - 65536.

(* ================================================================= *)
(** ** track.h *)

(** Modelled from the spec: track.h is not among the sources.  The
    constants the specification names without a value are parameters. *)
Class track_consts := {
  TRACK_RATE : Z;
  TRACK_MAX_BLOCKS : Z;
  TRACK_BLOCK_SAMPLES : Z;
  TRACK_PPM_RES : Z;
  TRACK_OVERVIEW_RES : Z }.

(** Modelled from the spec: TRACK_CHANNELS = 2. *)
Definition TRACK_CHANNELS : Z := 2.

(** bytes per sample: sizeof(signed short) * TRACK_CHANNELS *)
Definition SAMPLE : Z := 2 * TRACK_CHANNELS.

Definition TRACK_BLOCK_PCM_BYTES `{track_consts} : Z := TRACK_BLOCK_SAMPLES * SAMPLE.

(** Modelled from the spec: a block is [TRACK_BLOCK_SAMPLES] stereo
    samples of 16 bits (kept as the bytes [read] puts there), one ppm
    byte per [TRACK_PPM_RES] samples and one overview byte per
    [TRACK_OVERVIEW_RES] samples. *)
Record track_block_t := {
  blk_pcm : list byte;
  blk_ppm : list Z;
  blk_overview : list Z }.

(** Modelled from the spec: the fields of [struct track_t] that track.c
    uses.  The counters are integers; the two meters are unsigned 32-bit
    accumulators; [tr_block] is the array [block[TRACK_MAX_BLOCKS]] of
    block addresses, [tr_pe] the poll entry ([None] is NULL). *)
Record track_t := {
  tr_importer : string;
  tr_artist : option string;
  tr_title : option string;
  tr_pid : Z;
  tr_fd : Z;
  tr_pe : option Z;
  tr_blocks : Z;
  tr_block : list nat;
  tr_bytes : Z;
  tr_length : Z;
  tr_rate : Z;
  tr_ppm : Z;
  tr_overview : Z }.

Definition set_pid (tr : track_t) (pid : Z) : track_t :=
  {| tr_importer := tr_importer tr; tr_artist := tr_artist tr; tr_title := tr_title tr;
     tr_pid := pid; tr_fd := tr_fd tr; tr_pe := tr_pe tr;
     tr_blocks := tr_blocks tr; tr_block := tr_block tr;
     tr_bytes := tr_bytes tr; tr_length := tr_length tr; tr_rate := tr_rate tr;
     tr_ppm := tr_ppm tr; tr_overview := tr_overview tr |}.

Definition set_pe (tr : track_t) (pe : option Z) : track_t :=
  {| tr_importer := tr_importer tr; tr_artist := tr_artist tr; tr_title := tr_title tr;
     tr_pid := tr_pid tr; tr_fd := tr_fd tr; tr_pe := pe;
     tr_blocks := tr_blocks tr; tr_block := tr_block tr;
     tr_bytes := tr_bytes tr; tr_length := tr_length tr; tr_rate := tr_rate tr;
     tr_ppm := tr_ppm tr; tr_overview := tr_overview tr |}.

Definition set_bytes (tr : track_t) (n : Z) : track_t :=
  {| tr_importer := tr_importer tr; tr_artist := tr_artist tr; tr_title := tr_title tr;
     tr_pid := tr_pid tr; tr_fd := tr_fd tr; tr_pe := tr_pe tr;
     tr_blocks := tr_blocks tr; tr_block := tr_block tr;
     tr_bytes := n; tr_length := tr_length tr; tr_rate := tr_rate tr;
     tr_ppm := tr_ppm tr; tr_overview := tr_overview tr |}.

Definition set_length (tr : track_t) (n : Z) : track_t :=
  {| tr_importer := tr_importer tr; tr_artist := tr_artist tr; tr_title := tr_title tr;
     tr_pid := tr_pid tr; tr_fd := tr_fd tr; tr_pe := tr_pe tr;
     tr_blocks := tr_blocks tr; tr_block := tr_block tr;
     tr_bytes := tr_bytes tr; tr_length := n; tr_rate := tr_rate tr;
     tr_ppm := tr_ppm tr; tr_overview := tr_overview tr |}.

Definition set_meters (tr : track_t) (ppm overview : Z) : track_t :=
  {| tr_importer := tr_importer tr; tr_artist := tr_artist tr; tr_title := tr_title tr;
     tr_pid := tr_pid tr; tr_fd := tr_fd tr; tr_pe := tr_pe tr;
     tr_blocks := tr_blocks tr; tr_block := tr_block tr;
     tr_bytes := tr_bytes tr; tr_length := tr_length tr; tr_rate := tr_rate tr;
     tr_ppm := ppm; tr_overview := overview |}.

Definition set_block (tr : track_t) (blocks : Z) (block : list nat) : track_t :=
  {| tr_importer := tr_importer tr; tr_artist := tr_artist tr; tr_title := tr_title tr;
     tr_pid := tr_pid tr; tr_fd := tr_fd tr; tr_pe := tr_pe tr;
     tr_blocks := blocks; tr_block := block;
     tr_bytes := tr_bytes tr; tr_length := tr_length tr; tr_rate := tr_rate tr;
     tr_ppm := tr_ppm tr; tr_overview := tr_overview tr |}.

(* ================================================================= *)
(** ** The operating system *)

(** What a pipe will deliver to its reader, in order: bytes written by
    the child, a moment at which the pipe is empty but still open
    (EAGAIN), a read error.  An exhausted script is end of file. *)
Inductive pipe_event :=
| Data (bs : list byte)
| WouldBlock
| IoError.

Inductive file :=
| PipeRead (s : list pipe_event)
| PipeWrite.

(** struct pollfd *)
Record pollfd := { pfd_fd : Z; pfd_events : Z; pfd_revents : Z }.

Definition POLLIN : Z := 1.
Definition STDOUT_FILENO : Z := 1.

Record world := {
  w_heap : list (option track_block_t); (* address -> live block; None once freed *)
  w_malloc : list (option track_block_t);
    (* answers of the coming malloc calls: None is NULL, Some g a new
       block whose indeterminate contents are g *)
  w_fds : gmap Z file;                  (* open descriptors *)
  w_children : gset Z;                  (* children not yet waited for *)
  w_pollfds : gmap Z pollfd;            (* poll entries owned by the rig *)
  w_awakened : nat }.                   (* calls of rig_awaken *)

Definition set_heap (w : world) (h : list (option track_block_t)) : world :=
  {| w_heap := h; w_malloc := w_malloc w; w_fds := w_fds w;
     w_children := w_children w; w_pollfds := w_pollfds w; w_awakened := w_awakened w |}.

Definition set_malloc (w : world) (m : list (option track_block_t)) : world :=
  {| w_heap := w_heap w; w_malloc := m; w_fds := w_fds w;
     w_children := w_children w; w_pollfds := w_pollfds w; w_awakened := w_awakened w |}.

Definition set_fds (w : world) (f : gmap Z file) : world :=
  {| w_heap := w_heap w; w_malloc := w_malloc w; w_fds := f;
     w_children := w_children w; w_pollfds := w_pollfds w; w_awakened := w_awakened w |}.

Definition set_children (w : world) (c : gset Z) : world :=
  {| w_heap := w_heap w; w_malloc := w_malloc w; w_fds := w_fds w;
     w_children := c; w_pollfds := w_pollfds w; w_awakened := w_awakened w |}.

Definition set_pollfds (w : world) (p : gmap Z pollfd) : world :=
  {| w_heap := w_heap w; w_malloc := w_malloc w; w_fds := w_fds w;
     w_children := w_children w; w_pollfds := p; w_awakened := w_awakened w |}.

Definition rig_awaken (w : world) : world :=
  {| w_heap := w_heap w; w_malloc := w_malloc w; w_fds := w_fds w;
     w_children := w_children w; w_pollfds := w_pollfds w;
     w_awakened := S (w_awakened w) |}.

(** malloc(sizeof(struct track_block_t)): the next answer of the script;
    a new block gets the first address never used. *)
Definition malloc (w : world) : option nat * world :=
  match w_malloc w with
  | Some g :: ms =>
      (Some (length (w_heap w)), set_malloc (set_heap w (w_heap w ++ [Some g])) ms)
  | None :: ms => (None, set_malloc w ms)
  | [] => (None, w)
  end.

Definition heap_load (w : world) (p : nat) : outcome track_block_t :=
  match w_heap w !! p with
  | Some (Some b) => Ret b
  | _ => Undefined
  end.

Definition heap_store (w : world) (p : nat) (b : track_block_t) : world :=
  set_heap w (<[p := Some b]> (w_heap w)).

Definition free (w : world) (p : nat) : outcome world :=
  match w_heap w !! p with
  | Some (Some _) => Ret (set_heap w (<[p := None]> (w_heap w)))
  | _ => Undefined
  end.

(** close(fd): 0, or -1 when fd is not open. *)
Definition close (w : world) (fd : Z) : Z * world :=
  match w_fds w !! fd with
  | Some _ => (0, set_fds w (delete fd (w_fds w)))
  | None => (-1, w)
  end.

(** kill(pid, SIGTERM): a positive pid must be a child that has not
    been waited for; zero and negative pids address a group of
    processes, or with -1 every process, and succeed. *)
Definition kill (w : world) (pid : Z) : Z :=
  if decide (0 < pid) then (if decide (pid ∈ w_children w) then 0 else -1) else 0.

(** waitpid(pid, &status, 0) for a positive pid: the child is reaped.
    Any other pid waits for some child and fails when there is none. *)
Definition waitpid (w : world) (pid : Z) : Z * world :=
  if decide (0 < pid) then
    if decide (pid ∈ w_children w)
    then (pid, set_children w (w_children w ∖ {[ pid ]}))
    else (-1, w)
  else
    match elements (w_children w) with
    | c :: _ => (c, set_children w (w_children w ∖ {[ c ]}))
    | [] => (-1, w)
    end.

Inductive read_result :=
| ReadBytes (bs : list byte)   (* z = length bs; no byte is end of file *)
| ReadEAGAIN                   (* z = -1, errno = EAGAIN *)
| ReadError.                   (* z = -1, another errno *)

Definition script_size (s : list pipe_event) : nat :=
  fold_right (fun e n => match e with Data bs => S (length bs + n) | _ => S n end) O s.

(** read(fd, buf, len) on a pipe whose script is [s]: at most [len] of
    the bytes at the head.  A write of no byte is not seen. *)
Fixpoint read_script (s : list pipe_event) (len : Z) : read_result * list pipe_event :=
  match s with
  | [] => (ReadBytes [], [])
  | Data [] :: s' => read_script s' len
  | Data bs :: s' =>
      if decide (Z.of_nat (length bs) <= len) then (ReadBytes bs, s')
      else (ReadBytes (take (Z.to_nat len) bs), Data (drop (Z.to_nat len) bs) :: s')
  | WouldBlock :: s' => (ReadEAGAIN, s')
  | IoError :: s' => (ReadError, s')
  end.

(** What the calls of [start_import] answer: pipe() gives the two
    descriptors or fails, fcntl() succeeds or fails, vfork() gives the
    pid of the child together with what that child will write, or
    fails. *)
Record spawn_calls := {
  sc_pipe : option (Z * Z);
  sc_fcntl : bool;
  sc_vfork : option (Z * list pipe_event) }.

(* ================================================================= *)
(** ** track.c *)

Section Track.
Context `{C : track_consts}.

(** Start the importer process. On completion, pid and fd are set.
    Only the parent is followed: in the child (vfork() == 0) the call
    never returns, the process execs the importer, exits or aborts. *)
Definition start_import (tr : track_t) (path : string) (sc : spawn_calls) (w : world)
  : outcome (Z * track_t * world) :=
  match sc_pipe sc with
  | None => Ret (-1, tr, w)
  | Some (rd, wr) =>
      let w1 := set_fds w (<[wr := PipeWrite]> (<[rd := PipeRead []]> (w_fds w))) in
      if sc_fcntl sc then
        match sc_vfork sc with
        | None => Ret (-1, set_pid tr (-1), w1)
        | Some (pid, out) =>
            let tr1 := set_pid tr pid in
            if decide (pid = 0) then Aborted
            else
              let w2 := set_children (set_fds w1 (<[rd := PipeRead out]> (w_fds w1)))
                                     ({[ pid ]} ∪ w_children w1) in
              let '(r, w3) := close w2 wr in
              if decide (r ≠ 0) then Aborted
              else Ret (0,
                        {| tr_importer := tr_importer tr1; tr_artist := tr_artist tr1;
                           tr_title := tr_title tr1;
                           tr_pid := tr_pid tr1; tr_fd := rd; tr_pe := tr_pe tr1;
                           tr_blocks := tr_blocks tr1; tr_block := tr_block tr1;
                           tr_bytes := 0; tr_length := 0; tr_rate := TRACK_RATE;
                           tr_ppm := 0; tr_overview := 0 |},
                        w3)
        end
      else Ret (-1, tr, w1)
  end.

(** Conclude the importer process. To be called whether the importer
    was aborted or completed successfully *)
Definition stop_import (tr : track_t) (w : world) : outcome (track_t * world) :=
  if decide (tr_pid tr = 0) then Aborted          (* assert(tr->pid != 0) *)
  else
    let '(r, w1) := close w (tr_fd tr) in
    if decide (r ≠ 0) then Aborted
    else
      let '(r', w2) := waitpid w1 (tr_pid tr) in
      if decide (r' = -1) then Aborted
      else Ret (set_pid tr 0, w2).

(** Prematurely abort the import process *)
Definition abort_import (tr : track_t) (w : world) : outcome (track_t * world) :=
  if decide (kill w (tr_pid tr) = -1) then Aborted
  else stop_import tr w.

(** block[i], on an array *)
Definition array_get {A} (l : list A) (i : Z) : option A :=
  if decide (0 <= i) then l !! Z.to_nat i else None.

(** block[i] = x, on an array *)
Definition store_idx {A} (l : list A) (i : Z) (a : A) : outcome (list A) :=
  if decide (0 <= i < Z.of_nat (length l)) then Ret (<[Z.to_nat i := a]> l)
  else Undefined.

(** Allocate more memory. Returns 0 on success otherwise -1 *)
Definition more_space (tr : track_t) (w : world) : outcome (Z * track_t * world) :=
  if decide (TRACK_MAX_BLOCKS <= tr_blocks tr) then Ret (-1, tr, w)
  else
    match malloc w with
    | (None, w1) => Ret (-1, tr, w1)
    | (Some block, w1) =>
        let* arr := store_idx (tr_block tr) (tr_blocks tr) block in
        Ret (0, set_block tr (tr_blocks tr + 1) arr, w1)
    end.

(** The pointer [block->pcm + fill] and the length stored in [*len]. *)
Record region := { rg_block : nat; rg_fill : Z; rg_len : Z }.

(** Ask for a pointer to the PCM buffer for incoming audio. On return,
    *len is set to the buffer length in bytes *)
Definition access_pcm_data (tr : track_t) (w : world)
  : outcome (option region * track_t * world) :=
  let block := uint (tr_bytes tr / TRACK_BLOCK_PCM_BYTES) in
  let* (r, tr1, w1) :=
    if decide (block = uint (tr_blocks tr)) then more_space tr w
    else Ret (0, tr, w) in
  if decide (r = -1) then Ret (None, tr1, w1)
  else
    let fill := tr_bytes tr1 mod TRACK_BLOCK_PCM_BYTES in
    match array_get (tr_block tr1) block with
    | Some p =>
        Ret (Some {| rg_block := p; rg_fill := fill;
                     rg_len := TRACK_BLOCK_PCM_BYTES - fill |}, tr1, w1)
    | None => Undefined
    end.

(** [bs] copied over [l] from index [off] on. *)
Definition splice {A} (off : nat) (bs l : list A) : list A :=
  take off l ++ bs ++ drop (off + length bs) l.

Definition with_pcm (blk : track_block_t) (pcm : list byte) : track_block_t :=
  {| blk_pcm := pcm; blk_ppm := blk_ppm blk; blk_overview := blk_overview blk |}.

(** The bytes that read() puts at the pointer it is given. *)
Definition pcm_write (w : world) (rg : region) (bs : list byte) : outcome world :=
  let* blk := heap_load w (rg_block rg) in
  if decide (0 <= rg_fill rg ∧
             rg_fill rg + Z.of_nat (length bs) <= Z.of_nat (length (blk_pcm blk))) then
    Ret (heap_store w (rg_block rg)
           (with_pcm blk (splice (Z.to_nat (rg_fill rg)) bs (blk_pcm blk))))
  else Undefined.

(** pcm[i], for [pcm] the array of shorts of a block *)
Definition load_short (mem : list byte) (i : Z) : outcome Z :=
  match array_get mem (2 * i), array_get mem (2 * i + 1) with
  | Some lo, Some hi => Ret (sshort lo hi)
  | _, _ => Undefined
  end.

(** v = abs(pcm[0]) + abs(pcm[1]), in an unsigned short *)
Definition meter_value (l r : Z) : Z := ushort (Z.abs l + Z.abs r).

(** PPM-style fast meter approximation *)
Definition ppm_update (ppm v : Z) : Z :=
  if decide (ppm < v) then uint (ppm + Z.shiftr (uint (v - ppm)) 3)
  else uint (ppm - Z.shiftr (uint (ppm - v)) 9).

(** Update the slow-metering overview. Fixed point arithmetic going on
    here.  [w = v << 16] is the 32 bits of the shifted value. *)
Definition overview_update (overview v : Z) : Z :=
  let w := uint (Z.shiftl v 16) in
  if decide (overview < w) then uint (overview + Z.shiftr (uint (w - overview)) 8)
  else uint (overview - Z.shiftr (uint (overview - w)) 17).

(** The [while (samples > 0)] loop of [commit_pcm_samples]; [p] is the
    block, [fill] the index of the sample in it. *)
Fixpoint meter_loop (samples : nat) (p : nat) (fill : Z) (tr : track_t) (w : world)
  : outcome (track_t * world) :=
  match samples with
  | O => Ret (tr, w)
  | S samples' =>
      let* blk := heap_load w p in
      let* l := load_short (blk_pcm blk) (TRACK_CHANNELS * fill) in
      let* r := load_short (blk_pcm blk) (TRACK_CHANNELS * fill + 1) in
      let v := meter_value l r in
      let ppm := ppm_update (tr_ppm tr) v in
      let* ppms := store_idx (blk_ppm blk) (fill / TRACK_PPM_RES) (uchar (Z.shiftr ppm 8)) in
      let overview := overview_update (tr_overview tr) v in
      let* ovs := store_idx (blk_overview blk) (fill / TRACK_OVERVIEW_RES)
                            (uchar (Z.shiftr overview 24)) in
      meter_loop samples' p (uint (fill + 1)) (set_meters tr ppm overview)
        (heap_store w p {| blk_pcm := blk_pcm blk; blk_ppm := ppms; blk_overview := ovs |})
  end.

(** The same loop on the block alone: one turn, then [samples] turns,
    from the meters [ppm] and [overview] of the track. *)
Definition meter_step (fill ppm overview : Z) (blk : track_block_t)
  : outcome (Z * Z * track_block_t) :=
  let* l := load_short (blk_pcm blk) (TRACK_CHANNELS * fill) in
  let* r := load_short (blk_pcm blk) (TRACK_CHANNELS * fill + 1) in
  let v := meter_value l r in
  let ppm' := ppm_update ppm v in
  let* ppms := store_idx (blk_ppm blk) (fill / TRACK_PPM_RES) (uchar (Z.shiftr ppm' 8)) in
  let overview' := overview_update overview v in
  let* ovs := store_idx (blk_overview blk) (fill / TRACK_OVERVIEW_RES)
                        (uchar (Z.shiftr overview' 24)) in
  Ret (ppm', overview', {| blk_pcm := blk_pcm blk; blk_ppm := ppms; blk_overview := ovs |}).

Fixpoint meter_blk (samples : nat) (fill ppm overview : Z) (blk : track_block_t)
  : outcome (Z * Z * track_block_t) :=
  match samples with
  | O => Ret (ppm, overview, blk)
  | S samples' =>
      let* (ppm', overview', blk') := meter_step fill ppm overview blk in
      meter_blk samples' (uint (fill + 1)) ppm' overview' blk'
  end.

(** Notify that audio has been placed in the buffer, giving the
    number of stereo samples *)
Definition commit_pcm_samples (tr : track_t) (samples : Z) (w : world)
  : outcome (track_t * world) :=
  match array_get (tr_block tr) (tr_length tr / TRACK_BLOCK_SAMPLES) with
  | None => Undefined
  | Some block =>
      let fill := uint (tr_length tr mod TRACK_BLOCK_SAMPLES) in
      if decide (samples <= uint (TRACK_BLOCK_SAMPLES - fill)) then
        meter_loop (Z.to_nat samples) block fill
                   (set_length tr (tr_length tr + samples)) w
      else Aborted
  end.

(** Notify that bytes of data have been placed in the buffer. Commit in
    whole samples, and leave any residual in the buffer ready for next
    time *)
Definition commit_bytes (tr : track_t) (len : Z) (w : world) : outcome (track_t * world) :=
  let tr1 := set_bytes tr (tr_bytes tr + len) in
  commit_pcm_samples tr1 (uint (tr_bytes tr1 / SAMPLE - tr_length tr1)) w.

(** One turn of the loop of [read_from_pipe] in which read() returns
    the bytes [bs]: they are put in the region, then committed. *)
Definition ingest (tr : track_t) (rg : region) (bs : list byte) (w : world)
  : outcome (track_t * world) :=
  let* w1 := pcm_write w rg bs in
  commit_bytes tr (Z.of_nat (length bs)) w1.

(** The [for (;;)] loop of [read_from_pipe] on a pipe whose script is
    [s]; the result is the value returned (before the final report on
    stderr, which changes nothing) and what is left of the script. *)
Equations? read_loop (s : list pipe_event) (tr : track_t) (w : world)
  : outcome (Z * track_t * world * list pipe_event) by wf (script_size s) lt :=
  read_loop s tr w with access_pcm_data tr w := {
    | Aborted := Aborted
    | Undefined := Undefined
    | Ret (None, tr1, w1) := Ret (-1, tr1, w1, s)
    | Ret (Some rg, tr1, w1) with inspect (read_script s (rg_len rg)) := {
      | exist _ (ReadEAGAIN, s1) _ := Ret (0, tr1, w1, s1)
      | exist _ (ReadError, s1) _ := Ret (-1, tr1, w1, s1)
      | exist _ (ReadBytes [], s1) _ := Ret (1, tr1, w1, s1)
      | exist _ (ReadBytes (b :: bs), s1) Hread
          with ingest tr1 rg (b :: bs) w1 := {
        | Ret (tr2, w2) := read_loop s1 tr2 w2
        | Aborted := Aborted
        | Undefined := Undefined } } }.
Proof.
  (* a read that returns bytes takes them off the script *)
  clear - Hread. revert s1 Hread.
  induction s as [|e s IH]; simpl; [discriminate|].
  destruct e as [[|c cs]| |]; try discriminate.
  - intros s1 H. specialize (IH s1 H). lia.
  - destruct (decide (Z.of_nat (length (c :: cs)) <= rg_len rg)); intros s1 [= E1 E2].
    + subst s1. lia.
    + subst s1. simpl.
      destruct (Z.to_nat (rg_len rg)) as [|k] eqn:Ek; [discriminate|].
      simpl. rewrite length_drop. lia.
Qed.

(** Read the next block of data from the file. Return -1 when an error
    occurs and requires our attention, 1 if there is no more data to be
    read, otherwise zero.  On a descriptor that is not the read end of an
    open pipe read() fails (EBADF). *)
Definition read_from_pipe (tr : track_t) (w : world) : outcome (Z * track_t * world) :=
  match w_fds w !! tr_fd tr with
  | Some (PipeRead s) =>
      let* (r, tr1, w1, s1) := read_loop s tr w in
      Ret (r, tr1, set_fds w1 (<[tr_fd tr := PipeRead s1]> (w_fds w1)))
  | _ =>
      let* (r, tr1, w1, _) := read_loop [IoError] tr w in
      Ret (r, tr1, w1)
  end.

(** The mutex is left out: one thread is followed. *)
Definition track_init (tr : track_t) (importer : string) : track_t :=
  {| tr_importer := importer; tr_artist := None; tr_title := None;
     tr_pid := 0; tr_fd := tr_fd tr; tr_pe := tr_pe tr;
     tr_blocks := 0; tr_block := tr_block tr;
     tr_bytes := 0; tr_length := 0; tr_rate := TRACK_RATE;
     tr_ppm := tr_ppm tr; tr_overview := tr_overview tr |}.

(** for (n = 0; n < tr->blocks; n++) free(tr->block[n]); *)
Fixpoint free_loop (count : nat) (n : Z) (tr : track_t) (w : world) : outcome world :=
  match count with
  | O => Ret w
  | S count' =>
      match array_get (tr_block tr) n with
      | Some p => let* w1 := free w p in free_loop count' (n + 1) tr w1
      | None => Undefined
      end
  end.

(** Destroy this track from memory, and any child process *)
Definition track_clear (tr : track_t) (w : world) : outcome (track_t * world) :=
  let* (tr1, w1) :=
    if decide (tr_pid tr ≠ 0) then abort_import tr w else Ret (tr, w) in
  let* w2 := free_loop (Z.to_nat (tr_blocks tr1)) 0 tr1 w1 in
  Ret (tr1, w2).

(** Return the number of file descriptors which should be watched for
    this track, and fill pe *)
Definition track_pollfd (tr : track_t) (pe : Z) (w : world) : outcome (Z * track_t * world) :=
  if decide (tr_pid tr ≠ 0) then
    match w_pollfds w !! pe with
    | Some _ =>
        Ret (1, set_pe tr (Some pe),
             set_pollfds w (<[pe := {| pfd_fd := tr_fd tr; pfd_events := POLLIN;
                                       pfd_revents := 0 |}]> (w_pollfds w)))
    | None => Undefined
    end
  else Ret (0, set_pe tr None, w).

(** Handle any activity on this track, whatever the current state *)
Definition track_handle (tr : track_t) (w : world) : outcome (Z * track_t * world) :=
  match tr_pe tr with
  | None => Ret (0, tr, w)
  | Some pe =>
      match w_pollfds w !! pe with
      | None => Undefined
      | Some e =>
          if decide (pfd_revents e = 0) then Ret (0, tr, w)
          else if decide (tr_pid tr ≠ 0) then
            let* (r, tr1, w1) := read_from_pipe tr w in
            if decide (r ≠ 0) then
              let* (tr2, w2) := stop_import tr1 w1 in Ret (0, tr2, w2)
            else Ret (0, tr1, w1)
          else Ret (0, tr, w)
      end
  end.

(** A request to begin importing a new track. Can be called when the
    track is in any state *)
Definition track_import (tr : track_t) (path : string) (sc : spawn_calls) (w : world)
  : outcome (Z * track_t * world) :=
  let* (tr1, w1) :=
    if decide (tr_pid tr ≠ 0) then abort_import tr w else Ret (tr, w) in
  let* (r, tr2, w2) := start_import tr1 path sc w1 in
  if decide (r < 0) then Ret (-1, tr2, w2)
  else Ret (0, tr2, rig_awaken w2).

End Track.

(* ================================================================= *)
(** ** Well-formed constants and states *)

Section Invariants.
Context `{C : track_consts}.

(** What the specification asks of the constants: both meter
    resolutions divide the block length, and a full track fits the
    [int] and [unsigned int] variables that count it. *)
Record consts_ok : Prop := {
  ck_samples : 0 < TRACK_BLOCK_SAMPLES;
  ck_ppm : 0 < TRACK_PPM_RES;
  ck_ppm_div : (TRACK_PPM_RES | TRACK_BLOCK_SAMPLES);
  ck_overview : 0 < TRACK_OVERVIEW_RES;
  ck_overview_div : (TRACK_OVERVIEW_RES | TRACK_BLOCK_SAMPLES);
  ck_blocks : 0 < TRACK_MAX_BLOCKS;
  ck_fits : TRACK_MAX_BLOCKS * TRACK_BLOCK_PCM_BYTES < 2 ^ 31 }.

(** The three arrays of a block have the lengths of their types. *)
Definition block_sized (blk : track_block_t) : Prop :=
  Z.of_nat (length (blk_pcm blk)) = TRACK_BLOCK_PCM_BYTES ∧
  Z.of_nat (length (blk_ppm blk)) = TRACK_BLOCK_SAMPLES / TRACK_PPM_RES ∧
  Z.of_nat (length (blk_overview blk)) = TRACK_BLOCK_SAMPLES / TRACK_OVERVIEW_RES.

Definition block_live (w : world) (p : nat) : Prop :=
  ∃ blk, w_heap w !! p = Some (Some blk) ∧ block_sized blk.

Definition malloc_ok (w : world) : Prop :=
  Forall (λ o, ∀ g, o = Some g → block_sized g) (w_malloc w).

(** The blocks the track owns: the first [tr_blocks] entries of the
    array. *)
Definition owned_blocks (tr : track_t) : list nat :=
  take (Z.to_nat (tr_blocks tr)) (tr_block tr).

Record track_ok (tr : track_t) (w : world) : Prop := {
  ok_blocks : 0 <= tr_blocks tr <= TRACK_MAX_BLOCKS;
  ok_array : Z.of_nat (length (tr_block tr)) = TRACK_MAX_BLOCKS;
  ok_bytes : 0 <= tr_bytes tr <= tr_blocks tr * TRACK_BLOCK_PCM_BYTES;
  ok_length : tr_length tr * SAMPLE <= tr_bytes tr < tr_length tr * SAMPLE + SAMPLE;
  ok_live : Forall (block_live w) (owned_blocks tr);
  ok_nodup : NoDup (owned_blocks tr);
  ok_malloc : malloc_ok w }.

(** An import in progress has its child and the read end of its pipe. *)
Definition import_ok (tr : track_t) (w : world) : Prop :=
  tr_pid tr ≠ 0 →
  0 < tr_pid tr ∧ tr_pid tr ∈ w_children w ∧
  ∃ s, w_fds w !! tr_fd tr = Some (PipeRead s).

(** The states of a track between [track_init] and [track_clear],
    those inside [read_from_pipe] included. *)
Inductive reachable : track_t → world → Prop :=
| reach_init tr importer w :
    Z.of_nat (length (tr_block tr)) = TRACK_MAX_BLOCKS →
    malloc_ok w →
    reachable (track_init tr importer) w
| reach_import tr w path sc r tr' w' :
    reachable tr w →
    track_import tr path sc w = Ret (r, tr', w') →
    reachable tr' w'
| reach_pollfd tr w pe r tr' w' :
    reachable tr w →
    track_pollfd tr pe w = Ret (r, tr', w') →
    reachable tr' w'
| reach_handle tr w r tr' w' :
    reachable tr w →
    track_handle tr w = Ret (r, tr', w') →
    reachable tr' w'
| reach_access tr w o tr' w' :
    reachable tr w →
    access_pcm_data tr w = Ret (o, tr', w') →
    reachable tr' w'
| reach_ingest tr w rg tr1 w1 bs tr2 w2 :
    reachable tr w →
    access_pcm_data tr w = Ret (Some rg, tr1, w1) →
    0 < Z.of_nat (length bs) <= rg_len rg →
    ingest tr1 rg bs w1 = Ret (tr2, w2) →
    reachable tr2 w2.

End Invariants.

(* ================================================================= *)
(** ** Runs of the block store, and a small configuration *)

Section Runs.
Context `{C : track_consts}.

(** Any number of turns of the loop of [read_from_pipe] in which read()
    returns bytes: a region is asked for, at most its capacity is
    written and committed. *)
Inductive ingest_steps : track_t → world → track_t → world → Prop :=
| steps_nil tr w : ingest_steps tr w tr w
| steps_cons tr w rg tr1 w1 bs tr2 w2 tr3 w3 :
    access_pcm_data tr w = Ret (Some rg, tr1, w1) →
    0 < Z.of_nat (length bs) <= rg_len rg →
    ingest tr1 rg bs w1 = Ret (tr2, w2) →
    ingest_steps tr2 w2 tr3 w3 →
    ingest_steps tr w tr3 w3.

(** The next call of malloc answers NULL. *)
Definition malloc_fails (w : world) : Prop := fst (malloc w) = None.

(** The state in which [read_from_pipe] holds a region: the cursor is
    inside the block that the region points into. *)
Definition region_at (tr : track_t) (w : world) (rg : region) : Prop :=
  track_ok tr w ∧
  tr_bytes tr < tr_blocks tr * TRACK_BLOCK_PCM_BYTES ∧
  tr_block tr !! Z.to_nat (tr_bytes tr / TRACK_BLOCK_PCM_BYTES) = Some (rg_block rg) ∧
  block_live w (rg_block rg) ∧
  rg_fill rg = tr_bytes tr mod TRACK_BLOCK_PCM_BYTES ∧
  rg_len rg = TRACK_BLOCK_PCM_BYTES - tr_bytes tr mod TRACK_BLOCK_PCM_BYTES.

(** The region that is left once [m] bytes of it are committed. *)
Definition region_rest (rg : region) (m : Z) : region :=
  {| rg_block := rg_block rg; rg_fill := rg_fill rg + m; rg_len := rg_len rg - m |}.

(** The fields that the block store never touches. *)
Definition same_import (tr tr' : track_t) (w w' : world) : Prop :=
  tr_pid tr' = tr_pid tr ∧ tr_fd tr' = tr_fd tr ∧ tr_pe tr' = tr_pe tr ∧
  w_fds w' = w_fds w ∧ w_children w' = w_children w ∧ w_pollfds w' = w_pollfds w ∧
  w_awakened w' = w_awakened w.

(** The fields that [track_ok] looks at. *)
Definition same_store (tr tr' : track_t) (w w' : world) : Prop :=
  tr_blocks tr' = tr_blocks tr ∧ tr_block tr' = tr_block tr ∧
  tr_bytes tr' = tr_bytes tr ∧ tr_length tr' = tr_length tr ∧
  w_heap w' = w_heap w ∧ w_malloc w' = w_malloc w.

End Runs.

(** Blocks of four samples, two of them at most; a ppm byte every two
    samples and an overview byte every four. *)
Definition demo_consts : track_consts :=
  {| TRACK_RATE := 44100; TRACK_MAX_BLOCKS := 2; TRACK_BLOCK_SAMPLES := 4;
     TRACK_PPM_RES := 2; TRACK_OVERVIEW_RES := 4 |}.

(** What malloc returns: memory that was not cleared. *)
Definition demo_block : track_block_t :=
  {| blk_pcm := repeat "170"%byte 16; blk_ppm := [85; 85]; blk_overview := [85] |}.

(** A struct track_t before [track_init]. *)
Definition demo_struct : track_t :=
  {| tr_importer := ""; tr_artist := None; tr_title := None;
     tr_pid := 21845; tr_fd := 21845; tr_pe := None;
     tr_blocks := 21845; tr_block := [7%nat; 7%nat];
     tr_bytes := 21845; tr_length := 21845; tr_rate := 21845;
     tr_ppm := 21845; tr_overview := 21845 |}.

Definition demo_track : track_t := track_init (C := demo_consts) demo_struct "xwax-import".

Definition demo_world : world :=
  {| w_heap := []; w_malloc := [Some demo_block; Some demo_block];
     w_fds := ∅; w_children := ∅;
     w_pollfds := {[ 100 := {| pfd_fd := 0; pfd_events := 0; pfd_revents := 0 |} ]};
     w_awakened := 0 |}.

(** The track and the world once the first block is allocated, the
    region then returned, and the world after [track_clear]. *)
Definition demo_region : region := {| rg_block := 0; rg_fill := 0; rg_len := 16 |}.
Definition demo_track1 : track_t := set_block demo_track 1 [0%nat; 7%nat].
Definition demo_world1 : world :=
  set_malloc (set_heap demo_world [Some demo_block]) [Some demo_block].
Definition demo_world_cleared : world := set_heap demo_world1 [None].

(** The child writes two samples and one byte, pauses, then writes the
    three bytes that complete the third sample, and exits. *)
Definition demo_script : list pipe_event :=
  [Data ["000"; "128"; "000"; "128"; "016"; "039"; "240"; "216"; "001"]%byte;
   WouldBlock;
   Data ["000"; "255"; "127"]%byte].

Definition demo_spawn : spawn_calls :=
  {| sc_pipe := Some (3, 4); sc_fcntl := true; sc_vfork := Some (1234, demo_script) |}.

(** The track and the world once the import of [demo_spawn] has
    started and its first block is allocated. *)
Definition demo_importing : track_t * world :=
  match track_import (C := demo_consts) demo_track "track.ogg" demo_spawn demo_world with
  | Ret (_, tr, w) =>
      match access_pcm_data (C := demo_consts) tr w with
      | Ret (_, tr', w') => (tr', w')
      | _ => (tr, w)
      end
  | _ => (demo_track, demo_world)
  end.

(** vfork() fails. *)
Definition demo_spawn_fails : spawn_calls :=
  {| sc_pipe := Some (3, 4); sc_fcntl := true; sc_vfork := None |}.

(** poll() has returned: the entry that [track_pollfd] filled reports
    that the pipe can be read. *)
Definition polled (pe : Z) (p : track_t * world) : track_t * world :=
  match track_pollfd (fst p) pe (snd p) with
  | Ret (_, tr, w) =>
      (tr, set_pollfds w (<[pe := {| pfd_fd := tr_fd tr; pfd_events := POLLIN;
                                     pfd_revents := POLLIN |}]> (w_pollfds w)))
  | _ => p
  end.

(** The small track is polled while it imports. *)
Definition demo_polled : track_t * world := polled 100 demo_importing.

(** A child that writes two samples in two chunks and exits, and the
    small track polled once the import of it has started. *)
Definition demo_spawn_short : spawn_calls :=
  {| sc_pipe := Some (3, 4); sc_fcntl := true;
     sc_vfork := Some (1234, map Data [["000"; "128"; "000"; "128"; "016"];
                                       ["039"; "240"; "216"]]%byte) |}.

Definition demo_short : track_t * world :=
  polled 100
    match track_import (C := demo_consts) demo_track "track.ogg" demo_spawn_short demo_world with
    | Ret (_, tr, w) => (tr, w)
    | _ => (demo_track, demo_world)
    end.

(* ================================================================= *)
(** ** The byte stream of a script *)

(** The same events with the data written between two of them joined
    in one chunk: what the pipe holds does not depend on how the child
    cut its writes. *)
Fixpoint merge_data (s : list pipe_event) : list pipe_event :=
  match s with
  | [] => []
  | Data a :: s' =>
      match merge_data s' with
      | Data b :: s'' => Data (a ++ b) :: s''
      | t => match a with [] => t | _ => Data a :: t end
      end
  | e :: s' => e :: merge_data s'
  end.

(** No empty chunk, no two chunks in a row. *)
Fixpoint merged (s : list pipe_event) : Prop :=
  match s with
  | [] => True
  | Data a :: s' =>
      a ≠ [] ∧ match s' with Data _ :: _ => False | _ => True end ∧ merged s'
  | _ :: s' => merged s'
  end.

(** Two results of the loop of [read_from_pipe] that differ at most in
    how the data left in the pipe is cut. *)
Definition pump_same (o1 o2 : outcome (Z * track_t * world * list pipe_event)) : Prop :=
  ∃ r tr w s1 s2,
    o1 = Ret (r, tr, w, s1) ∧ o2 = Ret (r, tr, w, s2) ∧ merge_data s1 = merge_data s2.

(* ================================================================= *)
(** ** Observations of a track *)

(** The samples of the block at address [p]. *)
Definition block_pcm (w : world) (p : nat) : list byte :=
  match w_heap w !! p with
  | Some (Some blk) => blk_pcm blk
  | _ => []
  end.

(** The audio a track holds: the bytes of its blocks in order, up to
    the byte cursor [tr_bytes]. *)
Definition stored_pcm (tr : track_t) (w : world) : list byte :=
  take (Z.to_nat (tr_bytes tr)) (concat (map (block_pcm w) (owned_blocks tr))).

(** The bytes a script still holds. *)
Fixpoint script_bytes (s : list pipe_event) : list byte :=
  match s with
  | [] => []
  | Data bs :: s' => bs ++ script_bytes s'
  | _ :: s' => script_bytes s'
  end.

(** The next [n] calls of malloc give a block. *)
Definition malloc_grants (w : world) (n : Z) : Prop :=
  forall i, 0 <= i < n -> exists g, w_malloc w !! Z.to_nat i = Some (Some g).

(** The fast meter after [n] samples of the same value [v]. *)
Fixpoint ppm_n (n : nat) (ppm v : Z) : Z :=
  match n with
  | O => ppm
  | S k => ppm_update (ppm_n k ppm v) v
  end.


(* ================================================================= *)
(** * Properties *)

(* ================================================================= *)
(** ** The pitch filter *)

Module PitchTheory.
Import Reals Lra Psatz Pitch.
Local Open Scope R_scope.

Lemma observe_dt p dx : dt (pitch_dt_observation p dx) = dt p.
Proof. reflexivity. Qed.

Lemma observe_n_dt n p dx : dt (observe_n n p dx) = dt p.
Proof. induction n as [|n IH]; simpl; [reflexivity|]. exact IH. Qed.


(** The update in closed form: the position left over and the velocity
    both move by a fraction of the prediction error. *)
Lemma observe_closed_form p dx :
  dt p <> 0 ->
  x (pitch_dt_observation p dx) = (1 - ALPHA) * (x p + v p * dt p - dx) /\
  v (pitch_dt_observation p dx) = v p - BETA * (x p + v p * dt p - dx) / dt p /\
  dt (pitch_dt_observation p dx) = dt p.
Proof.
  intros Hdt. unfold pitch_dt_observation. simpl. split; [ring|]. split; [|reflexivity].
  field. exact Hdt.
Qed.

(** One observation of [c] scales the energy by [1 - ALPHA]. *)
Lemma energy_step p c : dt p <> 0 ->
  energy (pitch_dt_observation p c) c = (1 - ALPHA) * energy p c.
Proof.
  intros Hdt. unfold energy, err_s, err_y, pitch_dt_observation, BETA, ALPHA, Rsqr. simpl.
  field. exact Hdt.
Qed.

Lemma energy_n n p c : dt p <> 0 ->
  energy (observe_n n p c) c = (1 - ALPHA) ^ n * energy p c.
Proof.
  intros Hdt. induction n as [|n IH]; simpl; [ring|].
  rewrite energy_step by (rewrite observe_n_dt; exact Hdt).
  rewrite IH. ring.
Qed.

Lemma energy_bounds_y p c : (err_y p c)² <= 3 * energy p c.
Proof.
  unfold energy, BETA, ALPHA, Rsqr.
  generalize (err_s p c) (err_y p c). intros s y.
  pose proof (Rle_0_sqr (s - 1025 / 2 * y)) as H1.
  pose proof (Rle_0_sqr y) as H2. unfold Rsqr in *. lra.
Qed.

Lemma energy_bounds_s p c : (err_s p c)² <= 2097152 * energy p c.
Proof.
  unfold energy, BETA, ALPHA, Rsqr.
  generalize (err_s p c) (err_y p c). intros s y.
  pose proof (Rle_0_sqr (1025 / 1024 * s - 1024 * y)) as H1.
  pose proof (Rle_0_sqr s) as H2. unfold Rsqr in *. lra.
Qed.

Lemma energy_nonneg p c : 0 <= energy p c.
Proof. pose proof (energy_bounds_y p c). pose proof (Rle_0_sqr (err_y p c)). lra. Qed.

Lemma alpha_pow_le_1 n : 0 <= (1 - ALPHA) ^ n <= 1.
Proof.
  assert (0 <= 1 - ALPHA <= 1) as [H0 H1] by (unfold ALPHA; lra).
  induction n as [|n [IH0 IH1]]; simpl; [lra|]. split; nra.
Qed.

Lemma sqr_lt_abs a e : 0 < e -> a * a < e * e -> Rabs a < e.
Proof.
  intros He H. unfold Rabs. destruct (Rcase_abs a); nra.
Qed.

Lemma abs_le_sqr a m : a * a <= m -> Rabs a <= 1 + m.
Proof.
  intros H. unfold Rabs. destruct (Rcase_abs a); nra.
Qed.

Lemma observe_fixed dt0 c : dt0 <> 0 ->
  pitch_dt_observation {| dt := dt0; x := 0; v := c / dt0 |} c
  = {| dt := dt0; x := 0; v := c / dt0 |}.
Proof.
  intros Hdt. unfold pitch_dt_observation, BETA, ALPHA. simpl.
  f_equal; field; exact Hdt.
Qed.

Lemma observe_fixed_unique p c : dt p <> 0 ->
  pitch_dt_observation p c = p -> x p = 0 /\ v p = c / dt p.
Proof.
  intros Hdt H.
  assert (energy p c = 0) as HE.
  { pose proof (energy_step p c Hdt) as Hs. rewrite H in Hs.
    unfold ALPHA in Hs. lra. }
  pose proof (energy_bounds_y p c) as Hy. pose proof (energy_bounds_s p c) as Hs.
  rewrite HE in Hy, Hs.
  assert (err_y p c = 0) as Hy0.
  { apply Rsqr_0_uniq. pose proof (Rle_0_sqr (err_y p c)). lra. }
  assert (err_s p c = 0) as Hs0.
  { apply Rsqr_0_uniq. pose proof (Rle_0_sqr (err_s p c)). lra. }
  unfold err_s, err_y in *. split; [lra|].
  apply (Rmult_eq_reg_r (dt p)); [|exact Hdt].
  unfold Rdiv. rewrite Rmult_assoc, Rinv_l by exact Hdt. lra.
Qed.

Lemma observe_v_converges p c : dt p <> 0 ->
  forall eps, 0 < eps ->
  exists N, forall n, (N <= n)%nat -> Rabs (v (observe_n n p c) - c / dt p) < eps.
Proof.
  intros Hdt eps Heps.
  set (E := energy p c).
  assert (0 <= E) as HE by apply energy_nonneg.
  assert (0 < dt p * dt p) as Hdd by nra.
  destruct (pow_lt_1_zero (1 - ALPHA)) with (y := eps * eps * (dt p * dt p) / (3 * E + 1))
    as [N HN].
  { unfold ALPHA. rewrite Rabs_pos_eq; lra. }
  { apply Rdiv_lt_0_compat; [|lra].
    apply Rmult_lt_0_compat; [apply Rmult_lt_0_compat; exact Heps|exact Hdd]. }
  exists N. intros n Hn.
  apply sqr_lt_abs; [exact Heps|].
  specialize (HN n ltac:(lia)).
  rewrite Rabs_pos_eq in HN by apply alpha_pow_le_1.
  pose proof (energy_bounds_y (observe_n n p c) c) as Hy.
  rewrite energy_n in Hy by exact Hdt. fold E in Hy.
  unfold err_y, Rsqr in Hy. rewrite observe_n_dt in Hy.
  set (vn := v (observe_n n p c)) in *.
  set (q := (1 - ALPHA) ^ n) in *.
  assert (Hq : q * (3 * E + 1) < eps * eps * (dt p * dt p)).
  { apply (Rmult_lt_compat_r (3 * E + 1)) in HN; [|lra].
    unfold Rdiv in HN. rewrite Rmult_assoc, Rinv_l, Rmult_1_r in HN by lra. exact HN. }
  assert (0 <= q) as Hq0 by apply alpha_pow_le_1.
  assert (Hd : (vn - c / dt p) * (vn - c / dt p) * (dt p * dt p)
               = (vn * dt p - c) * (vn * dt p - c)) by (field; exact Hdt).
  apply (Rmult_lt_reg_r (dt p * dt p)); [exact Hdd|].
  rewrite Hd. nra.
Qed.

Lemma observe_x_bounded p c : dt p <> 0 ->
  exists B, forall n, Rabs (x (observe_n n p c)) <= B.
Proof.
  intros Hdt. set (E := energy p c).
  assert (0 <= E) as HE by apply energy_nonneg.
  exists (Rabs (x p) + 1 + 2097152 * E). intros [|n].
  - simpl. pose proof (Rabs_pos (x p)). lra.
  - change (observe_n (S n) p c) with (pitch_dt_observation (observe_n n p c) c).
    set (q := observe_n n p c).
    assert (Hx : x (pitch_dt_observation q c) = (1 - ALPHA) * err_s q c).
    { unfold pitch_dt_observation, err_s; simpl. ring. }
    rewrite Hx.
    pose proof (energy_bounds_s q c) as Hs. unfold q in Hs at 2.
    rewrite energy_n in Hs by exact Hdt. fold E in Hs. unfold Rsqr in Hs.
    pose proof (alpha_pow_le_1 n) as [Hp0 Hp1].
    pose proof (Rabs_pos (x p)).
    assert (Rabs ((1 - ALPHA) * err_s q c) <= 1 + 2097152 * E); [|lra].
    apply abs_le_sqr. unfold ALPHA.
    assert ((1 - ALPHA) ^ n * E <= E) by nra.
    set (s := err_s q c) in *. nra.
Qed.

(** C9. For [dt <> 0] and a constant input [c], the state [x = 0],
    [v = c / dt] is a fixed point of the observation of [c]; it is the
    only one with that [dt]; and from every state with that [dt] the
    velocity converges to [c / dt] under repeated observation of [c]
    while [x] stays bounded.  Over the reals. *)
Theorem constant_observation_fixed_point (p : pitch_t) (c : R) : dt p <> 0 ->
  let fp := {| dt := dt p; x := 0; v := c / dt p |} in
  pitch_dt_observation fp c = fp /\
  (forall q, dt q = dt p -> pitch_dt_observation q c = q -> q = fp) /\
  (forall eps, 0 < eps -> exists N, forall n, (N <= n)%nat ->
      Rabs (v (observe_n n p c) - c / dt p) < eps) /\
  (exists B, forall n, Rabs (x (observe_n n p c)) <= B).
Proof.
  intros Hdt fp. split; [|split; [|split]].
  - apply observe_fixed, Hdt.
  - intros q Hq Hfix.
    destruct (observe_fixed_unique q c) as [Hx Hv]; [congruence|exact Hfix|].
    destruct q as [qd qx qv]; simpl in *. subst. reflexivity.
  - apply observe_v_converges, Hdt.
  - apply observe_x_bounded, Hdt.
Qed.

(** [constant_observation_fixed_point] for dt = 1 and c = 2, from
    rest. *)
Lemma constant_observation_fixed_point_witness :
  let p := pitch_init 1 in
  let fp := {| dt := 1; x := 0; v := 2 / 1 |} in
  pitch_dt_observation fp 2 = fp /\
  (forall q, dt q = 1 -> pitch_dt_observation q 2 = q -> q = fp) /\
  (forall eps, 0 < eps -> exists N, forall n, (N <= n)%nat ->
      Rabs (v (observe_n n p 2) - 2 / 1) < eps) /\
  (exists B, forall n, Rabs (x (observe_n n p 2)) <= B).
Proof.
  apply (constant_observation_fixed_point (pitch_init 1) 2). simpl. lra.
Defined.



End PitchTheory.

(** How fast the filter settles. *)
Module PitchSettling.
Import Reals Lra Psatz Pitch PitchTheory.
Local Open Scope R_scope.

Lemma sqr_bound a b b' : 0 <= a <= b -> b * b <= b' -> 0 <= a * a <= b'.
Proof. intros H1 H2. nra. Qed.

Lemma pow_double (a : R) n : a ^ (n + n) = a ^ n * a ^ n.
Proof. apply pow_add. Qed.

(** 512 observations halve the energy, at least. *)
Lemma alpha_pow_512 : (1 - ALPHA) ^ 512 <= 1 / 2.
Proof.
  unfold ALPHA. set (a := 1 - 1 / 512).
  assert (0 <= a ^ 1 <= 511 / 512) as H0 by (unfold a; simpl; lra).
  pose proof (sqr_bound _ _ (9962 / 10000) H0 ltac:(lra)) as H1. rewrite <- pow_double in H1.
  pose proof (sqr_bound _ _ (9925 / 10000) H1 ltac:(lra)) as H2. rewrite <- pow_double in H2.
  pose proof (sqr_bound _ _ (9851 / 10000) H2 ltac:(lra)) as H3. rewrite <- pow_double in H3.
  pose proof (sqr_bound _ _ (9705 / 10000) H3 ltac:(lra)) as H4. rewrite <- pow_double in H4.
  pose proof (sqr_bound _ _ (9419 / 10000) H4 ltac:(lra)) as H5. rewrite <- pow_double in H5.
  pose proof (sqr_bound _ _ (8872 / 10000) H5 ltac:(lra)) as H6. rewrite <- pow_double in H6.
  pose proof (sqr_bound _ _ (7872 / 10000) H6 ltac:(lra)) as H7. rewrite <- pow_double in H7.
  pose proof (sqr_bound _ _ (6197 / 10000) H7 ltac:(lra)) as H8. rewrite <- pow_double in H8.
  pose proof (sqr_bound _ _ (1 / 2) H8 ltac:(lra)) as H9. rewrite <- pow_double in H9.
  exact (proj2 H9).
Qed.

Lemma alpha_pow_settled n : (Z.of_nat n >= 10000)%Z -> (1 - ALPHA) ^ n <= 1 / 524288.
Proof.
  intros Hn. replace n with (512 * 19 + (n - 512 * 19))%nat by lia.
  rewrite pow_add, pow_mult.
  pose proof (alpha_pow_le_1 (n - 512 * 19)) as [Hm0 Hm1].
  pose proof (alpha_pow_le_1 512) as [Hp0 _].
  assert (((1 - ALPHA) ^ 512) ^ 19 <= (1 / 2) ^ 19) as Hq
    by (apply pow_incr; split; [exact Hp0|exact alpha_pow_512]).
  assert (0 <= ((1 - ALPHA) ^ 512) ^ 19) as Hq0 by (apply pow_le; exact Hp0).
  replace ((1 / 2) ^ 19) with (1 / 524288) in Hq by (simpl; field).
  set (u := ((1 - ALPHA) ^ 512) ^ 19) in *.
  set (t := (1 - ALPHA) ^ (n - 512 * 19)) in *.
  nra.
Qed.

Lemma energy_from_rest dt0 c : energy (pitch_init dt0) c = (1 - ALPHA) * (c * c).
Proof. unfold energy, err_s, err_y, pitch_init, BETA, ALPHA, Rsqr. simpl. field. Qed.

(** X1. For [dt <> 0], [n] observations of a constant input [c] scale
    the quadratic form [energy] of the distance to the fixed point by
    exactly [(1 - ALPHA) ^ n]; the squared error of the velocity (times
    [dt]) is at most 3 times, and the squared residual of the next
    observation at most 2097152 times, that decayed energy.  Over the
    reals. *)
Theorem observe_error_decay (p : pitch_t) (c : R) (n : nat) : dt p <> 0 ->
  let q := observe_n n p c in
  energy q c = (1 - ALPHA) ^ n * energy p c /\
  (v q * dt p - c)² <= 3 * (1 - ALPHA) ^ n * energy p c /\
  (x q + v q * dt p - c)² <= 2097152 * (1 - ALPHA) ^ n * energy p c /\
  0 <= energy q c <= energy p c.
Proof.
  intros Hdt q. pose proof (energy_n n p c Hdt) as He. fold q in He.
  pose proof (energy_bounds_y q c) as Hy. pose proof (energy_bounds_s q c) as Hs.
  unfold err_y, err_s in Hy, Hs. unfold q in Hy at 2, Hs at 3.
  rewrite observe_n_dt in Hy, Hs. fold q in Hy, Hs. rewrite He in Hy, Hs.
  split; [exact He|]. split; [lra|]. split; [lra|].
  pose proof (energy_nonneg q c) as H0. pose proof (energy_nonneg p c) as H1.
  pose proof (alpha_pow_le_1 n) as [Ha0 Ha1]. split; [exact H0|]. rewrite He. nra.
Qed.

Lemma observe_error_decay_witness :
  let q := observe_n 3 (pitch_init 1) 2 in
  energy q 2 = (1 - ALPHA) ^ 3 * energy (pitch_init 1) 2 /\
  (v q * 1 - 2)² <= 3 * (1 - ALPHA) ^ 3 * energy (pitch_init 1) 2 /\
  (x q + v q * 1 - 2)² <= 2097152 * (1 - ALPHA) ^ 3 * energy (pitch_init 1) 2 /\
  0 <= energy q 2 <= energy (pitch_init 1) 2.
Proof. apply (observe_error_decay (pitch_init 1) 2 3). simpl. lra. Defined.

(** X2. From rest ([pitch_init dt0], [dt0 <> 0]), after at least
    10000 observations of a constant [c] the velocity is within one
    percent of [c / dt0].  Over the reals. *)
Theorem velocity_settles_from_rest (dt0 c : R) (n : nat) :
  dt0 <> 0 -> (Z.of_nat n >= 10000)%Z ->
  Rabs (v (observe_n n (pitch_init dt0) c) - c / dt0) <= Rabs (c / dt0) / 100.
Proof.
  intros Hdt Hn.
  assert (dt (pitch_init dt0) <> 0) as Hdp by exact Hdt.
  pose proof (energy_bounds_y (observe_n n (pitch_init dt0) c) c) as Hy.
  rewrite (energy_n n _ c Hdp), energy_from_rest in Hy.
  unfold err_y in Hy. rewrite observe_n_dt in Hy. change (dt (pitch_init dt0)) with dt0 in Hy.
  set (vn := v (observe_n n (pitch_init dt0) c)) in *.
  pose proof (alpha_pow_settled n Hn) as Hq.
  pose proof (alpha_pow_le_1 n) as [Hq0 _].
  set (q := (1 - ALPHA) ^ n) in *.
  assert ((vn * dt0 - c)² <= (c / 100)²) as Hsq.
  { unfold Rsqr in *. unfold ALPHA in Hy.
    assert (0 <= c * c) as Hcc by nra.
    assert (q * (c * c) <= 1 / 524288 * (c * c)) by nra. nra. }
  apply Rsqr_le_abs_0 in Hsq.
  replace (vn - c / dt0) with ((vn * dt0 - c) * / dt0) by (field; exact Hdt).
  replace (c / dt0) with (c * / dt0) by reflexivity.
  rewrite !Rabs_mult, Rabs_inv.
  replace (Rabs (c / 100)) with (Rabs c / 100) in Hsq
    by (unfold Rdiv; rewrite Rabs_mult, (Rabs_pos_eq (/ 100)) by lra; reflexivity).
  assert (0 < / Rabs dt0) as Hi by (apply Rinv_0_lt_compat, Rabs_pos_lt; exact Hdt).
  nra.
Qed.

Lemma velocity_settles_from_rest_witness :
  Rabs (v (observe_n (Z.to_nat 10000) (pitch_init (1 / 48000)) (1 / 48000))
        - (1 / 48000) / (1 / 48000))
  <= Rabs ((1 / 48000) / (1 / 48000)) / 100.
Proof.
  apply (velocity_settles_from_rest (1 / 48000) (1 / 48000) (Z.to_nat 10000)); [lra|lia].
Defined.

End PitchSettling.

(* ================================================================= *)
(** ** The block store *)

Lemma uint_small z : 0 <= z < 2 ^ 32 -> uint z = z.
Proof. intros H. unfold uint. apply Z.mod_small. exact H. Qed.

Lemma uint_range z : 0 <= uint z < 2 ^ 32.
Proof. unfold uint. apply Z.mod_pos_bound. lia. Qed.

Lemma array_get_lookup {A} (l : list A) i :
  0 <= i -> array_get l i = l !! Z.to_nat i.
Proof. intros H. unfold array_get. destruct (decide (0 <= i)); [reflexivity|lia]. Qed.

Section BlockStore.
Context `{C : track_consts}.
Hypothesis CK : consts_ok.

Lemma block_bytes_eq : TRACK_BLOCK_PCM_BYTES = TRACK_BLOCK_SAMPLES * 4.
Proof. reflexivity. Qed.

Lemma block_bytes_pos : 0 < TRACK_BLOCK_PCM_BYTES.
Proof. rewrite block_bytes_eq. pose proof (ck_samples CK). lia. Qed.

Lemma max_blocks_small : TRACK_MAX_BLOCKS < 2 ^ 31.
Proof.
  pose proof (ck_fits CK). pose proof (ck_blocks CK). pose proof block_bytes_pos. nia.
Qed.

Lemma block_bytes_small : TRACK_BLOCK_PCM_BYTES < 2 ^ 31.
Proof.
  pose proof (ck_fits CK). pose proof (ck_blocks CK). pose proof block_bytes_pos. nia.
Qed.

(** The block in which byte [b] falls. *)
Lemma block_index_bounds b n :
  0 <= n -> 0 <= b <= n * TRACK_BLOCK_PCM_BYTES ->
  0 <= b / TRACK_BLOCK_PCM_BYTES <= n /\
  (b / TRACK_BLOCK_PCM_BYTES = n <-> b = n * TRACK_BLOCK_PCM_BYTES).
Proof.
  intros Hn Hb. pose proof block_bytes_pos as HB.
  assert (TRACK_BLOCK_PCM_BYTES <> 0) as HB0 by lia.
  pose proof (Z.div_mod b TRACK_BLOCK_PCM_BYTES HB0) as Hdm.
  pose proof (Z.mod_pos_bound b TRACK_BLOCK_PCM_BYTES HB) as Hm.
  split; [split; [apply Z.div_pos; lia|]|split].
  - apply Z.div_le_upper_bound; lia.
  - intros E. rewrite E in Hdm. nia.
  - intros ->. apply Z.div_mul. lia.
Qed.

Lemma track_bytes_small tr w : track_ok tr w -> 0 <= tr_bytes tr < 2 ^ 31.
Proof.
  intros OK. destruct (ok_bytes _ _ OK) as [H0 H1]. destruct (ok_blocks _ _ OK) as [H2 H3].
  pose proof (ck_fits CK). pose proof block_bytes_pos. split; [lia|]. nia.
Qed.


Lemma owned_lookup tr w i :
  track_ok tr w -> 0 <= i < tr_blocks tr ->
  exists p, tr_block tr !! Z.to_nat i = Some p /\ owned_blocks tr !! Z.to_nat i = Some p /\
            block_live w p.
Proof.
  intros OK Hi. pose proof (ok_array _ _ OK) as Ha. pose proof (ok_blocks _ _ OK) as Hb.
  destruct (lookup_lt_is_Some_2 (tr_block tr) (Z.to_nat i)) as [p Hp]; [lia|].
  exists p. split; [exact Hp|].
  assert (owned_blocks tr !! Z.to_nat i = Some p) as Ho.
  { unfold owned_blocks. rewrite lookup_take_lt by lia. exact Hp. }
  split; [exact Ho|].
  exact (proj1 (Forall_lookup _ _) (ok_live _ _ OK) _ _ Ho).
Qed.

(** The cursor is inside an allocated block: no allocation. *)
Lemma access_inside tr w :
  track_ok tr w -> tr_bytes tr < tr_blocks tr * TRACK_BLOCK_PCM_BYTES ->
  exists p, tr_block tr !! Z.to_nat (tr_bytes tr / TRACK_BLOCK_PCM_BYTES) = Some p /\
    block_live w p /\
    access_pcm_data tr w =
      Ret (Some {| rg_block := p; rg_fill := tr_bytes tr mod TRACK_BLOCK_PCM_BYTES;
                   rg_len := TRACK_BLOCK_PCM_BYTES - tr_bytes tr mod TRACK_BLOCK_PCM_BYTES |},
           tr, w).
Proof.
  intros OK Hlt. pose proof (ok_blocks _ _ OK) as Hb. pose proof (ok_bytes _ _ OK) as Hy.
  pose proof max_blocks_small as HM.
  destruct (block_index_bounds (tr_bytes tr) (tr_blocks tr)) as [Hi Hiff]; [lia|lia|].
  assert (tr_bytes tr / TRACK_BLOCK_PCM_BYTES < tr_blocks tr) as Hi'.
  { destruct (decide (tr_bytes tr / TRACK_BLOCK_PCM_BYTES = tr_blocks tr)) as [E|E]; [|lia].
    apply Hiff in E. lia. }
  destruct (owned_lookup tr w (tr_bytes tr / TRACK_BLOCK_PCM_BYTES) OK) as (p & Hp & _ & Hl);
    [lia|].
  exists p. split; [exact Hp|]. split; [exact Hl|].
  unfold access_pcm_data.
  rewrite (uint_small (tr_bytes tr / _)) by lia. rewrite (uint_small (tr_blocks tr)) by lia.
  destruct (decide (tr_bytes tr / TRACK_BLOCK_PCM_BYTES = tr_blocks tr)); [lia|].
  simpl. destruct (decide (0 = -1)); [lia|]. rewrite array_get_lookup, Hp by lia.
  reflexivity.
Qed.

(** The cursor is at the end of the last block and the track is full. *)
Lemma access_full tr w :
  track_ok tr w -> tr_bytes tr = tr_blocks tr * TRACK_BLOCK_PCM_BYTES ->
  tr_blocks tr = TRACK_MAX_BLOCKS ->
  access_pcm_data tr w = Ret (None, tr, w).
Proof.
  intros OK Hb Hm. pose proof max_blocks_small as HM. pose proof (ck_blocks CK).
  pose proof block_bytes_pos.
  unfold access_pcm_data. rewrite Hb, Z.div_mul by lia.
  destruct (decide (uint (tr_blocks tr) = uint (tr_blocks tr))); [|congruence].
  unfold more_space. destruct (decide (TRACK_MAX_BLOCKS <= tr_blocks tr)); [|lia].
  reflexivity.
Qed.

(** The cursor is at the end of the last block: the answer of malloc
    decides. *)
Lemma access_grow tr w :
  track_ok tr w -> tr_bytes tr = tr_blocks tr * TRACK_BLOCK_PCM_BYTES ->
  tr_blocks tr < TRACK_MAX_BLOCKS ->
  access_pcm_data tr w =
    match malloc w with
    | (None, w1) => Ret (None, tr, w1)
    | (Some p, w1) =>
        Ret (Some {| rg_block := p; rg_fill := 0; rg_len := TRACK_BLOCK_PCM_BYTES |},
             set_block tr (tr_blocks tr + 1) (<[Z.to_nat (tr_blocks tr) := p]> (tr_block tr)),
             w1)
    end.
Proof.
  intros OK Hb Hm. pose proof max_blocks_small as HM. pose proof (ck_blocks CK).
  pose proof block_bytes_pos. pose proof (ok_blocks _ _ OK). pose proof (ok_array _ _ OK).
  unfold access_pcm_data. rewrite Hb, Z.div_mul by lia.
  destruct (decide (uint (tr_blocks tr) = uint (tr_blocks tr))); [|congruence].
  unfold more_space. destruct (decide (TRACK_MAX_BLOCKS <= tr_blocks tr)); [lia|].
  destruct (malloc w) as [[p|] w1]; [|reflexivity].
  unfold store_idx. destruct (decide (0 <= tr_blocks tr < Z.of_nat (length (tr_block tr))));
    [|lia].
  simpl. destruct (decide (0 = -1)); [lia|].
  rewrite Hb, Z.mod_mul by lia. rewrite uint_small by lia.
  rewrite array_get_lookup, list_lookup_insert_eq by lia. rewrite Z.sub_0_r. reflexivity.
Qed.


Lemma set_meters_same tr : set_meters tr (tr_ppm tr) (tr_overview tr) = tr.
Proof. destruct tr; reflexivity. Qed.

Lemma heap_store_same w p blk :
  w_heap w !! p = Some (Some blk) -> heap_store w p blk = w.
Proof.
  intros H. unfold heap_store. rewrite list_insert_id by exact H. destruct w; reflexivity.
Qed.

Lemma heap_store_store w p b1 b2 :
  heap_store (heap_store w p b1) p b2 = heap_store w p b2.
Proof. unfold heap_store, set_heap. simpl. rewrite list_insert_insert_eq. reflexivity. Qed.

Lemma heap_store_lookup w p b blk :
  w_heap w !! p = Some (Some b) -> w_heap (heap_store w p blk) !! p = Some (Some blk).
Proof.
  intros H. unfold heap_store. simpl. apply list_lookup_insert_eq.
  apply lookup_lt_Some in H. exact H.
Qed.

Lemma heap_load_ret w p blk : w_heap w !! p = Some (Some blk) -> heap_load w p = Ret blk.
Proof. intros H. unfold heap_load. rewrite H. reflexivity. Qed.

(** The loop of [commit_pcm_samples] is [meter_blk] on the block that
    [p] points to. *)
Lemma meter_loop_blk n : forall p fill tr w blk,
  w_heap w !! p = Some (Some blk) ->
  meter_loop n p fill tr w =
    let* (ppm', ov', blk') := meter_blk n fill (tr_ppm tr) (tr_overview tr) blk in
    Ret (set_meters tr ppm' ov', heap_store w p blk').
Proof.
  induction n as [|n IH]; intros p fill tr w blk Hp.
  - simpl. rewrite set_meters_same, heap_store_same by exact Hp. reflexivity.
  - simpl. rewrite (heap_load_ret _ _ _ Hp). unfold meter_step. simpl.
    destruct (load_short (blk_pcm blk) (TRACK_CHANNELS * fill)) as [l| |]; try reflexivity.
    simpl.
    destruct (load_short (blk_pcm blk) (TRACK_CHANNELS * fill + 1)) as [r| |]; try reflexivity.
    simpl.
    destruct (store_idx (blk_ppm blk) _ _) as [ppms| |]; try reflexivity. simpl.
    destruct (store_idx (blk_overview blk) _ _) as [ovs| |]; try reflexivity. simpl.
    erewrite IH by (eapply heap_store_lookup; exact Hp). simpl.
    destruct (meter_blk n _ _ _ _) as [[[a b] blk']| |]; try reflexivity. simpl.
    rewrite heap_store_store. destruct tr; reflexivity.
Qed.


Lemma res_index_bound fill res :
  0 < res -> (res | TRACK_BLOCK_SAMPLES) -> 0 <= fill < TRACK_BLOCK_SAMPLES ->
  0 <= fill / res < TRACK_BLOCK_SAMPLES / res.
Proof.
  intros Hr [k Hk] Hf. rewrite Hk, Z.div_mul by lia. split; [apply Z.div_pos; lia|].
  apply Z.div_lt_upper_bound; lia.
Qed.

Lemma load_short_ret (mem : list byte) i :
  0 <= i -> 2 * i + 1 < Z.of_nat (length mem) -> exists z, load_short mem i = Ret z.
Proof.
  intros H0 H1. unfold load_short. rewrite !array_get_lookup by lia.
  destruct (lookup_lt_is_Some_2 mem (Z.to_nat (2 * i))) as [lo Hlo]; [lia|].
  destruct (lookup_lt_is_Some_2 mem (Z.to_nat (2 * i + 1))) as [hi Hhi]; [lia|].
  rewrite Hlo, Hhi. eauto.
Qed.

Lemma store_idx_ret {A} (l : list A) i a :
  0 <= i < Z.of_nat (length l) -> store_idx l i a = Ret (<[Z.to_nat i := a]> l).
Proof. intros H. unfold store_idx. destruct (decide _); [reflexivity|lia]. Qed.

(** One turn inside the block succeeds and leaves the samples alone. *)
Lemma meter_step_ret fill ppm ov blk :
  block_sized blk -> 0 <= fill < TRACK_BLOCK_SAMPLES ->
  exists ppm' ov' blk', meter_step fill ppm ov blk = Ret (ppm', ov', blk') /\
    blk_pcm blk' = blk_pcm blk /\ block_sized blk'.
Proof.
  intros (Hp & Hm & Ho) Hf. unfold meter_step.
  rewrite block_bytes_eq in Hp. unfold TRACK_CHANNELS.
  destruct (load_short_ret (blk_pcm blk) (2 * fill)) as [l ->]; [lia|lia|].
  destruct (load_short_ret (blk_pcm blk) (2 * fill + 1)) as [r ->]; [lia|lia|].
  simpl.
  pose proof (res_index_bound fill _ (ck_ppm CK) (ck_ppm_div CK) Hf) as Hpi.
  pose proof (res_index_bound fill _ (ck_overview CK) (ck_overview_div CK) Hf) as Hoi.
  rewrite store_idx_ret by lia. simpl. rewrite store_idx_ret by lia. simpl.
  do 3 eexists. split; [reflexivity|]. split; [reflexivity|].
  unfold block_sized; simpl. rewrite !length_insert. rewrite block_bytes_eq. auto.
Qed.

Lemma meter_blk_ret n : forall fill ppm ov blk,
  block_sized blk -> 0 <= fill -> fill + Z.of_nat n <= TRACK_BLOCK_SAMPLES ->
  exists ppm' ov' blk', meter_blk n fill ppm ov blk = Ret (ppm', ov', blk') /\
    blk_pcm blk' = blk_pcm blk /\ block_sized blk'.
Proof.
  pose proof block_bytes_small as HS. rewrite block_bytes_eq in HS.
  induction n as [|n IH]; intros fill ppm ov blk Hb Hf Hn.
  - simpl. eauto 6.
  - simpl. destruct (meter_step_ret fill ppm ov blk Hb) as (a & b & blk1 & -> & Hpcm & Hb1);
      [lia|].
    simpl. rewrite uint_small by lia.
    destruct (IH (fill + 1) a b blk1 Hb1) as (a' & b' & blk2 & -> & Hpcm2 & Hb2); [lia|lia|].
    do 3 eexists. split; [reflexivity|]. split; [congruence|exact Hb2].
Qed.

(** [n1 + n2] turns are [n1] turns, then [n2]. *)
Lemma meter_blk_app n1 n2 : forall fill ppm ov blk,
  0 <= fill -> fill + Z.of_nat n1 < 2 ^ 32 ->
  meter_blk (n1 + n2) fill ppm ov blk =
    let* (ppm', ov', blk') := meter_blk n1 fill ppm ov blk in
    meter_blk n2 (fill + Z.of_nat n1) ppm' ov' blk'.
Proof.
  induction n1 as [|n1 IH]; intros fill ppm ov blk Hf Hn.
  - simpl. rewrite Z.add_0_r. reflexivity.
  - simpl. destruct (meter_step fill ppm ov blk) as [[[a b] blk1]| |]; try reflexivity.
    simpl. rewrite uint_small by lia. rewrite IH by lia.
    replace (fill + 1 + Z.of_nat n1) with (fill + Z.of_nat (S n1)) by lia. reflexivity.
Qed.

Lemma load_short_prefix (m1 m2 : list byte) k i :
  take k m1 = take k m2 -> 2 * i + 1 < Z.of_nat k -> load_short m1 i = load_short m2 i.
Proof.
  intros Ht Hi. unfold load_short, array_get.
  assert (forall j, (j < k)%nat -> m1 !! j = m2 !! j) as Hl.
  { intros j Hj. rewrite <- (lookup_take_lt m1 k j Hj), <- (lookup_take_lt m2 k j Hj).
    rewrite Ht. reflexivity. }
  destruct (decide (0 <= 2 * i)), (decide (0 <= 2 * i + 1)); try reflexivity; try lia.
  rewrite (Hl (Z.to_nat (2 * i))), (Hl (Z.to_nat (2 * i + 1))) by lia. reflexivity.
Qed.

(** The turns read the samples they meter and nothing after them. *)
Lemma meter_blk_frame n : forall fill ppm ov blk pcm' k,
  0 <= fill -> fill + Z.of_nat n < 2 ^ 32 ->
  take k pcm' = take k (blk_pcm blk) -> 4 * (fill + Z.of_nat n) <= Z.of_nat k ->
  meter_blk n fill ppm ov (with_pcm blk pcm') =
    let* (ppm', ov', blk') := meter_blk n fill ppm ov blk in
    Ret (ppm', ov', with_pcm blk' pcm').
Proof.
  induction n as [|n IH]; intros fill ppm ov blk pcm' k Hf Hn Ht Hk.
  - reflexivity.
  - simpl. unfold meter_step. simpl. unfold TRACK_CHANNELS.
    rewrite (load_short_prefix pcm' (blk_pcm blk) k (2 * fill)) by (assumption || lia).
    rewrite (load_short_prefix pcm' (blk_pcm blk) k (2 * fill + 1)) by (assumption || lia).
    destruct (load_short (blk_pcm blk) (2 * fill)) as [l| |]; try reflexivity. simpl.
    destruct (load_short (blk_pcm blk) (2 * fill + 1)) as [r| |]; try reflexivity. simpl.
    destruct (store_idx (blk_ppm blk) _ _) as [ppms| |]; try reflexivity. simpl.
    destruct (store_idx (blk_overview blk) _ _) as [ovs| |]; try reflexivity. simpl.
    rewrite uint_small by lia.
    apply (IH (fill + 1) _ _ {| blk_pcm := blk_pcm blk; blk_ppm := ppms; blk_overview := ovs |}
              pcm' k); simpl; (assumption || lia).
Qed.


Lemma malloc_some w p w1 :
  malloc w = (Some p, w1) ->
  exists g ms, w_malloc w = Some g :: ms /\ p = length (w_heap w) /\
    w1 = set_malloc (set_heap w (w_heap w ++ [Some g])) ms.
Proof.
  unfold malloc. destruct (w_malloc w) as [|[g|] ms]; intros [= <- <-]; eauto.
Qed.

Lemma malloc_none w w1 :
  malloc w = (None, w1) ->
  w_heap w1 = w_heap w /\ (w_malloc w = [] \/ exists ms, w_malloc w = None :: ms) /\
  (malloc_ok w -> malloc_ok w1).
Proof.
  unfold malloc, malloc_ok. destruct (w_malloc w) as [|[g|] ms] eqn:E; intros [= <-].
  - split; [reflexivity|]. split; [auto|]. rewrite E. auto.
  - simpl. split; [reflexivity|]. split; [eauto|]. intros H.
    apply Forall_inv_tail in H. exact H.
Qed.

Lemma block_live_heap w w' p :
  (forall q b, w_heap w !! q = Some (Some b) -> w_heap w' !! q = Some (Some b)) ->
  block_live w p -> block_live w' p.
Proof. intros H (blk & Hl & Hs). exists blk. split; [apply H; exact Hl|exact Hs]. Qed.

Lemma track_ok_grow tr w g ms :
  track_ok tr w -> tr_bytes tr = tr_blocks tr * TRACK_BLOCK_PCM_BYTES ->
  tr_blocks tr < TRACK_MAX_BLOCKS -> w_malloc w = Some g :: ms ->
  track_ok (set_block tr (tr_blocks tr + 1)
              (<[Z.to_nat (tr_blocks tr) := length (w_heap w)]> (tr_block tr)))
           (set_malloc (set_heap w (w_heap w ++ [Some g])) ms).
Proof.
  intros OK Hb Hm Hg. pose proof (ok_blocks _ _ OK) as H1. pose proof (ok_array _ _ OK) as H2.
  pose proof block_bytes_pos as HB.
  assert (owned_blocks (set_block tr (tr_blocks tr + 1)
              (<[Z.to_nat (tr_blocks tr) := length (w_heap w)]> (tr_block tr)))
          = owned_blocks tr ++ [length (w_heap w)]) as Ho.
  { unfold owned_blocks. simpl.
    replace (Z.to_nat (tr_blocks tr + 1)) with (S (Z.to_nat (tr_blocks tr))) by lia.
    erewrite take_S_r by (apply list_lookup_insert_eq; lia).
    rewrite take_insert_ge by lia. reflexivity. }
  pose proof (ok_malloc _ _ OK) as Hmo. unfold malloc_ok in Hmo. rewrite Hg in Hmo.
  constructor; simpl.
  - lia.
  - rewrite length_insert. exact H2.
  - pose proof (ok_bytes _ _ OK). nia.
  - exact (ok_length _ _ OK).
  - rewrite Ho. apply Forall_app. split.
    + eapply Forall_impl; [exact (ok_live _ _ OK)|]. intros p Hp.
      eapply block_live_heap; [|exact Hp]. simpl. intros q b Hq.
      apply lookup_app_l_Some. exact Hq.
    + constructor; [|constructor]. exists g. split.
      * simpl. rewrite lookup_app_r by lia. rewrite Nat.sub_diag. reflexivity.
      * apply (Forall_inv Hmo). reflexivity.
  - rewrite Ho. apply NoDup_app. split; [exact (ok_nodup _ _ OK)|]. split.
    + intros p Hp Hin. apply list_elem_of_singleton in Hin. subst p.
      pose proof (proj1 (Forall_forall _ _) (ok_live _ _ OK) _ Hp) as (b & Hl & _).
      apply lookup_lt_Some in Hl. lia.
    + apply NoDup_singleton.
  - unfold malloc_ok. simpl. exact (Forall_inv_tail Hmo).
Qed.

Lemma track_ok_world tr w w' :
  track_ok tr w -> w_heap w' = w_heap w -> malloc_ok w' -> track_ok tr w'.
Proof.
  intros OK Hh Hm. destruct OK. constructor; try assumption.
  eapply Forall_impl; [eassumption|]. intros p Hp.
  eapply block_live_heap; [|exact Hp]. intros q b. rewrite Hh. auto.
Qed.

(** What a successful request for a region gives. *)
Lemma access_some tr w rg tr' w' :
  track_ok tr w -> access_pcm_data tr w = Ret (Some rg, tr', w') ->
  track_ok tr' w' /\
  tr' = set_block tr (tr_blocks tr') (tr_block tr') /\
  tr_bytes tr < tr_blocks tr' * TRACK_BLOCK_PCM_BYTES /\
  tr_block tr' !! Z.to_nat (tr_bytes tr / TRACK_BLOCK_PCM_BYTES) = Some (rg_block rg) /\
  block_live w' (rg_block rg) /\
  rg_fill rg = tr_bytes tr mod TRACK_BLOCK_PCM_BYTES /\
  rg_len rg = TRACK_BLOCK_PCM_BYTES - tr_bytes tr mod TRACK_BLOCK_PCM_BYTES.
Proof.
  intros OK H. pose proof (ok_bytes _ _ OK) as Hy. pose proof (ok_blocks _ _ OK) as Hb.
  pose proof block_bytes_pos as HB.
  destruct (decide (tr_bytes tr < tr_blocks tr * TRACK_BLOCK_PCM_BYTES)) as [Hlt|Hge].
  - destruct (access_inside tr w OK Hlt) as (p & Hp & Hl & E). rewrite E in H.
    injection H as <- <- <-. simpl.
    split; [exact OK|]. split; [destruct tr; reflexivity|]. split; [exact Hlt|].
    split; [exact Hp|]. split; [exact Hl|]. split; reflexivity.
  - assert (tr_bytes tr = tr_blocks tr * TRACK_BLOCK_PCM_BYTES) as Heq by lia.
    destruct (decide (tr_blocks tr = TRACK_MAX_BLOCKS)) as [Hfull|Hnf].
    + rewrite (access_full tr w OK Heq Hfull) in H. discriminate.
    + rewrite (access_grow tr w OK Heq) in H by lia.
      destruct (malloc w) as [[p|] w1] eqn:Em; [|discriminate].
      destruct (malloc_some _ _ _ Em) as (g & ms & Hg & -> & ->).
      injection H as <- <- <-. simpl.
      pose proof (track_ok_grow tr w g ms OK Heq ltac:(lia) Hg) as OK'.
      split; [exact OK'|]. split; [reflexivity|]. split; [lia|].
      pose proof (ok_array _ _ OK).
      rewrite Heq, Z.div_mul, Z.mod_mul by lia. split; [apply list_lookup_insert_eq; lia|].
      split; [|split; [reflexivity|lia]].
      pose proof (ok_live _ _ OK') as Hl. apply (proj1 (Forall_forall _ _) Hl).
      unfold owned_blocks. simpl.
      replace (Z.to_nat (tr_blocks tr + 1)) with (S (Z.to_nat (tr_blocks tr))) by lia.
      erewrite take_S_r by (apply list_lookup_insert_eq; lia).
      apply elem_of_app. right. apply list_elem_of_singleton. reflexivity.
Qed.

(** What a refused request leaves. *)
Lemma access_none tr w tr' w' :
  track_ok tr w -> access_pcm_data tr w = Ret (None, tr', w') ->
  tr' = tr /\ track_ok tr w' /\
  tr_bytes tr = tr_blocks tr * TRACK_BLOCK_PCM_BYTES /\
  (tr_blocks tr = TRACK_MAX_BLOCKS /\ w' = w \/
   tr_blocks tr < TRACK_MAX_BLOCKS /\ malloc w = (None, w')).
Proof.
  intros OK H. pose proof (ok_bytes _ _ OK) as Hy. pose proof (ok_blocks _ _ OK) as Hb.
  destruct (decide (tr_bytes tr < tr_blocks tr * TRACK_BLOCK_PCM_BYTES)) as [Hlt|Hge].
  - destruct (access_inside tr w OK Hlt) as (p & Hp & Hl & E). rewrite E in H. discriminate.
  - assert (tr_bytes tr = tr_blocks tr * TRACK_BLOCK_PCM_BYTES) as Heq by lia.
    destruct (decide (tr_blocks tr = TRACK_MAX_BLOCKS)) as [Hfull|Hnf].
    + rewrite (access_full tr w OK Heq Hfull) in H. injection H as <- <-.
      split; [reflexivity|]. split; [exact OK|]. split; [exact Heq|].
      left. split; [exact Hfull|reflexivity].
    + rewrite (access_grow tr w OK Heq) in H by lia.
      destruct (malloc w) as [[p|] w1] eqn:Em; [discriminate|].
      injection H as <- <-. destruct (malloc_none _ _ Em) as (Hh & _ & Hm).
      split; [reflexivity|]. split; [|split; [exact Heq|right; split; [lia|reflexivity]]].
      eapply track_ok_world; [exact OK|exact Hh|apply Hm, (ok_malloc _ _ OK)].
Qed.

(** A request for a region always returns. *)
Lemma access_ret tr w :
  track_ok tr w -> exists o tr' w', access_pcm_data tr w = Ret (o, tr', w').
Proof.
  intros OK. pose proof (ok_bytes _ _ OK) as Hy. pose proof (ok_blocks _ _ OK) as Hb.
  destruct (decide (tr_bytes tr < tr_blocks tr * TRACK_BLOCK_PCM_BYTES)) as [Hlt|Hge].
  - destruct (access_inside tr w OK Hlt) as (p & Hp & Hl & E). rewrite E. eauto.
  - assert (tr_bytes tr = tr_blocks tr * TRACK_BLOCK_PCM_BYTES) as Heq by lia.
    destruct (decide (tr_blocks tr = TRACK_MAX_BLOCKS)) as [Hfull|Hnf].
    + rewrite (access_full tr w OK Heq Hfull). eauto.
    + rewrite (access_grow tr w OK Heq) by lia. destruct (malloc w) as [[p|] w1]; eauto.
Qed.

Lemma access_ok tr w o tr' w' :
  track_ok tr w -> access_pcm_data tr w = Ret (o, tr', w') -> track_ok tr' w'.
Proof.
  intros OK H. destruct o as [rg|].
  - apply (access_some _ _ _ _ _ OK H).
  - destruct (access_none _ _ _ _ OK H) as (-> & OK' & _). exact OK'.
Qed.


Lemma access_region_at tr w rg tr' w' :
  track_ok tr w -> access_pcm_data tr w = Ret (Some rg, tr', w') ->
  region_at tr' w' rg /\ tr' = set_block tr (tr_blocks tr') (tr_block tr').
Proof.
  intros OK H. destruct (access_some _ _ _ _ _ OK H) as (OK' & E & H1 & H2 & H3 & H4 & H5).
  split; [|exact E].
  assert (tr_bytes tr' = tr_bytes tr) as Eb by (rewrite E; reflexivity).
  unfold region_at. rewrite Eb. auto 10.
Qed.

(** Counting samples and bytes inside one block. *)
Lemma commit_arith b L m :
  0 <= b -> 4 * L <= b < 4 * L + 4 ->
  0 < m <= TRACK_BLOCK_PCM_BYTES - b mod TRACK_BLOCK_PCM_BYTES ->
  let n := (b + m) / 4 - L in
  L / TRACK_BLOCK_SAMPLES = b / TRACK_BLOCK_PCM_BYTES /\
  0 <= L mod TRACK_BLOCK_SAMPLES < TRACK_BLOCK_SAMPLES /\
  0 <= n /\ L mod TRACK_BLOCK_SAMPLES + n <= TRACK_BLOCK_SAMPLES /\
  4 * (L mod TRACK_BLOCK_SAMPLES) <= b mod TRACK_BLOCK_PCM_BYTES /\
  4 * (L + n) <= b + m < 4 * (L + n) + 4 /\
  b + m <= (b / TRACK_BLOCK_PCM_BYTES + 1) * TRACK_BLOCK_PCM_BYTES /\
  4 * (L mod TRACK_BLOCK_SAMPLES + n) <= b mod TRACK_BLOCK_PCM_BYTES + m.
Proof.
  intros Hb HL Hm n. pose proof (ck_samples CK) as HS.
  assert (L = b / 4) as EL by (apply Z.div_unique with (r := b - 4 * L); lia).
  assert (L / TRACK_BLOCK_SAMPLES = b / TRACK_BLOCK_PCM_BYTES) as Eq.
  { rewrite EL, block_bytes_eq, Z.div_div by lia. f_equal. lia. }
  pose proof block_bytes_pos as HB.
  assert (TRACK_BLOCK_PCM_BYTES <> 0) as HB0 by lia.
  assert (TRACK_BLOCK_SAMPLES <> 0) as HS0 by lia.
  pose proof (Z.div_mod b TRACK_BLOCK_PCM_BYTES HB0) as Db.
  pose proof (Z.mod_pos_bound b TRACK_BLOCK_PCM_BYTES HB) as Rb.
  pose proof (Z.div_mod L TRACK_BLOCK_SAMPLES HS0) as DL.
  pose proof (Z.mod_pos_bound L TRACK_BLOCK_SAMPLES HS) as RL.
  rewrite Eq in DL. rewrite block_bytes_eq in *.
  set (q := b / (TRACK_BLOCK_SAMPLES * 4)) in *.
  set (r := b mod (TRACK_BLOCK_SAMPLES * 4)) in *.
  set (f := L mod TRACK_BLOCK_SAMPLES) in *.
  assert (X : TRACK_BLOCK_SAMPLES * 4 * q = 4 * (TRACK_BLOCK_SAMPLES * q)) by ring.
  rewrite X in Db.
  pose proof (Z.div_mod (b + m) 4 ltac:(lia)) as Dn.
  pose proof (Z.mod_pos_bound (b + m) 4 ltac:(lia)) as Rn.
  subst n. set (k := (b + m) / 4) in *.
  replace ((q + 1) * (TRACK_BLOCK_SAMPLES * 4))
    with (4 * (TRACK_BLOCK_SAMPLES * q) + 4 * TRACK_BLOCK_SAMPLES) by ring.
  repeat split; lia.
Qed.


Lemma splice_length {A} off (bs l : list A) :
  (off + length bs <= length l)%nat -> length (splice off bs l) = length l.
Proof.
  intros H. unfold splice. rewrite !length_app, length_take, length_drop. lia.
Qed.

Lemma track_bytes_length tr w : track_ok tr w -> tr_length tr = tr_bytes tr / 4.
Proof.
  intros OK. pose proof (ok_length _ _ OK) as H. change SAMPLE with 4 in H.
  apply Z.div_unique with (r := tr_bytes tr - 4 * tr_length tr); lia.
Qed.

(** Putting [bs] in the region and committing it: the samples completed
    are metered on the block of the region. *)
Lemma ingest_eq tr w rg bs blk :
  region_at tr w rg -> w_heap w !! rg_block rg = Some (Some blk) -> block_sized blk ->
  0 < Z.of_nat (length bs) <= rg_len rg ->
  let n := (tr_bytes tr + Z.of_nat (length bs)) / 4 - tr_length tr in
  ingest tr rg bs w =
    let* (ppm', ov', blk') :=
      meter_blk (Z.to_nat n) (tr_length tr mod TRACK_BLOCK_SAMPLES)
                (tr_ppm tr) (tr_overview tr)
                (with_pcm blk (splice (Z.to_nat (rg_fill rg)) bs (blk_pcm blk))) in
    Ret (set_meters (set_length (set_bytes tr (tr_bytes tr + Z.of_nat (length bs)))
                                (tr_length tr + n)) ppm' ov',
         heap_store w (rg_block rg) blk').
Proof.
  intros (OK & Hlt & Hblk & _ & Hfill & Hlen) Hp Hsz Hm n.
  pose proof (ok_bytes _ _ OK) as Hy. pose proof (ok_length _ _ OK) as HL.
  change SAMPLE with 4 in HL. rewrite Hlen in Hm.
  destruct (commit_arith (tr_bytes tr) (tr_length tr) (Z.of_nat (length bs)))
    as (Eq & Hf & Hn0 & Hn1 & Hf4 & HL' & Hb' & _); [lia|lia|lia|]. fold n in Hn0, Hn1, HL'.
  pose proof block_bytes_small as HS. rewrite block_bytes_eq in HS.
  pose proof block_bytes_pos as HB.
  pose proof (Z.mod_pos_bound (tr_bytes tr) TRACK_BLOCK_PCM_BYTES HB) as Hr.
  destruct Hsz as (Hpcm & _).
  unfold ingest, pcm_write. rewrite (heap_load_ret _ _ _ Hp). simpl.
  destruct (decide _) as [_|Hbad]; [|exfalso; apply Hbad; lia].
  simpl. unfold commit_bytes, commit_pcm_samples. simpl.
  rewrite Eq, array_get_lookup, Hblk by (apply Z.div_pos; lia). change SAMPLE with 4.
  rewrite (uint_small (tr_length tr mod _)) by lia.
  rewrite (uint_small (_ - tr_length tr)) by (fold n; lia). fold n.
  rewrite (uint_small (_ - _ mod _)) by lia.
  destruct (decide (n <= _)) as [_|Hbad]; [|lia].
  rewrite (meter_loop_blk _ _ _ _ _ _ (heap_store_lookup _ _ _ _ Hp)). simpl.
  destruct (meter_blk _ _ _ _ _) as [[[a b] blk']| |]; try reflexivity. simpl.
  rewrite heap_store_store. reflexivity.
Qed.

Lemma track_ok_store tr w p blk blk' :
  track_ok tr w -> w_heap w !! p = Some (Some blk) -> block_sized blk' ->
  track_ok tr (heap_store w p blk').
Proof.
  intros OK Hp Hs. destruct OK. constructor; try assumption.
  eapply Forall_impl; [eassumption|]. intros q (b & Hq & Hb).
  destruct (decide (q = p)) as [->|Hne].
  - exists blk'. split; [eapply heap_store_lookup; exact Hp|exact Hs].
  - exists b. split; [|exact Hb]. unfold heap_store. simpl.
    rewrite list_lookup_insert_ne by congruence. exact Hq.
Qed.

(** A commit of at most the capacity of the region returns, keeps the
    track well formed and moves both counters forward. *)
Lemma ingest_ret tr w rg bs :
  region_at tr w rg -> 0 < Z.of_nat (length bs) <= rg_len rg ->
  exists tr2 w2, ingest tr rg bs w = Ret (tr2, w2) /\ track_ok tr2 w2 /\
    tr_bytes tr2 = tr_bytes tr + Z.of_nat (length bs) /\
    tr_length tr <= tr_length tr2 /\
    tr_blocks tr2 = tr_blocks tr /\ tr_block tr2 = tr_block tr /\
    tr_pid tr2 = tr_pid tr /\ tr_fd tr2 = tr_fd tr /\ tr_pe tr2 = tr_pe tr /\
    w_fds w2 = w_fds w /\ w_children w2 = w_children w /\ w_pollfds w2 = w_pollfds w /\
    w_awakened w2 = w_awakened w /\ w_malloc w2 = w_malloc w.
Proof.
  intros R Hm. pose proof R as (OK & Hlt & Hblk & (blk & Hp & Hsz) & Hfill & Hlen).
  rewrite (ingest_eq tr w rg bs blk R Hp Hsz Hm).
  pose proof (ok_bytes _ _ OK) as Hy. pose proof (ok_length _ _ OK) as HL.
  pose proof (ok_blocks _ _ OK) as Hbl.
  change SAMPLE with 4 in HL. rewrite Hlen in Hm.
  destruct (commit_arith (tr_bytes tr) (tr_length tr) (Z.of_nat (length bs)))
    as (Eq & Hf & Hn0 & Hn1 & Hf4 & HL' & Hb' & _); [lia|lia|lia|].
  set (n := (tr_bytes tr + Z.of_nat (length bs)) / 4 - tr_length tr) in *.
  pose proof block_bytes_pos as HB.
  pose proof (Z.mod_pos_bound (tr_bytes tr) TRACK_BLOCK_PCM_BYTES HB) as Hr.
  destruct (block_index_bounds (tr_bytes tr) (tr_blocks tr)) as [Hi Hiff]; [lia|lia|].
  assert (tr_bytes tr / TRACK_BLOCK_PCM_BYTES < tr_blocks tr) as Hi'.
  { destruct (decide (tr_bytes tr / TRACK_BLOCK_PCM_BYTES = tr_blocks tr)) as [E|E]; [|lia].
    apply Hiff in E. lia. }
  edestruct (meter_blk_ret (Z.to_nat n) (tr_length tr mod TRACK_BLOCK_SAMPLES)
               (tr_ppm tr) (tr_overview tr)
               (with_pcm blk (splice (Z.to_nat (rg_fill rg)) bs (blk_pcm blk))))
    as (a & b & blk' & -> & Hpcm' & Hsz'); [| lia | lia |].
  { destruct Hsz as (H1 & H2 & H3). unfold block_sized. simpl.
    rewrite splice_length by lia. auto. }
  simpl. do 2 eexists. split; [reflexivity|]. split.
  - apply (track_ok_store _ _ _ blk); [|exact Hp|exact Hsz'].
    destruct OK. constructor; simpl; try assumption.
    + split; [lia|]. nia.
    + change SAMPLE with 4. lia.
  - simpl. repeat split; try reflexivity. lia.
Qed.

End BlockStore.

(* ================================================================= *)
(** ** The loop of read_from_pipe and the track controller *)

Section Pump.
Context `{C : track_consts}.

Lemma read_loop_step s tr w :
  read_loop s tr w =
    let* (o, tr1, w1) := access_pcm_data tr w in
    match o with
    | None => Ret (-1, tr1, w1, s)
    | Some rg =>
        match read_script s (rg_len rg) with
        | (ReadEAGAIN, s1) => Ret (0, tr1, w1, s1)
        | (ReadError, s1) => Ret (-1, tr1, w1, s1)
        | (ReadBytes [], s1) => Ret (1, tr1, w1, s1)
        | (ReadBytes (b :: bs), s1) =>
            let* (tr2, w2) := ingest tr1 rg (b :: bs) w1 in
            read_loop s1 tr2 w2
        end
    end.
Proof.
  funelim (read_loop s tr w).
  all: repeat match goal with
       | H : access_pcm_data _ _ = _ |- _ => rewrite H; simpl
       | H : read_script _ _ = _ |- _ => rewrite H; simpl
       | H : ingest _ _ _ _ = _ |- _ => rewrite H; simpl
       end; reflexivity.
Qed.

Hypothesis CK : consts_ok.

Lemma script_size_ind (P : list pipe_event -> Prop) :
  (forall s, (forall s1, (script_size s1 < script_size s)%nat -> P s1) -> P s) ->
  forall s, P s.
Proof.
  intros H s. remember (script_size s) as n eqn:E. revert s E.
  induction n as [n IH] using lt_wf_ind. intros s ->. apply H.
  intros s1 Hs1. eapply IH; [exact Hs1|reflexivity].
Qed.

Lemma same_import_refl tr w : same_import tr tr w w.
Proof. unfold same_import. auto 10. Qed.

Lemma same_import_trans tr1 tr2 tr3 w1 w2 w3 :
  same_import tr1 tr2 w1 w2 -> same_import tr2 tr3 w2 w3 -> same_import tr1 tr3 w1 w3.
Proof. unfold same_import. intuition congruence. Qed.

Lemma access_same_import tr w o tr' w' :
  access_pcm_data tr w = Ret (o, tr', w') ->
  same_import tr tr' w w' /\ tr_bytes tr' = tr_bytes tr /\ tr_length tr' = tr_length tr /\
  tr_ppm tr' = tr_ppm tr /\ tr_overview tr' = tr_overview tr.
Proof.
  unfold access_pcm_data, more_space, malloc, store_idx, same_import.
  repeat (case_decide || case_match || simplify_eq/= ); intros; simplify_eq/=; auto 12.
Qed.


(** A read that returns bytes takes them off the script. *)
Lemma read_script_consumes (s : list pipe_event) (len : Z) b bs s1 :
  read_script s len = (ReadBytes (b :: bs), s1) ->
  (script_size s1 < script_size s)%nat.
Proof.
  induction s as [|e s IH]; simpl; [discriminate|].
  destruct e as [[|c cs]| |]; try discriminate.
  - intros H. specialize (IH H). lia.
  - destruct (decide (Z.of_nat (length (c :: cs)) <= len)); intros [= E1 E2].
    + subst s1. lia.
    + subst s1. simpl.
      destruct (Z.to_nat len) as [|k] eqn:Ek; [discriminate|].
      simpl. rewrite length_drop. lia.
Qed.

Lemma read_script_length s len bs s1 :
  0 <= len -> read_script s len = (ReadBytes bs, s1) -> Z.of_nat (length bs) <= len.
Proof.
  intros Hl. induction s as [|e s IH]; simpl.
  - intros [= <- <-]. simpl. lia.
  - destruct e as [[|c cs]| |]; try discriminate; [exact IH|].
    destruct (decide _) as [Hle|Hgt]; intros [= <- <-]; [exact Hle|].
    rewrite length_take. lia.
Qed.

Lemma region_len_pos tr w rg : region_at tr w rg -> 0 < rg_len rg.
Proof.
  intros (_ & _ & _ & _ & _ & E). rewrite E.
  pose proof (Z.mod_pos_bound (tr_bytes tr) TRACK_BLOCK_PCM_BYTES (block_bytes_pos CK)). lia.
Qed.

(** The loop of [read_from_pipe] returns -1, 0 or 1 on every script, in
    a well-formed state, having touched the block store only. *)
Lemma read_loop_ret s : forall tr w,
  track_ok tr w ->
  exists r tr' w' s', read_loop s tr w = Ret (r, tr', w', s') /\
    track_ok tr' w' /\ (r = -1 \/ r = 0 \/ r = 1) /\
    same_import tr tr' w w' /\ tr_length tr <= tr_length tr'.
Proof.
  induction s as [s IH] using script_size_ind. intros tr w OK.
  rewrite read_loop_step.
  destruct (access_ret CK tr w OK) as (o & tr1 & w1 & Ha). rewrite Ha. simpl.
  pose proof (access_ok CK _ _ _ _ _ OK Ha) as OK1.
  destruct (access_same_import _ _ _ _ _ Ha) as (Hs1 & _ & HL1 & _).
  destruct o as [rg|].
  2:{ do 4 eexists. split; [reflexivity|]. split; [exact OK1|]. split; [auto|].
      split; [exact Hs1|lia]. }
  destruct (access_region_at CK _ _ _ _ _ OK Ha) as (R & _).
  destruct (read_script s (rg_len rg)) as [[[|b bs]| |] s1] eqn:Er.
  - do 4 eexists. split; [reflexivity|]. split; [exact OK1|]. split; [auto|].
    split; [exact Hs1|lia].
  - pose proof (region_len_pos _ _ _ R) as Hpos.
    assert (0 <= rg_len rg) as Hnn by lia.
    pose proof (read_script_length _ _ _ _ Hnn Er) as Hlen.
    destruct (ingest_ret CK tr1 w1 rg (b :: bs) R) as (tr2 & w2 & Hi & OK2 & _ & HL2 & F);
      [simpl in *; lia|].
    rewrite Hi. simpl.
    destruct (IH s1 (read_script_consumes _ _ _ _ _ Er) tr2 w2 OK2)
      as (r & tr' & w' & s' & Hr & OK' & Hrv & Hs' & HL').
    exists r, tr', w', s'. split; [exact Hr|]. split; [exact OK'|]. split; [exact Hrv|].
    split; [|lia].
    eapply same_import_trans; [exact Hs1|]. eapply same_import_trans; [|exact Hs'].
    unfold same_import. intuition congruence.
  - do 4 eexists. split; [reflexivity|]. split; [exact OK1|]. split; [auto|].
    split; [exact Hs1|lia].
  - do 4 eexists. split; [reflexivity|]. split; [exact OK1|]. split; [auto|].
    split; [exact Hs1|lia].
Qed.


Lemma track_ok_same tr w tr' w' :
  track_ok tr w -> same_store tr tr' w w' -> track_ok tr' w'.
Proof.
  intros OK (H1 & H2 & H3 & H4 & H5 & H6). destruct OK.
  constructor; unfold owned_blocks, malloc_ok in *; rewrite ?H1, ?H2, ?H3, ?H4, ?H6; try assumption.
  eapply Forall_impl; [eassumption|]. intros p Hp.
  eapply block_live_heap; [|exact Hp]. intros q b. rewrite H5. auto.
Qed.

Lemma track_ok_rewind tr w tr' w' :
  track_ok tr w ->
  tr_blocks tr' = tr_blocks tr -> tr_block tr' = tr_block tr ->
  tr_bytes tr' = 0 -> tr_length tr' = 0 ->
  w_heap w' = w_heap w -> w_malloc w' = w_malloc w -> track_ok tr' w'.
Proof.
  intros OK H1 H2 H3 H4 H5 H6. pose proof (block_bytes_pos CK). destruct OK.
  constructor; unfold owned_blocks, malloc_ok in *; rewrite ?H1, ?H2, ?H3, ?H4, ?H6;
    try assumption.
  - nia.
  - change SAMPLE with 4. lia.
  - eapply Forall_impl; [eassumption|]. intros p Hp.
    eapply block_live_heap; [|exact Hp]. intros q b. rewrite H5. auto.
Qed.

Lemma stop_import_same tr w tr' w' :
  stop_import tr w = Ret (tr', w') ->
  tr' = set_pid tr 0 /\ same_store tr tr' w w' /\ w_pollfds w' = w_pollfds w.
Proof.
  unfold stop_import, close, waitpid, same_store.
  repeat (case_decide || case_match || simplify_eq/= ); intros; simplify_eq/=; auto 12.
Qed.

Lemma abort_import_same tr w tr' w' :
  abort_import tr w = Ret (tr', w') ->
  tr' = set_pid tr 0 /\ same_store tr tr' w w' /\ w_pollfds w' = w_pollfds w.
Proof.
  unfold abort_import. case_decide; [discriminate|]. apply stop_import_same.
Qed.

Lemma start_import_ok tr path sc w r tr' w' :
  track_ok tr w -> start_import tr path sc w = Ret (r, tr', w') -> track_ok tr' w'.
Proof.
  intros OK. unfold start_import, close.
  repeat (case_decide || case_match || simplify_eq/= ); intros; simplify_eq/=;
    try (eapply track_ok_same; [exact OK|]; unfold same_store; simpl; auto 10; fail).
  eapply track_ok_rewind; [exact OK|..]; reflexivity.
Qed.

Lemma track_import_ok tr path sc w r tr' w' :
  track_ok tr w -> track_import tr path sc w = Ret (r, tr', w') -> track_ok tr' w'.
Proof.
  intros OK. unfold track_import.
  assert (forall tr1 w1, (if decide (tr_pid tr ≠ 0) then abort_import tr w else Ret (tr, w))
                         = Ret (tr1, w1) -> track_ok tr1 w1) as H1.
  { intros tr1 w1. case_decide.
    - intros Ha. destruct (abort_import_same _ _ _ _ Ha) as (_ & Hs & _).
      eapply track_ok_same; eassumption.
    - intros [= <- <-]. exact OK. }
  destruct (if decide (tr_pid tr ≠ 0) then abort_import tr w else Ret (tr, w))
    as [[tr1 w1]| |]; simpl; try discriminate.
  specialize (H1 _ _ eq_refl).
  destruct (start_import tr1 path sc w1) as [[[r2 tr2] w2]| |] eqn:Es; simpl; try discriminate.
  pose proof (start_import_ok _ _ _ _ _ _ _ H1 Es) as OK2.
  case_decide; intros [= <- <- <-]; [exact OK2|].
  eapply track_ok_same; [exact OK2|]. unfold same_store. simpl. auto 10.
Qed.

Lemma track_pollfd_ok tr pe w r tr' w' :
  track_ok tr w -> track_pollfd tr pe w = Ret (r, tr', w') -> track_ok tr' w'.
Proof.
  intros OK. unfold track_pollfd.
  repeat (case_decide || case_match || simplify_eq/= ); intros; simplify_eq/=;
    (eapply track_ok_same; [exact OK|]; unfold same_store; simpl; auto 10).
Qed.

Lemma read_from_pipe_ret tr w :
  track_ok tr w ->
  exists r tr' w', read_from_pipe tr w = Ret (r, tr', w') /\ track_ok tr' w' /\
    (r = -1 \/ r = 0 \/ r = 1) /\ tr_pid tr' = tr_pid tr /\ tr_fd tr' = tr_fd tr /\
    tr_pe tr' = tr_pe tr /\ w_children w' = w_children w /\ w_pollfds w' = w_pollfds w /\
    dom (w_fds w') = dom (w_fds w) /\ tr_length tr <= tr_length tr'.
Proof.
  intros OK. unfold read_from_pipe.
  destruct (w_fds w !! tr_fd tr) as [[s|]|] eqn:Ef.
  - destruct (read_loop_ret s tr w OK) as (r & tr' & w' & s' & -> & OK' & Hr & Hs & HL).
    simpl. do 3 eexists. split; [reflexivity|]. destruct Hs as (? & ? & ? & Hf & ? & ? & ?).
    split; [eapply track_ok_same; [exact OK'|]; unfold same_store; simpl; auto 10|].
    simpl. repeat split; try assumption.
    rewrite Hf. apply dom_insert_lookup_L. rewrite Ef. eauto.
  - destruct (read_loop_ret [IoError] tr w OK) as (r & tr' & w' & s' & -> & OK' & Hr & Hs & HL).
    simpl. do 3 eexists. split; [reflexivity|]. destruct Hs as (? & ? & ? & Hf & ? & ? & ?).
    split; [exact OK'|]. rewrite Hf. repeat split; assumption.
  - destruct (read_loop_ret [IoError] tr w OK) as (r & tr' & w' & s' & -> & OK' & Hr & Hs & HL).
    simpl. do 3 eexists. split; [reflexivity|]. destruct Hs as (? & ? & ? & Hf & ? & ? & ?).
    split; [exact OK'|]. rewrite Hf. repeat split; assumption.
Qed.

Lemma track_handle_ok tr w r tr' w' :
  track_ok tr w -> track_handle tr w = Ret (r, tr', w') -> track_ok tr' w'.
Proof.
  intros OK. unfold track_handle.
  destruct (tr_pe tr) as [pe|]; [|intros [= <- <- <-]; exact OK].
  destruct (w_pollfds w !! pe) as [e|]; [|discriminate].
  case_decide; [intros [= <- <- <-]; exact OK|].
  case_decide; [|intros [= <- <- <-]; exact OK].
  destruct (read_from_pipe_ret tr w OK) as (r1 & tr1 & w1 & -> & OK1 & _). simpl.
  case_decide; [|intros [= <- <- <-]; exact OK1].
  destruct (stop_import tr1 w1) as [[tr2 w2]| |] eqn:Es; simpl; try discriminate.
  intros [= <- <- <-]. destruct (stop_import_same _ _ _ _ Es) as (_ & Hs & _).
  eapply track_ok_same; eassumption.
Qed.

Lemma track_init_ok tr importer w :
  Z.of_nat (length (tr_block tr)) = TRACK_MAX_BLOCKS -> malloc_ok w ->
  track_ok (track_init tr importer) w.
Proof.
  intros Ha Hm. pose proof (ck_blocks CK). constructor; unfold owned_blocks; simpl;
    try assumption; try lia.
  - change SAMPLE with 4. lia.
  - constructor.
  - constructor.
Qed.

(** Every state of a track is well formed. *)
Lemma reachable_ok tr w : reachable tr w -> track_ok tr w.
Proof.
  induction 1 as [tr importer w Ha Hm | tr w path sc r tr' w' _ IH H
                 | tr w pe r tr' w' _ IH H | tr w r tr' w' _ IH H
                 | tr w o tr' w' _ IH H | tr w rg tr1 w1 bs tr2 w2 _ IH Ha Hl Hi].
  - apply track_init_ok; assumption.
  - eapply track_import_ok; eassumption.
  - eapply track_pollfd_ok; eassumption.
  - eapply track_handle_ok; eassumption.
  - eapply (access_ok CK); eassumption.
  - destruct (access_region_at CK _ _ _ _ _ IH Ha) as (R & _).
    destruct (ingest_ret CK tr1 w1 rg bs R Hl) as (tr2' & w2' & Hi' & OK2 & _).
    rewrite Hi in Hi'. injection Hi' as <- <-. exact OK2.
Qed.

End Pump.

(* ================================================================= *)
(** ** The claims on the track *)

(** The small configuration is well formed, and its track is in a
    reachable state before and after its first block is allocated. *)
Lemma demo_consts_ok : @consts_ok demo_consts.
Proof.
  constructor; try (vm_compute; reflexivity).
  - exists 2. reflexivity.
  - exists 1. reflexivity.
Qed.

Lemma demo_block_sized : @block_sized demo_consts demo_block.
Proof. repeat split. Qed.

Lemma demo_reachable : @reachable demo_consts demo_track demo_world.
Proof.
  apply (@reach_init demo_consts demo_struct); [reflexivity|].
  assert (forall g, Some demo_block = Some g -> @block_sized demo_consts g) as Hg
    by (intros g [= <-]; apply demo_block_sized).
  constructor; [exact Hg|]. constructor; [exact Hg|]. constructor.
Qed.

Section TrackClaims.
Context `{C : track_consts}.

(** C7. In every reachable state with [tr_bytes tr = b],
    [access_pcm_data] returns; a region it gives lies in one block that
    is allocated, from offset [b mod (TRACK_BLOCK_SAMPLES * 4)] to the
    end of that block, so its length is
    [TRACK_BLOCK_SAMPLES * 4 - b mod (TRACK_BLOCK_SAMPLES * 4)]; a block
    is allocated first exactly when [b] is the end of the last block;
    and the call is refused exactly when a block is needed and either
    the track already has [TRACK_MAX_BLOCKS] blocks or malloc fails. *)
Theorem writable_region (tr : track_t) (w : world) :
  consts_ok -> reachable tr w ->
  let b := tr_bytes tr in
  let at_end := b = tr_blocks tr * TRACK_BLOCK_PCM_BYTES in
  (exists o tr' w', access_pcm_data tr w = Ret (o, tr', w')) /\
  (forall rg tr' w', access_pcm_data tr w = Ret (Some rg, tr', w') ->
     rg_len rg = TRACK_BLOCK_SAMPLES * 4 - b mod (TRACK_BLOCK_SAMPLES * 4) /\
     0 <= rg_fill rg /\ 0 < rg_len rg /\
     (exists blk, w_heap w' !! rg_block rg = Some (Some blk) /\
        rg_fill rg + rg_len rg = Z.of_nat (length (blk_pcm blk))) /\
     tr_block tr' !! Z.to_nat (b / TRACK_BLOCK_PCM_BYTES) = Some (rg_block rg) /\
     (at_end -> tr_blocks tr' = tr_blocks tr + 1 /\ rg_block rg = length (w_heap w) /\
                rg_fill rg = 0) /\
     (~ at_end -> tr' = tr /\ w' = w)) /\
  ((exists tr' w', access_pcm_data tr w = Ret (None, tr', w')) <->
   at_end /\ (tr_blocks tr = TRACK_MAX_BLOCKS \/ malloc_fails w)).
Proof.
  intros CK Hr b at_end. pose proof (reachable_ok CK _ _ Hr) as OK.
  pose proof (block_bytes_pos CK) as HB.
  pose proof (ok_bytes _ _ OK) as Hy. pose proof (ok_blocks _ _ OK) as Hb.
  split; [apply (access_ret CK), OK|]. split.
  - intros rg tr' w' Ha.
    destruct (access_some CK _ _ _ _ _ OK Ha) as (OK' & E & Hlt & Hblk & (blk & Hl & Hs) & Hf & Hn).
    fold b in Hlt, Hblk, Hf, Hn.
    pose proof (Z.mod_pos_bound b TRACK_BLOCK_PCM_BYTES HB) as Hm.
    rewrite <- block_bytes_eq. split; [exact Hn|]. split; [lia|]. split; [lia|].
    split; [exists blk; split; [exact Hl|destruct Hs as (-> & _); lia]|].
    split; [exact Hblk|]. split.
    + intros He. rewrite (access_grow CK tr w OK He) in Ha.
      * destruct (malloc w) as [[p|] w1] eqn:Em; [|discriminate].
        destruct (malloc_some _ _ _ Em) as (g & ms & _ & -> & _).
        injection Ha as <- <- <-. simpl. auto.
      * destruct (decide (tr_blocks tr = TRACK_MAX_BLOCKS)) as [Hfull|]; [|lia].
        rewrite (access_full CK tr w OK He Hfull) in Ha. discriminate.
    + intros Hne. assert (b < tr_blocks tr * TRACK_BLOCK_PCM_BYTES) as Hlt'.
      { unfold at_end in Hne. lia. }
      destruct (access_inside CK tr w OK Hlt') as (p & _ & _ & E'). rewrite E' in Ha.
      injection Ha as _ <- <-. auto.
  - split.
    + intros (tr' & w' & Ha).
      destruct (access_none CK _ _ _ _ OK Ha) as (_ & _ & He & [[Hfull _]|[_ Hm]]).
      * split; [exact He|left; exact Hfull].
      * split; [exact He|right]. unfold malloc_fails. rewrite Hm. reflexivity.
    + intros (He & [Hfull|Hm]).
      * rewrite (access_full CK tr w OK He Hfull). eauto.
      * destruct (decide (tr_blocks tr = TRACK_MAX_BLOCKS)) as [Hfull|].
        { rewrite (access_full CK tr w OK He Hfull). eauto. }
        rewrite (access_grow CK tr w OK He) by lia. unfold malloc_fails in Hm.
        destruct (malloc w) as [[p|] w1]; [discriminate|eauto].
Qed.


Lemma ingest_steps_ok (CK : consts_ok) tr w tr' w' :
  track_ok tr w -> ingest_steps tr w tr' w' ->
  track_ok tr' w' /\ tr_length tr <= tr_length tr'.
Proof.
  intros OK Hs. induction Hs as [tr w|tr w rg tr1 w1 bs tr2 w2 tr3 w3 Ha Hl Hi _ IH].
  - split; [exact OK|lia].
  - destruct (access_region_at CK _ _ _ _ _ OK Ha) as (R & E).
    destruct (ingest_ret CK tr1 w1 rg bs R Hl) as (tr2' & w2' & Hi' & OK2 & _ & HL & _).
    rewrite Hi in Hi'. injection Hi' as <- <-.
    destruct (IH OK2) as (OK3 & HL3). split; [exact OK3|].
    assert (tr_length tr1 = tr_length tr) by (rewrite E; reflexivity). lia.
Qed.

Lemma ingest_split tr rg bs w tr2 w2 :
  ingest tr rg bs w = Ret (tr2, w2) ->
  exists w1, pcm_write w rg bs = Ret w1 /\
             commit_bytes tr (Z.of_nat (length bs)) w1 = Ret (tr2, w2).
Proof.
  unfold ingest. destruct (pcm_write w rg bs) as [w1| |]; simpl; try discriminate. eauto.
Qed.

(** C2. From every reachable state, a commit of at most the capacity
    of the region just returned succeeds and leaves
    [tr_length * 4 <= tr_bytes < tr_length * 4 + 4], with [tr_length]
    not smaller than before; the same holds after any sequence of such
    commits. *)
Theorem commit_bytes_invariant (tr : track_t) (w : world) :
  consts_ok -> reachable tr w ->
  (forall rg tr1 w1 bs,
     access_pcm_data tr w = Ret (Some rg, tr1, w1) ->
     0 < Z.of_nat (length bs) <= rg_len rg ->
     exists w1' tr2 w2,
       pcm_write w1 rg bs = Ret w1' /\
       commit_bytes tr1 (Z.of_nat (length bs)) w1' = Ret (tr2, w2) /\
       tr_bytes tr2 = tr_bytes tr + Z.of_nat (length bs) /\
       tr_length tr2 * 4 <= tr_bytes tr2 < tr_length tr2 * 4 + 4 /\
       tr_length tr <= tr_length tr2) /\
  (forall tr' w', ingest_steps tr w tr' w' ->
     tr_length tr' * 4 <= tr_bytes tr' < tr_length tr' * 4 + 4 /\
     tr_length tr <= tr_length tr').
Proof.
  intros CK Hr. pose proof (reachable_ok CK _ _ Hr) as OK. split.
  - intros rg tr1 w1 bs Ha Hl.
    destruct (access_region_at CK _ _ _ _ _ OK Ha) as (R & E).
    destruct (ingest_ret CK tr1 w1 rg bs R Hl) as (tr2 & w2 & Hi & OK2 & Hb & HL & _).
    destruct (ingest_split _ _ _ _ _ _ Hi) as (w1' & Hw & Hc).
    exists w1', tr2, w2. split; [exact Hw|]. split; [exact Hc|].
    assert (tr_bytes tr1 = tr_bytes tr) as Eb by (rewrite E; reflexivity).
    assert (tr_length tr1 = tr_length tr) as El by (rewrite E; reflexivity).
    split; [lia|]. split; [exact (ok_length _ _ OK2)|lia].
  - intros tr' w' Hs. destruct (ingest_steps_ok CK _ _ _ _ OK Hs) as (OK' & HL).
    split; [exact (ok_length _ _ OK')|exact HL].
Qed.

(** C10. When at most the capacity of the region just returned is
    committed, the number of samples completed satisfies the assertion
    [samples <= TRACK_BLOCK_SAMPLES - fill] of [commit_pcm_samples],
    every index [fill + i] visited by the metering loop is below
    [TRACK_BLOCK_SAMPLES] and in the block of the first one, and
    [commit_bytes] returns: neither the assertion nor an access out of a
    block ends the call. *)
Theorem commit_within_block (tr : track_t) (w : world) rg tr1 w1 (bs : list byte) :
  consts_ok -> reachable tr w ->
  access_pcm_data tr w = Ret (Some rg, tr1, w1) ->
  0 < Z.of_nat (length bs) <= rg_len rg ->
  let samples := uint ((tr_bytes tr1 + Z.of_nat (length bs)) / SAMPLE - tr_length tr1) in
  let fill := uint (tr_length tr1 mod TRACK_BLOCK_SAMPLES) in
  samples <= uint (TRACK_BLOCK_SAMPLES - fill) /\
  (forall i, 0 <= i < samples ->
     fill + i < TRACK_BLOCK_SAMPLES /\
     (tr_length tr1 + i) / TRACK_BLOCK_SAMPLES = tr_length tr1 / TRACK_BLOCK_SAMPLES) /\
  exists w1' tr2 w2,
    pcm_write w1 rg bs = Ret w1' /\
    commit_bytes tr1 (Z.of_nat (length bs)) w1' = Ret (tr2, w2).
Proof.
  intros CK Hr Ha Hl samples fill. pose proof (reachable_ok CK _ _ Hr) as OK.
  destruct (access_region_at CK _ _ _ _ _ OK Ha) as (R & E).
  pose proof R as (OK1 & Hlt & Hblk & _ & Hfill & Hlen).
  pose proof (ok_bytes _ _ OK1) as Hy. pose proof (ok_length _ _ OK1) as HL.
  change SAMPLE with 4 in HL. rewrite Hlen in Hl.
  destruct (commit_arith CK (tr_bytes tr1) (tr_length tr1) (Z.of_nat (length bs)))
    as (Eq & Hf & Hn0 & Hn1 & _); [lia|lia|lia|].
  pose proof (block_bytes_small CK) as HS. rewrite block_bytes_eq in HS.
  subst samples fill. change SAMPLE with 4.
  rewrite (uint_small (tr_length tr1 mod _)) by lia.
  rewrite (uint_small (_ - tr_length tr1)) by lia.
  rewrite (uint_small (_ - _ mod _)) by lia.
  split; [lia|]. split.
  - intros i Hi. split; [lia|].
    pose proof (ck_samples CK) as HBS.
    assert (TRACK_BLOCK_SAMPLES <> 0) as HBS0 by lia.
    pose proof (Z.div_mod (tr_length tr1) TRACK_BLOCK_SAMPLES HBS0) as Hd.
    symmetry. apply Z.div_unique with (r := tr_length tr1 mod TRACK_BLOCK_SAMPLES + i); lia.
  - rewrite <- Hlen in Hl.
    destruct (ingest_ret CK tr1 w1 rg bs R Hl) as (tr2 & w2 & Hi & _).
    destruct (ingest_split _ _ _ _ _ _ Hi) as (w1' & Hw & Hc). eauto.
Qed.


(** C8. The loop of [read_from_pipe], from a reachable state: a
    refused region gives -1 (Fatal); a read failing with EAGAIN gives 0
    (Pending) and the state is the one the region request left; a read of
    no byte gives 1 (Done); another read error gives -1 (Fatal); a read
    of n > 0 bytes commits them and the loop goes on.  [track_handle],
    when the poll entry reports events and an import is running, runs
    [stop_import] exactly when the loop returned 1 or -1, and so leaves
    [tr_pid = 0] exactly then.  When [s] is what the pipe of the track
    will deliver, [read_from_pipe] returns what this loop returns on
    [s], with the track and the world the loop leaves and, in the pipe,
    what the loop has not read; [track_handle] then returns with that
    state when the value is 0, and goes on with [stop_import] from that
    state otherwise.  On a descriptor that is not the read end of a
    pipe, [read_from_pipe] returns -1. *)
Theorem pump_outcomes (tr : track_t) (w : world) (s : list pipe_event) :
  consts_ok -> reachable tr w ->
  (forall tr1 w1, access_pcm_data tr w = Ret (None, tr1, w1) ->
     read_loop s tr w = Ret (-1, tr1, w1, s)) /\
  (forall rg tr1 w1 s1, access_pcm_data tr w = Ret (Some rg, tr1, w1) ->
     (read_script s (rg_len rg) = (ReadEAGAIN, s1) ->
        read_loop s tr w = Ret (0, tr1, w1, s1)) /\
     (read_script s (rg_len rg) = (ReadBytes [], s1) ->
        read_loop s tr w = Ret (1, tr1, w1, s1)) /\
     (read_script s (rg_len rg) = (ReadError, s1) ->
        read_loop s tr w = Ret (-1, tr1, w1, s1)) /\
     (forall b bs, read_script s (rg_len rg) = (ReadBytes (b :: bs), s1) ->
        exists tr2 w2, ingest tr1 rg (b :: bs) w1 = Ret (tr2, w2) /\
          tr_bytes tr2 = tr_bytes tr + Z.of_nat (length (b :: bs)) /\
          read_loop s tr w = read_loop s1 tr2 w2)) /\
  (forall pe e, tr_pe tr = Some pe -> w_pollfds w !! pe = Some e ->
     pfd_revents e ≠ 0 -> tr_pid tr ≠ 0 ->
     exists r tr1 w1, read_from_pipe tr w = Ret (r, tr1, w1) /\
       (r = -1 \/ r = 0 \/ r = 1) /\
       track_handle tr w =
         (if decide (r = 0) then Ret (0, tr1, w1)
          else let* (tr2, w2) := stop_import tr1 w1 in Ret (0, tr2, w2)) /\
       (forall r' tr2 w2, track_handle tr w = Ret (r', tr2, w2) ->
          (tr_pid tr2 = 0 <-> r ≠ 0))) /\
  (w_fds w !! tr_fd tr = Some (PipeRead s) ->
     exists r tr1 w1 s1, read_loop s tr w = Ret (r, tr1, w1, s1) /\
       (r = -1 \/ r = 0 \/ r = 1) /\
       let w1' := set_fds w1 (<[tr_fd tr := PipeRead s1]> (w_fds w1)) in
       read_from_pipe tr w = Ret (r, tr1, w1') /\
       (forall pe e, tr_pe tr = Some pe -> w_pollfds w !! pe = Some e ->
          pfd_revents e ≠ 0 -> tr_pid tr ≠ 0 ->
          track_handle tr w =
            (if decide (r = 0) then Ret (0, tr1, w1')
             else let* (tr2, w2) := stop_import tr1 w1' in Ret (0, tr2, w2)))) /\
  ((forall s0, w_fds w !! tr_fd tr ≠ Some (PipeRead s0)) ->
     exists tr1 w1, read_from_pipe tr w = Ret (-1, tr1, w1)).
Proof.
  intros CK Hr. pose proof (reachable_ok CK _ _ Hr) as OK. split; [|split; [|split; [|split]]].
  - intros tr1 w1 Ha. rewrite read_loop_step, Ha. reflexivity.
  - intros rg tr1 w1 s1 Ha. split; [|split; [|split]].
    + intros Hs. rewrite read_loop_step, Ha. simpl. rewrite Hs. reflexivity.
    + intros Hs. rewrite read_loop_step, Ha. simpl. rewrite Hs. reflexivity.
    + intros Hs. rewrite read_loop_step, Ha. simpl. rewrite Hs. reflexivity.
    + intros b bs Hs.
      destruct (access_region_at CK _ _ _ _ _ OK Ha) as (R & E).
      pose proof (region_len_pos CK _ _ _ R) as Hpos.
      assert (0 <= rg_len rg) as Hnn by lia.
      pose proof (read_script_length _ _ _ _ Hnn Hs) as Hlen.
      destruct (ingest_ret CK tr1 w1 rg (b :: bs) R) as (tr2 & w2 & Hi & _ & Hb & _);
        [simpl in *; lia|].
      exists tr2, w2. split; [exact Hi|].
      assert (tr_bytes tr1 = tr_bytes tr) as Eb by (rewrite E; reflexivity).
      split; [lia|]. rewrite read_loop_step, Ha. simpl. rewrite Hs, Hi. reflexivity.
  - intros pe e Hpe He Hre Hpid.
    destruct (read_from_pipe_ret CK tr w OK) as (r & tr1 & w1 & Hrd & _ & Hrv & Hp1 & _).
    exists r, tr1, w1. split; [exact Hrd|]. split; [exact Hrv|].
    assert (track_handle tr w =
            (if decide (r = 0) then Ret (0, tr1, w1)
             else let* (tr2, w2) := stop_import tr1 w1 in Ret (0, tr2, w2))) as Hh.
    { unfold track_handle. rewrite Hpe, He.
      destruct (decide (pfd_revents e = 0)); [contradiction|].
      destruct (decide (tr_pid tr ≠ 0)); [|contradiction].
      rewrite Hrd. simpl. destruct (decide (r ≠ 0)), (decide (r = 0)); try reflexivity; lia. }
    split; [exact Hh|]. intros r' tr2 w2. rewrite Hh.
    destruct (decide (r = 0)) as [->|Hne].
    + intros [= <- <- <-]. rewrite Hp1. split; [contradiction|lia].
    + destruct (stop_import tr1 w1) as [[tr3 w3]| |] eqn:Es; simpl; try discriminate.
      intros [= <- <- <-]. destruct (stop_import_same _ _ _ _ Es) as (-> & _).
      simpl. split; auto.
  - intros Hfd.
    destruct (read_loop_ret CK s tr w OK) as (r & tr1 & w1 & s1 & Hl & _ & Hrv & _).
    exists r, tr1, w1, s1. split; [exact Hl|]. split; [exact Hrv|]. intros w1'.
    assert (read_from_pipe tr w = Ret (r, tr1, w1')) as Hrd
      by (unfold read_from_pipe; rewrite Hfd, Hl; reflexivity).
    split; [exact Hrd|]. intros pe e Hpe He Hre Hpid.
    unfold track_handle. rewrite Hpe, He.
    destruct (decide (pfd_revents e = 0)); [contradiction|].
    destruct (decide (tr_pid tr ≠ 0)); [|contradiction].
    rewrite Hrd. simpl. destruct (decide (r ≠ 0)), (decide (r = 0)); try reflexivity; lia.
  - intros Hfd.
    assert (exists tr1 w1 s1, read_loop [IoError] tr w = Ret (-1, tr1, w1, s1))
      as (tr1 & w1 & s1 & Hl).
    { rewrite read_loop_step.
      destruct (access_ret CK tr w OK) as (o & tr1 & w1 & Ha). rewrite Ha. simpl.
      destruct o as [rg|]; simpl; eauto. }
    exists tr1, w1. unfold read_from_pipe.
    destruct (w_fds w !! tr_fd tr) as [[s0|]|] eqn:E;
      [exfalso; exact (Hfd s0 eq_refl)| |]; rewrite Hl; reflexivity.
Qed.

(** Freeing the blocks of indices [k] to [k + count - 1]. *)
Lemma free_loop_spec count : forall k tr w,
  (forall i, (k <= i < k + count)%nat ->
     exists p b, tr_block tr !! i = Some p /\ w_heap w !! p = Some (Some b)) ->
  (forall i j p, (k <= i < k + count)%nat -> (k <= j < k + count)%nat ->
     tr_block tr !! i = Some p -> tr_block tr !! j = Some p -> i = j) ->
  exists h, free_loop count (Z.of_nat k) tr w = Ret (set_heap w h) /\
    (forall i p, (k <= i < k + count)%nat -> tr_block tr !! i = Some p -> h !! p = Some None) /\
    (forall q, (forall i, (k <= i < k + count)%nat -> tr_block tr !! i ≠ Some q) ->
       h !! q = w_heap w !! q).
Proof.
  induction count as [|count IH]; intros k tr w Hlive Hinj.
  - exists (w_heap w). simpl. split; [destruct w; reflexivity|]. split; [intros; lia|auto].
  - simpl. rewrite array_get_lookup, Nat2Z.id by lia.
    destruct (Hlive k ltac:(lia)) as (p & b & Hk & Hp). rewrite Hk.
    unfold free. rewrite Hp. simpl.
    destruct (IH (S k) tr (set_heap w (<[p := None]> (w_heap w)))) as (h & Hf & Hfreed & Hkeep).
    + intros i Hi. destruct (Hlive i ltac:(lia)) as (q & c & Hq & Hc).
      exists q, c. split; [exact Hq|]. simpl. rewrite list_lookup_insert_ne; [exact Hc|].
      intros <-. assert (k = i) by (eapply Hinj; eauto; lia). lia.
    + intros i j q Hi Hj. apply Hinj; lia.
    + replace (Z.of_nat k + 1) with (Z.of_nat (S k)) by lia. rewrite Hf.
      exists h. split; [reflexivity|]. split.
      * intros i q Hi Hq. destruct (decide (i = k)) as [->|Hne].
        -- assert (q = p) by congruence. subst q. rewrite Hkeep.
           ++ simpl. apply list_lookup_insert_eq. apply lookup_lt_Some in Hp. exact Hp.
           ++ intros j Hj Hjp. assert (k = j) by (eapply Hinj; eauto; lia). lia.
        -- apply (Hfreed i); [lia|exact Hq].
      * intros q Hq. rewrite Hkeep by (intros i Hi; apply Hq; lia). simpl.
        apply list_lookup_insert_ne. intros <-. apply (Hq k); [lia|exact Hk].
Qed.

Lemma free_owned tr w :
  track_ok tr w ->
  exists h, free_loop (Z.to_nat (tr_blocks tr)) 0 tr w = Ret (set_heap w h) /\
    Forall (fun p => h !! p = Some None) (owned_blocks tr).
Proof.
  intros OK. pose proof (ok_blocks _ _ OK) as Hb. pose proof (ok_array _ _ OK) as Ha.
  destruct (free_loop_spec (Z.to_nat (tr_blocks tr)) 0 tr w) as (h & Hf & Hfreed & _).
  - intros i Hi. destruct (owned_lookup tr w (Z.of_nat i) OK) as (p & Hp & _ & (b & Hl & _));
      [lia|]. rewrite Nat2Z.id in Hp. eauto.
  - intros i j p Hi Hj Hpi Hpj.
    apply (NoDup_lookup (owned_blocks tr) i j p (ok_nodup _ _ OK));
      unfold owned_blocks; rewrite lookup_take_lt by lia; assumption.
  - exists h. split; [exact Hf|]. apply Forall_lookup. intros i p Hi.
    unfold owned_blocks in Hi. pose proof (lookup_lt_Some _ _ _ Hi) as Hlt.
    rewrite length_take in Hlt. rewrite lookup_take_lt in Hi by lia.
    apply (Hfreed i p); [lia|exact Hi].
Qed.

Lemma abort_import_spec tr w :
  import_ok tr w -> tr_pid tr ≠ 0 ->
  abort_import tr w =
    Ret (set_pid tr 0,
         set_children (set_fds w (delete (tr_fd tr) (w_fds w)))
                      (w_children w ∖ {[ tr_pid tr ]})).
Proof.
  intros Hi Hp. destruct (Hi Hp) as (Hpos & Hc & s & Hfd).
  unfold abort_import, kill, stop_import, close, waitpid.
  destruct (decide (0 < tr_pid tr)); [|lia].
  destruct (decide (tr_pid tr ∈ w_children w)); [|contradiction].
  destruct (decide (0 = -1)); [lia|].
  destruct (decide (tr_pid tr = 0)); [contradiction|].
  rewrite Hfd. destruct (decide (0 ≠ 0)); [lia|]. simpl.
  destruct (decide (0 < tr_pid tr)); [|lia].
  destruct (decide (tr_pid tr ∈ w_children w)); [|contradiction].
  destruct (decide (tr_pid tr = -1)); [lia|]. reflexivity.
Qed.

(** C6, as amended. From every reachable state whose import, if any,
    has its child and its pipe, [track_clear] returns; afterwards every
    block the track owned is freed, [tr_pid] is 0 and, if an import was
    running, its descriptor is closed and its child reaped.  The fields
    [tr_blocks], [tr_block] and [tr_fd] are left as they were. *)
Theorem track_clear_releases (tr : track_t) (w : world) :
  consts_ok -> reachable tr w -> import_ok tr w ->
  exists tr' w', track_clear tr w = Ret (tr', w') /\
    tr_pid tr' = 0 /\
    Forall (fun p => w_heap w' !! p = Some None) (owned_blocks tr) /\
    (tr_pid tr ≠ 0 -> w_fds w' !! tr_fd tr = None /\ tr_pid tr ∉ w_children w') /\
    tr_blocks tr' = tr_blocks tr /\ tr_block tr' = tr_block tr /\ tr_fd tr' = tr_fd tr.
Proof.
  intros CK Hr Hi. pose proof (reachable_ok CK _ _ Hr) as OK. unfold track_clear.
  destruct (decide (tr_pid tr ≠ 0)) as [Hp|Hp].
  - rewrite (abort_import_spec tr w Hi Hp). simpl.
    set (w1 := set_children _ _).
    assert (track_ok (set_pid tr 0) w1) as OK1.
    { eapply track_ok_same; [exact OK|]. unfold same_store. simpl. auto 10. }
    destruct (free_owned _ _ OK1) as (h & Hf & Hfreed). simpl in Hf. rewrite Hf. simpl.
    do 2 eexists. split; [reflexivity|]. simpl. split; [reflexivity|].
    split; [exact Hfreed|]. split; [|auto].
    intros _. split; [apply lookup_delete_eq|].
    intros Hin. apply elem_of_difference in Hin as [_ Hn]. apply Hn.
    apply elem_of_singleton. reflexivity.
  - destruct (free_owned _ _ OK) as (h & Hf & Hfreed). simpl. rewrite Hf. simpl.
    do 2 eexists. split; [reflexivity|]. simpl. split; [lia|].
    split; [exact Hfreed|]. split; [contradiction|auto].
Qed.


(** When vfork() fails the track is left with pid -1. *)
Lemma start_import_vfork_fails (tr : track_t) (path : string) (rd wr : Z) (w : world) :
  let sc := {| sc_pipe := Some (rd, wr); sc_fcntl := true; sc_vfork := None |} in
  let w' := set_fds w (<[wr := PipeWrite]> (<[rd := PipeRead []]> (w_fds w))) in
  start_import tr path sc w = Ret (-1, set_pid tr (-1), w') /\
  (tr_pid tr = 0 -> track_import tr path sc w = Ret (-1, set_pid tr (-1), w')) /\
  tr_pid (set_pid tr (-1)) ≠ 0 /\
  (forall pe e, w_pollfds w !! pe = Some e ->
     exists w'', track_pollfd (set_pid tr (-1)) pe w'
                 = Ret (1, set_pe (set_pid tr (-1)) (Some pe), w'')).
Proof.
  intros sc w'. split; [reflexivity|]. split; [|split].
  - intros Hp. unfold track_import. destruct (decide (tr_pid tr ≠ 0)); [contradiction|].
    reflexivity.
  - simpl. lia.
  - intros pe e He. unfold track_pollfd. simpl. destruct (decide (-1 ≠ 0)); [|lia].
    rewrite He. eauto.
Qed.


(** When pipe() or fcntl() fails the track is not touched. *)
Lemma start_import_early_failure (tr : track_t) (path : string) (sc : spawn_calls) (w : world) :
  sc_pipe sc = None \/ sc_fcntl sc = false ->
  exists w', start_import tr path sc w = Ret (-1, tr, w').
Proof.
  unfold start_import. intros [Hp|Hf].
  - rewrite Hp. eauto.
  - destruct (sc_pipe sc) as [[rd wr]|]; [|eauto]. rewrite Hf. eauto.
Qed.

(** A started import has its child and the read end of its pipe. *)
Lemma start_import_started (tr : track_t) (path : string) (w : world) rd wr pid out :
  rd ≠ wr -> 0 < pid ->
  exists tr' w',
    start_import tr path {| sc_pipe := Some (rd, wr); sc_fcntl := true;
                            sc_vfork := Some (pid, out) |} w = Ret (0, tr', w') /\
    tr_pid tr' = pid /\ tr_fd tr' = rd /\ tr_bytes tr' = 0 /\ tr_length tr' = 0 /\
    tr_ppm tr' = 0 /\ tr_overview tr' = 0 /\ import_ok tr' w'.
Proof.
  intros Hne Hpid. unfold start_import, close. simpl.
  destruct (decide (pid = 0)); [lia|].
  rewrite lookup_insert_ne by congruence. rewrite lookup_insert_eq.
  destruct (decide (0 ≠ 0)); [lia|].
  do 2 eexists. split; [reflexivity|]. simpl. repeat (split; [reflexivity|]).
  intros _. simpl. split; [exact Hpid|]. split.
  - apply elem_of_union_l, elem_of_singleton. reflexivity.
  - exists out. rewrite lookup_delete_ne by congruence. apply lookup_insert_eq.
Qed.

End TrackClaims.

Lemma demo_access :
  access_pcm_data (C := demo_consts) demo_track demo_world
  = Ret (Some demo_region, demo_track1, demo_world1).
Proof. vm_compute. reflexivity. Qed.

Lemma demo_reachable1 : @reachable demo_consts demo_track1 demo_world1.
Proof. eapply reach_access; [exact demo_reachable|exact demo_access]. Qed.

(** The small track while it imports. *)
Lemma demo_importing_reachable :
  @reachable demo_consts (fst demo_importing) (snd demo_importing).
Proof.
  destruct (track_import (C := demo_consts) demo_track "track.ogg" demo_spawn demo_world)
    as [[[r tr] w]| |] eqn:Ei; try (vm_compute in Ei; discriminate).
  destruct (access_pcm_data (C := demo_consts) tr w) as [[[o tr'] w']| |] eqn:Ea;
    try (vm_compute in Ei; injection Ei as <- <- <-; vm_compute in Ea; discriminate).
  assert (demo_importing = (tr', w')) as ->
    by (unfold demo_importing; rewrite Ei, Ea; reflexivity).
  eapply reach_access; [eapply reach_import; [exact demo_reachable|exact Ei]|exact Ea].
Qed.

Lemma demo_importing_ok : import_ok (fst demo_importing) (snd demo_importing).
Proof.
  intros _. split; [vm_compute; reflexivity|]. split.
  - assert (w_children (snd demo_importing) = {[ 1234 ]}) as -> by (vm_compute; reflexivity).
    assert (tr_pid (fst demo_importing) = 1234) as -> by (vm_compute; reflexivity).
    apply elem_of_singleton. reflexivity.
  - exists [Data ["000"; "128"; "000"; "128"; "016"; "039"; "240"; "216"; "001"]%byte;
            WouldBlock; Data ["000"; "255"; "127"]%byte].
    vm_compute. reflexivity.
Qed.

(** The ranges of a sample and of the sum of its two magnitudes. *)
Lemma sshort_range lo hi : -32768 <= sshort lo hi <= 32767.
Proof.
  unfold sshort, byte_val. pose proof (Byte.to_N_bounded lo). pose proof (Byte.to_N_bounded hi).
  destruct (decide _); lia.
Qed.

Lemma meter_value_exact l r :
  -32768 <= l <= 32767 -> -32768 <= r <= 32767 -> ~ (l = -32768 /\ r = -32768) ->
  meter_value l r = Z.abs l + Z.abs r.
Proof.
  intros Hl Hr Hne. unfold meter_value, ushort. apply Z.mod_small. lia.
Qed.

(** Without wrap-around the two meters move a fraction of the way to
    the new value. *)
Lemma ppm_update_exact ppm v :
  0 <= ppm < 2 ^ 32 -> 0 <= v < 2 ^ 32 ->
  ppm_update ppm v =
    if decide (ppm < v) then ppm + Z.shiftr (v - ppm) 3 else ppm - Z.shiftr (ppm - v) 9.
Proof.
  intros Hp Hv. unfold ppm_update. destruct (decide (ppm < v)).
  - rewrite (uint_small (v - ppm)) by lia. apply uint_small.
    rewrite Z.shiftr_div_pow2 by lia.
    pose proof (Z.div_pos (v - ppm) (2 ^ 3)). pose proof (Z.div_le_upper_bound (v - ppm) (2 ^ 3) (v - ppm)).
    lia.
  - rewrite (uint_small (ppm - v)) by lia. apply uint_small.
    rewrite Z.shiftr_div_pow2 by lia.
    pose proof (Z.div_pos (ppm - v) (2 ^ 9)).
    pose proof (Z.div_le_upper_bound (ppm - v) (2 ^ 9) (ppm - v)).
    lia.
Qed.

(** [writable_region] on the first request of the small track. *)
Lemma writable_region_witness :
  @consts_ok demo_consts /\ @reachable demo_consts demo_track demo_world /\
  exists o tr' w', access_pcm_data (C := demo_consts) demo_track demo_world = Ret (o, tr', w').
Proof.
  split; [exact demo_consts_ok|]. split; [exact demo_reachable|].
  exact (proj1 (writable_region (C := demo_consts) demo_track demo_world
                  demo_consts_ok demo_reachable)).
Defined.

(** [commit_bytes_invariant] on a first commit of five bytes. *)
Lemma commit_bytes_invariant_witness :
  @consts_ok demo_consts /\ @reachable demo_consts demo_track demo_world /\
  exists w1' tr2 w2,
    pcm_write demo_world1 demo_region ["000"; "128"; "000"; "128"; "016"]%byte = Ret w1' /\
    commit_bytes (C := demo_consts) demo_track1 5 w1' = Ret (tr2, w2) /\
    tr_bytes tr2 = 5 /\ tr_length tr2 * 4 <= tr_bytes tr2 < tr_length tr2 * 4 + 4 /\
    0 <= tr_length tr2.
Proof.
  split; [exact demo_consts_ok|]. split; [exact demo_reachable|].
  apply (proj1 (commit_bytes_invariant (C := demo_consts) demo_track demo_world
                  demo_consts_ok demo_reachable)
           demo_region demo_track1 demo_world1 ["000"; "128"; "000"; "128"; "016"]%byte).
  - exact demo_access.
  - simpl. lia.
Defined.

(** [commit_within_block] on the same commit. *)
Lemma commit_within_block_witness :
  exists w1' tr2 w2,
    pcm_write demo_world1 demo_region ["000"; "128"; "000"; "128"; "016"]%byte = Ret w1' /\
    commit_bytes (C := demo_consts) demo_track1 5 w1' = Ret (tr2, w2).
Proof.
  apply (commit_within_block (C := demo_consts) demo_track demo_world
           demo_region demo_track1 demo_world1 ["000"; "128"; "000"; "128"; "016"]%byte
           demo_consts_ok demo_reachable demo_access).
  simpl. lia.
Defined.

(** The small track polled while it imports is a state of the track:
    the [pe] field, which [track_init] leaves as it finds it, may point
    to an entry of the rig that reports an event. *)
Lemma demo_polled_reachable : @reachable demo_consts (fst demo_polled) (snd demo_polled).
Proof.
  set (w0 := set_pollfds demo_world
                {[ 100 := {| pfd_fd := 3; pfd_events := POLLIN; pfd_revents := POLLIN |} ]}).
  set (tr0 := track_init (C := demo_consts) (set_pe demo_struct (Some 100)) "xwax-import").
  assert (@reachable demo_consts tr0 w0) as H0.
  { apply (@reach_init demo_consts (set_pe demo_struct (Some 100))); [reflexivity|].
    exact (@ok_malloc demo_consts _ _ (reachable_ok demo_consts_ok _ _ demo_reachable)). }
  destruct (track_import (C := demo_consts) tr0 "track.ogg" demo_spawn w0)
    as [[[r tr] w]| |] eqn:Ei; try (vm_compute in Ei; discriminate).
  destruct (access_pcm_data (C := demo_consts) tr w) as [[[o tr'] w']| |] eqn:Ea;
    try (vm_compute in Ei; injection Ei as <- <- <-; vm_compute in Ea; discriminate).
  pose proof (reach_access _ _ _ _ _ (reach_import _ _ _ _ _ _ _ H0 Ei) Ea) as Hr.
  assert (fst demo_polled = tr' /\ snd demo_polled = w') as [-> ->]; [|exact Hr].
  vm_compute in Ei. injection Ei as <- <- <-. vm_compute in Ea. injection Ea as <- <- <-.
  split; vm_compute; reflexivity.
Qed.

(** [pump_outcomes] on the small track, polled while it imports: the
    first read of the small script, and the call of [track_handle]. *)
Lemma pump_outcomes_witness :
  let tr := fst demo_polled in
  let w := snd demo_polled in
  @consts_ok demo_consts /\ @reachable demo_consts tr w /\
  w_fds w !! tr_fd tr = Some (PipeRead demo_script) /\
  (exists tr2 w2,
     ingest (C := demo_consts) tr demo_region
       ["000"; "128"; "000"; "128"; "016"; "039"; "240"; "216"; "001"]%byte w
       = Ret (tr2, w2) /\
     tr_bytes tr2 = tr_bytes tr + 9 /\
     read_loop (C := demo_consts) demo_script tr w
       = read_loop (C := demo_consts) [WouldBlock; Data ["000"; "255"; "127"]%byte] tr2 w2) /\
  exists r tr1 w1 s1,
    read_loop (C := demo_consts) demo_script tr w = Ret (r, tr1, w1, s1) /\
    read_from_pipe (C := demo_consts) tr w
      = Ret (r, tr1, set_fds w1 (<[tr_fd tr := PipeRead s1]> (w_fds w1))) /\
    track_handle (C := demo_consts) tr w =
      (if decide (r = 0)
       then Ret (0, tr1, set_fds w1 (<[tr_fd tr := PipeRead s1]> (w_fds w1)))
       else let* (tr2, w2) :=
              stop_import tr1 (set_fds w1 (<[tr_fd tr := PipeRead s1]> (w_fds w1))) in
            Ret (0, tr2, w2)).
Proof.
  intros tr w.
  assert (w_fds w !! tr_fd tr = Some (PipeRead demo_script)) as Hfd
    by (vm_compute; reflexivity).
  destruct (pump_outcomes (C := demo_consts) tr w demo_script
              demo_consts_ok demo_polled_reachable) as (_ & H2 & _ & H4 & _).
  split; [exact demo_consts_ok|]. split; [exact demo_polled_reachable|].
  split; [exact Hfd|]. split.
  - assert (access_pcm_data (C := demo_consts) tr w = Ret (Some demo_region, tr, w)) as Ha
      by (vm_compute; reflexivity).
    destruct (H2 demo_region tr w [WouldBlock; Data ["000"; "255"; "127"]%byte] Ha)
      as (_ & _ & _ & H).
    exact (H _ _ eq_refl).
  - destruct (H4 Hfd) as (r & tr1 & w1 & s1 & Hl & _ & Hrd & Hh).
    exists r, tr1, w1, s1. split; [exact Hl|]. split; [exact Hrd|].
    apply (Hh 100 {| pfd_fd := 3; pfd_events := 1; pfd_revents := 1 |}).
    + vm_compute. reflexivity.
    + vm_compute. reflexivity.
    + simpl. lia.
    + vm_compute. discriminate.
Defined.

(** C6, as stated, fails: after [track_clear] of an idle track that
    owns one block, [tr_blocks] is still 1 and the array still holds the
    address of the freed block. *)
Lemma track_clear_keeps_block_count :
  @reachable demo_consts demo_track1 demo_world1 /\
  track_clear demo_track1 demo_world1 = Ret (demo_track1, demo_world_cleared) /\
  tr_blocks demo_track1 = 1 /\ owned_blocks demo_track1 = [0%nat].
Proof.
  split; [|split; [vm_compute; reflexivity|split; reflexivity]].
  eapply reach_access; [exact demo_reachable|exact demo_access].
Qed.

(** [track_clear_releases] on the small track while it imports, with one
    block. *)
Lemma track_clear_releases_witness :
  let tr := fst demo_importing in
  let w := snd demo_importing in
  @consts_ok demo_consts /\ @reachable demo_consts tr w /\ import_ok tr w /\
  tr_pid tr = 1234 /\ tr_blocks tr = 1 /\
  exists tr' w', track_clear tr w = Ret (tr', w') /\
    tr_pid tr' = 0 /\
    Forall (fun p => w_heap w' !! p = Some None) (owned_blocks tr) /\
    (tr_pid tr ≠ 0 -> w_fds w' !! tr_fd tr = None /\ tr_pid tr ∉ w_children w') /\
    tr_blocks tr' = tr_blocks tr /\ tr_block tr' = tr_block tr /\ tr_fd tr' = tr_fd tr.
Proof.
  intros tr w. split; [exact demo_consts_ok|]. split; [exact demo_importing_reachable|].
  split; [exact demo_importing_ok|]. split; [reflexivity|]. split; [reflexivity|].
  exact (track_clear_releases (C := demo_consts) tr w
           demo_consts_ok demo_importing_reachable demo_importing_ok).
Defined.

(** C1. When vfork() fails, [track_import] on an idle track returns -1
    and leaves [tr_pid = -1]: [track_pollfd] then reports one descriptor
    to watch, and [track_clear] takes the track for an importing one,
    sends SIGTERM to process -1 and aborts on the descriptor. *)
Theorem track_import_vfork_failure :
  let w' := set_fds demo_world (<[4 := PipeWrite]> (<[3 := PipeRead []]> ∅)) in
  let tr' := set_pid demo_track (-1) in
  tr_pid demo_track = 0 /\
  track_import (C := demo_consts) demo_track "track.ogg" demo_spawn_fails demo_world
    = Ret (-1, tr', w') /\
  tr_pid tr' = -1 /\
  (exists w'', track_pollfd tr' 100 w' = Ret (1, set_pe tr' (Some 100), w'')) /\
  kill w' (tr_pid tr') = 0 /\
  track_clear tr' w' = Aborted.
Proof.
  intros w' tr'. split; [reflexivity|]. split; [vm_compute; reflexivity|].
  split; [reflexivity|]. split; [eexists; vm_compute; reflexivity|].
  split; vm_compute; reflexivity.
Qed.

(** C5. At the sample L = R = -32768 (bytes 00 80 00 80) the sum
    |L| + |R| is 65536, but the [unsigned short] that holds it is 0: from
    [ppm = 0] the meter stays at 0 and the ppm byte is 0, where the
    update on 65536 gives 8192 and the byte 32. *)
Theorem meter_value_wraps :
  sshort "000" "128" = -32768 /\
  Z.abs (-32768) + Z.abs (-32768) = 65536 /\
  meter_value (-32768) (-32768) = 0 /\
  ppm_update 0 (meter_value (-32768) (-32768)) = 0 /\
  ppm_update 0 65536 = 8192 /\
  uchar (Z.shiftr 8192 8) = 32 /\
  tr_ppm (fst demo_importing) = 0 /\
  exists tr2 w2 blk,
    ingest (C := demo_consts) (fst demo_importing) demo_region
           ["000"; "128"; "000"; "128"]%byte (snd demo_importing) = Ret (tr2, w2) /\
    tr_length tr2 = 1 /\ tr_ppm tr2 = 0 /\ tr_overview tr2 = 0 /\
    w_heap w2 !! 0%nat = Some (Some blk) /\
    blk_ppm blk !! 0%nat = Some 0 /\ blk_overview blk !! 0%nat = Some 0.
Proof.
  repeat (split; [reflexivity|]).
  destruct (ingest (C := demo_consts) (fst demo_importing) demo_region
              ["000"; "128"; "000"; "128"]%byte (snd demo_importing))
    as [[tr2 w2]| |] eqn:E; try (vm_compute in E; discriminate).
  vm_compute in E. injection E as <- <-.
  do 3 eexists. split; [reflexivity|]. repeat (split; [reflexivity|]). reflexivity.
Qed.

(* ================================================================= *)
(** ** Chunks *)

Lemma splice_app {A} off (d1 d2 l : list A) :
  (off + length d1 + length d2 <= length l)%nat ->
  splice off (d1 ++ d2) l = splice (off + length d1) d2 (splice off d1 l).
Proof.
  intros H. unfold splice.
  assert (length (take off l) = off) as Ht by (rewrite length_take; lia).
  rewrite (app_assoc (take off l) d1).
  rewrite (take_app_length' (take off l ++ d1)) by (rewrite length_app; lia).
  rewrite drop_app_ge by (rewrite length_app; lia).
  rewrite drop_drop, !length_app, Ht, <- !app_assoc.
  do 3 f_equal. f_equal. lia.
Qed.

Lemma splice_take {A} off (d l : list A) :
  (off + length d <= length l)%nat ->
  take (off + length d) (splice off d l) = take off l ++ d.
Proof.
  intros H. unfold splice. rewrite app_assoc.
  apply take_app_length'. rewrite length_app, length_take. lia.
Qed.

Lemma splice_take_app {A} off (d1 d2 l : list A) :
  (off <= length l)%nat ->
  take (off + length d1) (splice off (d1 ++ d2) l) = take off l ++ d1.
Proof.
  intros H. unfold splice. rewrite <- (app_assoc d1 d2), (app_assoc (take off l) d1).
  apply take_app_length'. rewrite length_app, length_take. lia.
Qed.

Section Splitting.
Context `{C : track_consts}.
Hypothesis CK : consts_ok.

(** A region is asked for again before anything is committed: the same
    region, and nothing changes. *)
Lemma access_again tr w rg :
  region_at tr w rg -> access_pcm_data tr w = Ret (Some rg, tr, w).
Proof.
  intros (OK & Hlt & Hblk & _ & Hfill & Hlen).
  destruct (access_inside CK tr w OK Hlt) as (p & Hp & _ & E). rewrite E.
  rewrite Hblk in Hp. injection Hp as <-. destruct rg; simpl in *. subst. reflexivity.
Qed.


(** Committing [d1 ++ d2] at once, or [d1] and then [d2]. *)
Lemma ingest_app tr w rg (d1 d2 : list byte) :
  region_at tr w rg -> d1 ≠ [] -> d2 ≠ [] ->
  Z.of_nat (length d1) + Z.of_nat (length d2) <= rg_len rg ->
  exists tr1 w1, ingest tr rg d1 w = Ret (tr1, w1) /\
    region_at tr1 w1 (region_rest rg (Z.of_nat (length d1))) /\
    ingest tr rg (d1 ++ d2) w
    = ingest tr1 (region_rest rg (Z.of_nat (length d1))) d2 w1.
Proof.
  intros R Hd1 Hd2 Hm.
  pose proof R as (OK & Hlt & Hblk & (blk & Hp & Hsz) & Hfill & Hlen).
  assert (0 < Z.of_nat (length d1)) as Hm1 by (destruct d1; [congruence|simpl; lia]).
  assert (0 < Z.of_nat (length d2)) as Hm2 by (destruct d2; [congruence|simpl; lia]).
  set (m1 := Z.of_nat (length d1)) in *. set (m2 := Z.of_nat (length d2)) in *.
  pose proof (ok_bytes _ _ OK) as Hy. pose proof (ok_length _ _ OK) as HL.
  pose proof (ok_blocks _ _ OK) as Hbl. change SAMPLE with 4 in HL.
  pose proof (block_bytes_pos CK) as HB.
  pose proof (block_bytes_small CK) as HBs.
  pose proof (Z.mod_pos_bound (tr_bytes tr) TRACK_BLOCK_PCM_BYTES HB) as Hr.
  set (b := tr_bytes tr) in *. set (L := tr_length tr) in *.
  set (r := b mod TRACK_BLOCK_PCM_BYTES) in *.
  destruct (commit_arith CK b L m1) as (Eq & Hf & Hn0 & Hn1 & Hf4 & HL1 & Hb1 & Hk1);
    [lia|lia|fold r; lia|]. fold r in Hf4, Hk1.
  destruct (commit_arith CK b L (m1 + m2)) as (_ & _ & HnT0 & HnT1 & _ & HLT & HbT & HkT);
    [lia|lia|fold r; lia|]. fold r in HkT.
  set (n1 := (b + m1) / 4 - L) in *. set (nT := (b + (m1 + m2)) / 4 - L) in *.
  set (fill := L mod TRACK_BLOCK_SAMPLES) in *.
  assert (n1 <= nT) as Hn1T by lia.
  (* the first commit *)
  destruct (ingest_ret CK tr w rg d1 R) as (tr1 & w1 & Hi1 & OK1 & Hb1' & _); [fold m1; lia|].
  fold m1 b in Hb1'.
  pose proof Hi1 as Hi1'.
  rewrite (ingest_eq CK tr w rg d1 blk R Hp Hsz) in Hi1' by (fold m1; lia).
  fold m1 b L n1 fill in Hi1'.
  set (pcmA := splice (Z.to_nat (rg_fill rg)) d1 (blk_pcm blk)) in *.
  assert (Z.of_nat (length (blk_pcm blk)) = TRACK_BLOCK_PCM_BYTES) as Hpl by apply Hsz.
  assert (block_sized (with_pcm blk pcmA)) as HszA.
  { destruct Hsz as (H1 & H2 & H3). unfold block_sized. simpl. unfold pcmA.
    rewrite splice_length by (unfold m1, m2 in *; lia). auto. }
  destruct (meter_blk_ret CK (Z.to_nat n1) fill (tr_ppm tr) (tr_overview tr)
              (with_pcm blk pcmA) HszA) as (a1 & b1 & blk1 & Hmt1 & Hpcm1 & Hsz1); [lia|lia|].
  rewrite Hmt1 in Hi1'. simpl in Hi1'. injection Hi1' as Etr1 Ew1.
  simpl in Hpcm1.
  assert (w_heap w1 !! rg_block rg = Some (Some blk1)) as Hp1.
  { rewrite <- Ew1. eapply heap_store_lookup. exact Hp. }
  exists tr1, w1. split; [exact Hi1|].
  assert ((b + m1) / TRACK_BLOCK_PCM_BYTES = b / TRACK_BLOCK_PCM_BYTES /\
          (b + m1) mod TRACK_BLOCK_PCM_BYTES = r + m1) as (Eq1 & Er1).
  { assert (TRACK_BLOCK_PCM_BYTES <> 0) as HB0 by lia.
    pose proof (Z.div_mod b TRACK_BLOCK_PCM_BYTES HB0) as Hd. fold r in Hd.
    assert (b + m1 = TRACK_BLOCK_PCM_BYTES * (b / TRACK_BLOCK_PCM_BYTES) + (r + m1)) as E by lia.
    split; symmetry.
    - apply Z.div_unique with (r := r + m1); [lia|exact E].
    - apply Z.mod_unique with (q := b / TRACK_BLOCK_PCM_BYTES); [lia|exact E]. }
  assert (region_at tr1 w1 (region_rest rg m1)) as R1.
  { unfold region_at. split; [exact OK1|]. rewrite Hb1'. simpl.
    assert (tr_blocks tr1 = tr_blocks tr /\ tr_block tr1 = tr_block tr) as (E1 & E2)
      by (rewrite <- Etr1; split; reflexivity).
    rewrite E1, E2, Eq1, Er1.
    destruct (block_index_bounds CK b (tr_blocks tr)) as [Hi Hiff]; [lia|lia|].
    split.
    { assert (b / TRACK_BLOCK_PCM_BYTES < tr_blocks tr) as Hi'.
      { destruct (decide (b / TRACK_BLOCK_PCM_BYTES = tr_blocks tr)) as [E|E]; [|lia].
        apply Hiff in E. lia. }
      assert (TRACK_BLOCK_PCM_BYTES <> 0) as HB0 by lia.
      pose proof (Z.div_mod b TRACK_BLOCK_PCM_BYTES HB0) as Hd. fold r in Hd. nia. }
    split; [exact Hblk|]. split; [exists blk1; split; assumption|]. split; lia. }
  split; [exact R1|].
  (* both sides through [meter_blk] *)
  rewrite (ingest_eq CK tr w rg (d1 ++ d2) blk R Hp Hsz)
    by (rewrite length_app, Nat2Z.inj_add; fold m1 m2; lia).
  rewrite (ingest_eq CK tr1 w1 (region_rest rg m1) d2 blk1 R1 Hp1 Hsz1)
    by (simpl; fold m2; lia).
  rewrite length_app, Nat2Z.inj_add. fold m1 m2 b L nT fill. simpl rg_fill. simpl rg_block.
  rewrite Hb1'.
  assert (tr_length tr1 = L + n1) as EL1 by (rewrite <- Etr1; reflexivity).
  assert (tr_ppm tr1 = a1 /\ tr_overview tr1 = b1) as (Ea1 & Eb1)
    by (rewrite <- Etr1; split; reflexivity).
  rewrite EL1, Ea1, Eb1, Hpcm1.
  assert (Z.to_nat (rg_fill rg) + length d1 + length d2 <= length (blk_pcm blk))%nat as Hfit
    by (unfold m1, m2 in *; lia).
  assert (splice (Z.to_nat (rg_fill rg + m1)) d2 pcmA
          = splice (Z.to_nat (rg_fill rg)) (d1 ++ d2) (blk_pcm blk)) as Esp.
  { rewrite (splice_app _ d1 d2 _ Hfit). fold pcmA. f_equal. unfold m1. lia. }
  rewrite Esp. set (pcmB := splice (Z.to_nat (rg_fill rg)) (d1 ++ d2) (blk_pcm blk)).
  assert ((L + n1) mod TRACK_BLOCK_SAMPLES = fill + Z.of_nat (Z.to_nat n1)) as Efill.
  { rewrite Z2Nat.id by lia. pose proof (ck_samples CK) as HBS.
    assert (TRACK_BLOCK_SAMPLES <> 0) as HBS0 by lia.
    pose proof (Z.div_mod L TRACK_BLOCK_SAMPLES HBS0) as Hd. fold fill in Hd.
    symmetry. apply Z.mod_unique with (q := L / TRACK_BLOCK_SAMPLES); [|lia].
    rewrite block_bytes_eq in *. lia. }
  rewrite Efill.
  assert ((b + m1 + m2) / 4 = nT + L) as EnT
    by (unfold nT; replace (b + m1 + m2) with (b + (m1 + m2)) by lia; lia).
  rewrite EnT. replace (nT + L - (L + n1)) with (nT - n1) by lia.
  replace (Z.to_nat nT) with (Z.to_nat n1 + Z.to_nat (nT - n1))%nat by lia.
  rewrite block_bytes_eq in HBs.
  rewrite meter_blk_app by lia.
  rewrite (meter_blk_frame (Z.to_nat n1) fill _ _ (with_pcm blk pcmA) pcmB
             (Z.to_nat (rg_fill rg) + length d1)); [| lia | lia | | ].
  - simpl with_pcm. rewrite Hmt1. simpl.
    destruct (meter_blk (Z.to_nat (nT - n1)) _ a1 b1 (with_pcm blk1 pcmB))
      as [[[a2 b2] blk2]| |]; try reflexivity.
    simpl. rewrite <- Ew1, heap_store_store. rewrite <- Etr1.
    replace (b + m1 + m2) with (b + (m1 + m2)) by lia.
    replace (L + n1 + (nT - n1)) with (L + nT) by lia. reflexivity.
  - simpl. unfold pcmB, pcmA. rewrite splice_take_app by lia.
    rewrite splice_take by lia. reflexivity.
  - rewrite Z2Nat.id by lia. unfold m1, m2 in *. lia.
Qed.

End Splitting.

Lemma merge_data_merged s : merged (merge_data s).
Proof.
  induction s as [|e s IH]; simpl; [exact I|].
  destruct e as [a| |]; simpl; try exact IH.
  destruct (merge_data s) as [|[b| |] t] eqn:E; simpl in *.
  - destruct a; simpl; auto.
  - destruct IH as (Hb & Ht & Hm). split; [|split; assumption].
    intros Hab. apply app_eq_nil in Hab. destruct Hab. contradiction.
  - destruct a; simpl; auto.
  - destruct a; simpl; auto.
Qed.

Lemma merged_fixed s : merged s -> merge_data s = s.
Proof.
  induction s as [|e s IH]; simpl; [reflexivity|].
  destruct e as [a| |]; simpl.
  - intros (Ha & Hs & Hm). rewrite (IH Hm).
    destruct s as [|[b| |] t]; try contradiction; destruct a; congruence.
  - intros Hm. rewrite (IH Hm). reflexivity.
  - intros Hm. rewrite (IH Hm). reflexivity.
Qed.

Lemma merge_data_idem s : merge_data (merge_data s) = merge_data s.
Proof. apply merged_fixed, merge_data_merged. Qed.

Lemma merge_data_cons_data a s :
  merge_data (Data a :: s) = merge_data (Data a :: merge_data s).
Proof. simpl. rewrite merge_data_idem. reflexivity. Qed.

Lemma merge_data_app a b s :
  merge_data (Data a :: Data b :: s) = merge_data (Data (a ++ b) :: s).
Proof.
  simpl. destruct (merge_data s) as [|[c| |] t]; simpl.
  - destruct b; simpl; [rewrite app_nil_r; reflexivity|]. destruct a; reflexivity.
  - rewrite app_assoc. reflexivity.
  - destruct b; simpl; [rewrite app_nil_r; reflexivity|]. destruct a; reflexivity.
  - destruct b; simpl; [rewrite app_nil_r; reflexivity|]. destruct a; reflexivity.
Qed.

Lemma merge_data_chunks cs rest :
  merge_data (map Data cs ++ rest) = merge_data (Data (concat cs) :: rest).
Proof.
  induction cs as [|c cs IH].
  - simpl. destruct (merge_data rest) as [|[]]; reflexivity.
  - change (map Data (c :: cs) ++ rest) with (Data c :: (map Data cs ++ rest)).
    rewrite merge_data_cons_data, IH, <- merge_data_cons_data.
    apply merge_data_app.
Qed.

Lemma pump_same_refl r tr w s :
  pump_same (Ret (r, tr, w, s)) (Ret (r, tr, w, merge_data s)).
Proof. exists r, tr, w, s, (merge_data s). rewrite merge_data_idem. auto. Qed.

Lemma pump_same_sym o1 o2 : pump_same o1 o2 -> pump_same o2 o1.
Proof. intros (r & tr & w & s1 & s2 & H1 & H2 & H3). exists r, tr, w, s2, s1. auto. Qed.

Lemma pump_same_trans o1 o2 o3 : pump_same o1 o2 -> pump_same o2 o3 -> pump_same o1 o3.
Proof.
  intros (r & tr & w & s1 & s2 & H1 & H2 & H3) (r' & tr' & w' & s2' & s3 & H4 & H5 & H6).
  subst. injection H4 as <- <- <- <-. exists r, tr, w, s1, s3. split; [reflexivity|].
  split; [reflexivity|congruence].
Qed.

Lemma read_script_data (a : list byte) s len :
  a ≠ [] -> 0 < len ->
  read_script (Data a :: s) len =
    if decide (Z.of_nat (length a) <= len) then (ReadBytes a, s)
    else (ReadBytes (take (Z.to_nat len) a), Data (drop (Z.to_nat len) a) :: s).
Proof. intros Ha Hl. destruct a; [congruence|]. reflexivity. Qed.

Lemma merge_data_nil_cons s : merge_data (Data [] :: s) = merge_data s.
Proof. simpl. destruct (merge_data s) as [|[]]; reflexivity. Qed.

(** The chunk at the head of a merged script: the data [x] that follows
    [a] in the pipe is joined to it. *)
Lemma merge_data_head (a : list byte) s :
  a ≠ [] ->
  exists x t,
    (forall a', a' ≠ [] -> merge_data (Data a' :: s) = Data (a' ++ x) :: t) /\
    (x = [] -> merge_data s = t) /\
    (x ≠ [] -> merge_data s = Data x :: t).
Proof.
  intros Ha. pose proof (merge_data_merged s) as Hm.
  destruct (merge_data s) as [|[b| |] t] eqn:E.
  - exists [], []. split; [|split; [reflexivity|congruence]].
    intros a' Ha'. simpl. rewrite E, app_nil_r. destruct a'; congruence.
  - exists b, t. destruct Hm as (Hb & _). split; [|split; [contradiction|reflexivity]].
    intros a' Ha'. simpl. rewrite E. reflexivity.
  - exists [], (WouldBlock :: t). split; [|split; [reflexivity|congruence]].
    intros a' Ha'. simpl. rewrite E, app_nil_r. destruct a'; congruence.
  - exists [], (IoError :: t). split; [|split; [reflexivity|congruence]].
    intros a' Ha'. simpl. rewrite E, app_nil_r. destruct a'; congruence.
Qed.

Section Chunks.
Context `{C : track_consts}.
Hypothesis CK : consts_ok.

Lemma read_loop_data tr w rg tr1 w1 (a : list byte) s :
  access_pcm_data tr w = Ret (Some rg, tr1, w1) -> a ≠ [] -> 0 < rg_len rg ->
  read_loop (Data a :: s) tr w =
    if decide (Z.of_nat (length a) <= rg_len rg) then
      let* (tr2, w2) := ingest tr1 rg a w1 in read_loop s tr2 w2
    else
      let* (tr2, w2) := ingest tr1 rg (take (Z.to_nat (rg_len rg)) a) w1 in
      read_loop (Data (drop (Z.to_nat (rg_len rg)) a) :: s) tr2 w2.
Proof.
  intros Ha Hne Hl. rewrite read_loop_step, Ha. simpl obind.
  destruct a as [|c a]; [congruence|].
  destruct (decide _) as [Hle|Hgt]; [reflexivity|].
  destruct (Z.to_nat (rg_len rg)) as [|k] eqn:Ek; [lia|]. reflexivity.
Qed.

Lemma pump_same_id s tr w :
  track_ok tr w -> pump_same (read_loop s tr w) (read_loop s tr w).
Proof.
  intros OK. destruct (read_loop_ret CK s tr w OK) as (r & tr' & w' & s' & -> & _).
  exists r, tr', w', s', s'. auto.
Qed.

Lemma read_loop_nil_chunk tr w s :
  track_ok tr w -> pump_same (read_loop (Data [] :: s) tr w) (read_loop s tr w).
Proof.
  intros OK. destruct (access_ret CK tr w OK) as (o & tr1 & w1 & Ha).
  destruct o as [rg|].
  - assert (read_loop (Data [] :: s) tr w = read_loop s tr w) as ->
      by (rewrite (read_loop_step (Data [] :: s)), (read_loop_step s), Ha; reflexivity).
    apply pump_same_id, OK.
  - rewrite (read_loop_step (Data [] :: s)), (read_loop_step s), Ha. simpl.
    exists (-1), tr1, w1, (Data [] :: s), s. split; [reflexivity|]. split; [reflexivity|].
    apply merge_data_nil_cons.
Qed.


Lemma script_size_data_drop (a : list byte) k s :
  a ≠ [] -> (0 < k)%nat ->
  (script_size (Data (drop k a) :: s) < script_size (Data a :: s))%nat.
Proof.
  intros Ha Hk. simpl. rewrite length_drop. destruct a; [congruence|]. simpl. lia.
Qed.

(** The loop of [read_from_pipe] sees the bytes of the script, not the
    chunks in which they were written. *)
Lemma read_loop_merge s : forall tr w,
  track_ok tr w -> pump_same (read_loop s tr w) (read_loop (merge_data s) tr w).
Proof.
  induction s as [s IH] using script_size_ind. intros tr w OK.
  destruct (access_ret CK tr w OK) as (o & tr1 & w1 & Ha).
  destruct o as [rg|].
  2:{ rewrite (read_loop_step s), (read_loop_step (merge_data s)), Ha. simpl.
      apply pump_same_refl. }
  destruct (access_region_at CK _ _ _ _ _ OK Ha) as (R & _).
  pose proof (region_len_pos CK _ _ _ R) as Hlen.
  destruct s as [|[a| |] s'].
  - apply pump_same_id, OK.
  - destruct (decide (a = [])) as [->|Hne].
    { rewrite merge_data_nil_cons.
      eapply pump_same_trans; [apply read_loop_nil_chunk, OK|].
      apply IH; [simpl; lia|exact OK]. }
    destruct (merge_data_head a s' Hne) as (x & t & Hhead & Hx0 & Hx1).
    rewrite (Hhead a Hne).
    assert (a ++ x ≠ []) as Hax by (intros E; apply app_eq_nil in E; tauto).
    rewrite (read_loop_data tr w rg tr1 w1 a s' Ha Hne Hlen).
    rewrite (read_loop_data tr w rg tr1 w1 (a ++ x) t Ha Hax Hlen).
    rewrite length_app, Nat2Z.inj_add.
    destruct (decide (Z.of_nat (length a) <= rg_len rg)) as [Hle|Hgt].
    + (* the whole of [a] fits the region *)
      destruct (decide (x = [])) as [->|Hxne].
      { rewrite app_nil_r. simpl length. rewrite Z.add_0_r.
        destruct (decide (Z.of_nat (length a) <= rg_len rg)); [|lia].
        destruct (ingest_ret CK tr1 w1 rg a R) as (tr2 & w2 & -> & OK2 & _);
          [destruct a; [congruence|simpl in *; lia]|].
        simpl. rewrite <- (Hx0 eq_refl). apply IH; [simpl; lia|exact OK2]. }
      destruct (decide (Z.of_nat (length a) = rg_len rg)) as [Heq|Hlt].
      { assert (0 < Z.of_nat (length x)) by (destruct x; [congruence|simpl; lia]).
        destruct (decide (_ + _ <= rg_len rg)); [lia|].
        rewrite <- Heq, Nat2Z.id, take_app_length, drop_app_length.
        destruct (ingest_ret CK tr1 w1 rg a R) as (tr2 & w2 & -> & OK2 & _);
          [destruct a; [congruence|simpl in *; lia]|].
        simpl. rewrite <- (Hx1 Hxne). apply IH; [simpl; lia|exact OK2]. }
      (* room is left after [a]: the merged script goes on with [x] *)
      set (k := rg_len rg - Z.of_nat (length a)).
      assert (0 < k) as Hk by (unfold k; lia).
      set (x1 := if decide (Z.of_nat (length x) <= k) then x else take (Z.to_nat k) x).
      set (rem := if decide (Z.of_nat (length x) <= k) then t
                  else Data (drop (Z.to_nat k) x) :: t).
      assert (x1 ≠ []) as Hx1ne.
      { unfold x1. destruct (decide _); [exact Hxne|].
        destruct x; [congruence|]. destruct (Z.to_nat k) eqn:Ek; [lia|]. discriminate. }
      assert (Z.of_nat (length x1) <= k) as Hx1k.
      { unfold x1. destruct (decide _); [assumption|]. rewrite length_take. lia. }
      destruct (ingest_app CK tr1 w1 rg a x1 R Hne Hx1ne) as (tr2 & w2 & Hi & R2 & Happ);
        [unfold k in Hx1k; lia|].
      rewrite Hi. simpl obind.
      assert ((if decide (Z.of_nat (length a) + Z.of_nat (length x) <= rg_len rg)
               then let* (tr3, w3) := ingest tr1 rg (a ++ x) w1 in read_loop t tr3 w3
               else let* (tr3, w3) := ingest tr1 rg (take (Z.to_nat (rg_len rg)) (a ++ x)) w1
                    in read_loop (Data (drop (Z.to_nat (rg_len rg)) (a ++ x)) :: t) tr3 w3)
              = read_loop (Data x :: t) tr2 w2) as ->.
      { rewrite (read_loop_data tr2 w2 (region_rest rg (Z.of_nat (length a))) tr2 w2 x t
                   (access_again CK _ _ _ R2) Hxne) by (simpl; lia).
        simpl rg_len. fold k. unfold x1, rem in *.
        destruct (decide (Z.of_nat (length x) <= k)) as [Hxk|Hxk].
        - destruct (decide (_ + _ <= rg_len rg)); [|unfold k in Hxk; lia].
          rewrite Happ. reflexivity.
        - destruct (decide (_ + _ <= rg_len rg)); [unfold k in Hxk; lia|].
          assert (Z.to_nat (rg_len rg) = (length a + Z.to_nat k)%nat) as -> by (unfold k; lia).
          rewrite take_app_add, drop_app_add, Happ. reflexivity. }
      rewrite <- (Hx1 Hxne). apply IH; [simpl; lia|apply R2].
    + (* the region is filled with the head of [a] *)
      destruct (decide (_ + _ <= rg_len rg)); [lia|].
      rewrite take_app_le, drop_app_le by lia.
      destruct (ingest_ret CK tr1 w1 rg (take (Z.to_nat (rg_len rg)) a) R)
        as (tr2 & w2 & -> & OK2 & _); [rewrite length_take; lia|].
      simpl.
      assert (drop (Z.to_nat (rg_len rg)) a ≠ []) as Hdne.
      { intros E. apply (f_equal length) in E. rewrite length_drop in E. simpl in E. lia. }
      rewrite <- (Hhead _ Hdne).
      apply IH; [apply script_size_data_drop; [exact Hne|lia]|exact OK2].
  - rewrite (read_loop_step (WouldBlock :: s')).
    change (merge_data (WouldBlock :: s')) with (WouldBlock :: merge_data s').
    rewrite (read_loop_step (WouldBlock :: merge_data s')), Ha. simpl.
    apply pump_same_refl.
  - rewrite (read_loop_step (IoError :: s')).
    change (merge_data (IoError :: s')) with (IoError :: merge_data s').
    rewrite (read_loop_step (IoError :: merge_data s')), Ha. simpl.
    apply pump_same_refl.
Qed.

End Chunks.

Section ChunkClaim.
Context `{C : track_consts}.

(** Two scripts with the same bytes between the same events are read
    alike. *)
Lemma read_loop_same_bytes (CK : consts_ok) s1 s2 tr w :
  track_ok tr w -> merge_data s1 = merge_data s2 ->
  pump_same (read_loop s1 tr w) (read_loop s2 tr w).
Proof.
  intros OK E. eapply pump_same_trans; [apply (read_loop_merge CK), OK|].
  rewrite E. apply pump_same_sym, (read_loop_merge CK), OK.
Qed.

(** C3. From every reachable state, the loop of [read_from_pipe] fed
    the chunks [cs] one after the other, and fed their concatenation as
    one chunk, return the same value, the same track (counters and
    meters) and the same world (the samples, the ppm and the overview
    bytes of every block); the data left in the pipe is the same byte
    stream. *)
Theorem ingest_chunking (tr : track_t) (w : world) (cs : list (list byte))
    (rest : list pipe_event) :
  consts_ok -> reachable tr w ->
  exists r tr' w' s1 s2,
    read_loop (map Data cs ++ rest) tr w = Ret (r, tr', w', s1) /\
    read_loop (Data (concat cs) :: rest) tr w = Ret (r, tr', w', s2) /\
    merge_data s1 = merge_data s2.
Proof.
  intros CK Hr. apply (read_loop_same_bytes CK).
  - apply (reachable_ok CK), Hr.
  - apply merge_data_chunks.
Qed.

End ChunkClaim.

(** [ingest_chunking] on five bytes cut after the second. *)
Lemma ingest_chunking_witness :
  exists r tr' w' s1 s2,
    read_loop (C := demo_consts)
      [Data ["000"; "128"]%byte; Data ["000"; "128"; "016"]%byte; WouldBlock]
      demo_track demo_world = Ret (r, tr', w', s1) /\
    read_loop (C := demo_consts)
      [Data ["000"; "128"; "000"; "128"; "016"]%byte; WouldBlock]
      demo_track demo_world = Ret (r, tr', w', s2) /\
    merge_data s1 = merge_data s2.
Proof.
  exact (ingest_chunking (C := demo_consts) demo_track demo_world
           [["000"; "128"]; ["000"; "128"; "016"]]%byte [WouldBlock]
           demo_consts_ok demo_reachable).
Defined.

(* ================================================================= *)
(** * Further properties of the code *)

(* ================================================================= *)
(** ** The meters *)

Lemma shiftr_le d k : 0 <= d -> 0 <= k -> 0 <= Z.shiftr d k <= d.
Proof.
  intros Hd Hk. rewrite Z.shiftr_div_pow2 by exact Hk.
  assert (0 < 2 ^ k) by (apply Z.pow_pos_nonneg; lia).
  split; [apply Z.div_pos; lia|]. apply Z.div_le_upper_bound; nia.
Qed.





(** The fast meter under a constant value. *)
Lemma ppm_n_range n : forall ppm v,
  0 <= ppm < 2 ^ 32 -> 0 <= v < 2 ^ 32 -> 0 <= ppm_n n ppm v < 2 ^ 32.
Proof.
  induction n as [|n IH]; intros ppm v Hp Hv; simpl; [exact Hp|].
  unfold ppm_update. destruct (decide _); apply uint_range.
Qed.

Lemma ppm_n_add n m ppm v : ppm_n (n + m) ppm v = ppm_n n (ppm_n m ppm v) v.
Proof. induction n as [|n IH]; simpl; [reflexivity|]. rewrite IH. reflexivity. Qed.

Lemma ppm_update_stall ppm v :
  0 <= ppm < 2 ^ 32 -> 0 <= v < 2 ^ 32 -> v - 8 < ppm < v + 512 -> ppm_update ppm v = ppm.
Proof.
  intros Hp Hv Hn. rewrite ppm_update_exact by lia. destruct (decide (ppm < v)).
  - rewrite Z.shiftr_div_pow2 by lia. change (2 ^ 3) with 8.
    rewrite Z.div_small by lia. lia.
  - rewrite Z.shiftr_div_pow2 by lia. change (2 ^ 9) with 512.
    rewrite Z.div_small by lia. lia.
Qed.

Lemma ppm_n_stall n ppm v :
  0 <= ppm < 2 ^ 32 -> 0 <= v < 2 ^ 32 -> v - 8 < ppm < v + 512 -> ppm_n n ppm v = ppm.
Proof.
  intros Hp Hv Hn. induction n as [|n IH]; simpl; [reflexivity|].
  rewrite IH. apply ppm_update_stall; assumption.
Qed.

Lemma ppm_update_closer ppm v :
  0 <= ppm < 2 ^ 32 -> 0 <= v < 2 ^ 32 -> ~ (v - 8 < ppm < v + 512) ->
  Z.abs (v - ppm_update ppm v) < Z.abs (v - ppm).
Proof.
  intros Hp Hv Hn. rewrite ppm_update_exact by lia. destruct (decide (ppm < v)).
  - rewrite Z.shiftr_div_pow2 by lia. change (2 ^ 3) with 8.
    pose proof (Z.div_le_lower_bound (v - ppm) 8 1). 
    pose proof (Z.div_le_upper_bound (v - ppm) 8 (v - ppm)). lia.
  - rewrite Z.shiftr_div_pow2 by lia. change (2 ^ 9) with 512.
    pose proof (Z.div_le_lower_bound (ppm - v) 512 1).
    pose proof (Z.div_le_upper_bound (ppm - v) 512 (ppm - v)). lia.
Qed.

(** X4. Under a constant value [v] the fast meter moves towards [v],
    never past it and never away from it, and after finitely many
    samples it stays at one value, at most 7 below [v] (attack) or at
    most 511 above it (release). *)
Theorem ppm_settles (ppm v : Z) :
  0 <= ppm < 2 ^ 32 -> 0 <= v < 2 ^ 32 ->
  exists N, v - 8 < ppm_n N ppm v < v + 512 /\
    (forall n, (N <= n)%nat -> ppm_n n ppm v = ppm_n N ppm v) /\
    (forall n, Z.min ppm v <= ppm_n n ppm v <= Z.max ppm v) /\
    (forall n, Z.abs (v - ppm_n (S n) ppm v) <= Z.abs (v - ppm_n n ppm v)).
Proof.
  intros Hp Hv.
  assert (exists N, v - 8 < ppm_n N ppm v < v + 512) as [N HN].
  { remember (Z.to_nat (Z.abs (v - ppm))) as d eqn:Ed. revert ppm Hp Ed.
    induction d as [d IH] using lt_wf_ind. intros ppm Hp Ed.
    destruct (decide (v - 8 < ppm < v + 512)) as [Hin|Hout]; [exists O; exact Hin|].
    pose proof (ppm_update_closer ppm v Hp Hv Hout) as Hc.
    destruct (IH (Z.to_nat (Z.abs (v - ppm_update ppm v))) ltac:(lia) (ppm_update ppm v))
      as [N HN]; [apply (ppm_n_range 1 ppm v Hp Hv)|reflexivity|].
    exists (N + 1)%nat. rewrite ppm_n_add. exact HN. }
  exists N. split; [exact HN|]. split; [|split].
  - intros n Hn. replace n with ((n - N) + N)%nat by lia. rewrite ppm_n_add.
    apply ppm_n_stall; [apply ppm_n_range; assumption|exact Hv|exact HN].
  - induction n as [|n IH]; simpl; [lia|].
    pose proof (ppm_n_range n ppm v Hp Hv) as Hr.
    rewrite ppm_update_exact by lia. destruct (decide (ppm_n n ppm v < v)).
    + pose proof (shiftr_le (v - ppm_n n ppm v) 3). lia.
    + pose proof (shiftr_le (ppm_n n ppm v - v) 9). lia.
  - intros n. simpl. pose proof (ppm_n_range n ppm v Hp Hv) as Hr.
    rewrite ppm_update_exact by lia. destruct (decide (ppm_n n ppm v < v)).
    + pose proof (shiftr_le (v - ppm_n n ppm v) 3). lia.
    + pose proof (shiftr_le (ppm_n n ppm v - v) 9). lia.
Qed.

Lemma ppm_settles_witness :
  exists N, 20000 - 8 < ppm_n N 0 20000 < 20000 + 512 /\
    (forall n, (N <= n)%nat -> ppm_n n 0 20000 = ppm_n N 0 20000) /\
    (forall n, Z.min 0 20000 <= ppm_n n 0 20000 <= Z.max 0 20000) /\
    (forall n, Z.abs (20000 - ppm_n (S n) 0 20000) <= Z.abs (20000 - ppm_n n 0 20000)).
Proof. apply (ppm_settles 0 20000); lia. Defined.

(* ================================================================= *)
(** ** The audio a track holds *)

Lemma script_bytes_read s len res s1 :
  0 <= len -> read_script s len = (res, s1) ->
  script_bytes s = match res with ReadBytes bs => bs | _ => [] end ++ script_bytes s1.
Proof.
  intros Hl. induction s as [|e s IH]; simpl.
  - intros [= <- <-]. reflexivity.
  - destruct e as [[|c cs]| |].
    + exact IH.
    + destruct (decide _); intros [= <- <-]; [reflexivity|].
      simpl script_bytes. rewrite app_assoc, take_drop. reflexivity.
    + intros [= <- <-]. reflexivity.
    + intros [= <- <-]. reflexivity.
Qed.

Section Stored.
Context `{C : track_consts}.
Hypothesis CK : consts_ok.

Lemma block_pcm_live w p :
  block_live w p -> Z.of_nat (length (block_pcm w p)) = TRACK_BLOCK_PCM_BYTES.
Proof. intros (blk & Hl & Hs & _). unfold block_pcm. rewrite Hl. exact Hs. Qed.

Lemma concat_pcm_length w l :
  Forall (block_live w) l ->
  Z.of_nat (length (concat (map (block_pcm w) l))) = Z.of_nat (length l) * TRACK_BLOCK_PCM_BYTES.
Proof.
  induction 1 as [|p l Hp _ IH]; simpl; [lia|].
  rewrite length_app, Nat2Z.inj_add, IH, (block_pcm_live _ _ Hp). lia.
Qed.

Lemma owned_length tr w : track_ok tr w -> Z.of_nat (length (owned_blocks tr)) = tr_blocks tr.
Proof.
  intros OK. pose proof (ok_blocks _ _ OK). pose proof (ok_array _ _ OK).
  unfold owned_blocks. rewrite length_take. lia.
Qed.

Lemma stored_length tr w :
  track_ok tr w -> Z.of_nat (length (stored_pcm tr w)) = tr_bytes tr.
Proof.
  intros OK. pose proof (ok_bytes _ _ OK).
  pose proof (concat_pcm_length w _ (ok_live _ _ OK)) as Hc.
  rewrite (owned_length tr w OK) in Hc.
  unfold stored_pcm. rewrite length_take. lia.
Qed.

Lemma map_block_pcm_ext w w' l :
  (forall p, p ∈ l -> w_heap w' !! p = w_heap w !! p) ->
  map (block_pcm w') l = map (block_pcm w) l.
Proof.
  intros H. apply map_ext_in. intros p Hp. unfold block_pcm. rewrite H; [reflexivity|].
  apply list_elem_of_In. exact Hp.
Qed.

(** A request for a region leaves the audio as it is. *)
Lemma stored_access tr w o tr' w' :
  track_ok tr w -> access_pcm_data tr w = Ret (o, tr', w') ->
  stored_pcm tr' w' = stored_pcm tr w.
Proof.
  intros OK H. pose proof (ok_bytes _ _ OK) as Hy. pose proof (ok_blocks _ _ OK) as Hb.
  pose proof (ok_array _ _ OK) as Ha.
  destruct (decide (tr_bytes tr < tr_blocks tr * TRACK_BLOCK_PCM_BYTES)) as [Hlt|Hge].
  - destruct (access_inside CK tr w OK Hlt) as (p & Hp & Hl & E). rewrite E in H.
    injection H as <- <- <-. reflexivity.
  - assert (tr_bytes tr = tr_blocks tr * TRACK_BLOCK_PCM_BYTES) as Heq by lia.
    destruct (decide (tr_blocks tr = TRACK_MAX_BLOCKS)) as [Hfull|Hnf].
    + rewrite (access_full CK tr w OK Heq Hfull) in H. injection H as <- <- <-. reflexivity.
    + rewrite (access_grow CK tr w OK Heq) in H by lia.
      destruct (malloc w) as [[p|] w1] eqn:Em.
      * destruct (malloc_some _ _ _ Em) as (g & ms & Hg & -> & ->).
        injection H as <- <- <-. unfold stored_pcm, owned_blocks. simpl.
        replace (Z.to_nat (tr_blocks tr + 1)) with (S (Z.to_nat (tr_blocks tr))) by lia.
        erewrite take_S_r by (apply list_lookup_insert_eq; lia).
        rewrite take_insert_ge by lia. fold (owned_blocks tr).
        rewrite map_app, concat_app.
        pose proof (concat_pcm_length w _ (ok_live _ _ OK)) as Hc.
        rewrite (owned_length tr w OK) in Hc.
        assert (map (block_pcm (set_malloc (set_heap w (w_heap w ++ [Some g])) ms))
                    (owned_blocks tr) = map (block_pcm w) (owned_blocks tr)) as ->.
        { apply map_block_pcm_ext. intros q Hq. simpl.
          pose proof (proj1 (Forall_forall _ _) (ok_live _ _ OK) _ Hq) as (b & Hl & _).
          apply lookup_app_l. apply lookup_lt_Some in Hl. exact Hl. }
        rewrite take_app_le by lia. reflexivity.
      * injection H as <- <- <-. destruct (malloc_none _ _ Em) as (Hh & _).
        unfold stored_pcm. f_equal. f_equal. apply map_block_pcm_ext.
        intros q _. rewrite Hh. reflexivity.
Qed.

Lemma meter_blk_pcm n : forall fill ppm ov blk ppm' ov' blk',
  meter_blk n fill ppm ov blk = Ret (ppm', ov', blk') -> blk_pcm blk' = blk_pcm blk.
Proof.
  induction n as [|n IH]; intros fill ppm ov blk ppm' ov' blk'; simpl.
  - intros [= <- <- <-]. reflexivity.
  - unfold meter_step.
    destruct (load_short _ _) as [l| |]; simpl; try discriminate.
    destruct (load_short _ _) as [r| |]; simpl; try discriminate.
    destruct (store_idx (blk_ppm blk) _ _) as [ppms| |]; simpl; try discriminate.
    destruct (store_idx (blk_overview blk) _ _) as [ovs| |]; simpl; try discriminate.
    intros H. apply IH in H. exact H.
Qed.

(** What one commit does to the world: the block of the region gets
    the bytes and its meter bytes, nothing else changes. *)
Lemma ingest_world tr w rg bs tr2 w2 :
  region_at tr w rg -> 0 < Z.of_nat (length bs) <= rg_len rg ->
  ingest tr rg bs w = Ret (tr2, w2) ->
  exists blk blk', w_heap w !! rg_block rg = Some (Some blk) /\ block_sized blk /\
    w2 = heap_store w (rg_block rg) blk' /\
    blk_pcm blk' = splice (Z.to_nat (rg_fill rg)) bs (blk_pcm blk) /\
    tr_bytes tr2 = tr_bytes tr + Z.of_nat (length bs) /\
    tr_blocks tr2 = tr_blocks tr /\ tr_block tr2 = tr_block tr /\
    meter_blk (Z.to_nat ((tr_bytes tr + Z.of_nat (length bs)) / 4 - tr_length tr))
              (tr_length tr mod TRACK_BLOCK_SAMPLES) (tr_ppm tr) (tr_overview tr)
              (with_pcm blk (splice (Z.to_nat (rg_fill rg)) bs (blk_pcm blk)))
      = Ret (tr_ppm tr2, tr_overview tr2, blk').
Proof.
  intros R Hm. pose proof R as (OK & Hlt & Hblk & (blk & Hp & Hsz) & Hfill & Hlen).
  rewrite (ingest_eq CK tr w rg bs blk R Hp Hsz Hm).
  destruct (meter_blk _ _ _ _ _) as [[[a b] blk']| |] eqn:Em; simpl; try discriminate.
  intros [= <- <-]. exists blk, blk'. split; [exact Hp|]. split; [exact Hsz|].
  split; [reflexivity|]. split; [exact (meter_blk_pcm _ _ _ _ _ _ _ _ Em)|].
  simpl. auto.
Qed.

(** A commit appends its bytes to the audio. *)
Lemma stored_ingest tr w rg bs tr2 w2 :
  region_at tr w rg -> 0 < Z.of_nat (length bs) <= rg_len rg ->
  ingest tr rg bs w = Ret (tr2, w2) ->
  stored_pcm tr2 w2 = stored_pcm tr w ++ bs.
Proof.
  intros R Hm Hi. pose proof R as (OK & Hlt & Hblk & _ & Hfill & Hlen).
  destruct (ingest_world _ _ _ _ _ _ R Hm Hi)
    as (blk & blk' & Hp & Hsz & -> & Hpcm & Hb2 & Hn2 & Ha2 & _).
  pose proof (ok_bytes _ _ OK) as Hy. pose proof (ok_blocks _ _ OK) as Hbl.
  pose proof (ok_array _ _ OK) as Harr. pose proof (block_bytes_pos CK) as HB.
  assert (TRACK_BLOCK_PCM_BYTES <> 0) as HB0 by lia.
  pose proof (Z.div_mod (tr_bytes tr) TRACK_BLOCK_PCM_BYTES HB0) as Hdm.
  pose proof (Z.mod_pos_bound (tr_bytes tr) TRACK_BLOCK_PCM_BYTES HB) as Hr.
  set (k := tr_bytes tr / TRACK_BLOCK_PCM_BYTES) in *.
  set (r := tr_bytes tr mod TRACK_BLOCK_PCM_BYTES) in *.
  assert (0 <= k < tr_blocks tr) as Hk.
  { split; [apply Z.div_pos; lia|]. apply Z.div_lt_upper_bound; lia. }
  assert (owned_blocks tr !! Z.to_nat k = Some (rg_block rg)) as Hown.
  { unfold owned_blocks. rewrite lookup_take_lt by lia. exact Hblk. }
  assert (owned_blocks tr2 = owned_blocks tr) as Eown
    by (unfold owned_blocks; rewrite Hn2, Ha2; reflexivity).
  pose proof (take_drop_middle _ _ _ Hown) as Hsplit.
  set (l1 := take (Z.to_nat k) (owned_blocks tr)) in *.
  set (l2 := drop (S (Z.to_nat k)) (owned_blocks tr)) in *.
  pose proof (ok_nodup _ _ OK) as Hnd. rewrite <- Hsplit in Hnd.
  apply NoDup_app in Hnd as (_ & Hnd1 & Hnd2). apply NoDup_cons in Hnd2 as (Hnd2 & _).
  pose proof (ok_live _ _ OK) as Hlive. rewrite <- Hsplit in Hlive.
  apply Forall_app in Hlive as (Hlive1 & Hlive2).
  assert (Z.of_nat (length l1) = k) as Hl1.
  { unfold l1. rewrite length_take. pose proof (owned_length tr w OK). lia. }
  pose proof (concat_pcm_length w l1 Hlive1) as Hc1. rewrite Hl1 in Hc1.
  assert (forall l, rg_block rg ∉ l ->
            map (block_pcm (heap_store w (rg_block rg) blk')) l = map (block_pcm w) l) as Hext.
  { intros l Hnot. apply map_block_pcm_ext. intros q Hq. unfold heap_store. simpl.
    apply list_lookup_insert_ne. intros <-. contradiction. }
  assert (block_pcm w (rg_block rg) = blk_pcm blk) as Epcm
    by (unfold block_pcm; rewrite Hp; reflexivity).
  assert (block_pcm (heap_store w (rg_block rg) blk') (rg_block rg) = blk_pcm blk') as Epcm'.
  { unfold block_pcm. rewrite (heap_store_lookup _ _ _ _ Hp). reflexivity. }
  destruct Hsz as (Hpl & _).
  unfold stored_pcm. rewrite Eown, <- Hsplit, !map_app, !concat_app. simpl map. simpl concat.
  rewrite (Hext l1) by (intros Hin; apply (Hnd1 _ Hin); left).
  rewrite (Hext l2) by exact Hnd2.
  rewrite Epcm, Epcm', Hpcm, Hb2.
  set (A := concat (map (block_pcm w) l1)) in *.
  rewrite Hlen in Hm. fold r in Hm, Hfill.
  replace (Z.to_nat (tr_bytes tr + Z.of_nat (length bs)))
    with (length A + (Z.to_nat r + length bs))%nat by lia.
  replace (Z.to_nat (tr_bytes tr)) with (length A + Z.to_nat r)%nat by lia.
  rewrite !take_app_add. rewrite <- app_assoc. f_equal.
  rewrite Hfill.
  rewrite take_app_le by (rewrite splice_length; lia).
  rewrite take_app_le by lia.
  apply splice_take. lia.
Qed.

(** The loop of [read_from_pipe], as an invariant rule: what holds of
    the track, the world and the script before, holds after, when every
    request for a region and every read keep it. *)
Lemma read_loop_invariant (P : track_t -> world -> list pipe_event -> Prop) :
  (forall tr w s o tr' w',
     track_ok tr w -> P tr w s -> access_pcm_data tr w = Ret (o, tr', w') -> P tr' w' s) ->
  (forall tr w s rg res s1,
     region_at tr w rg -> P tr w s -> read_script s (rg_len rg) = (res, s1) ->
     match res with
     | ReadBytes (b :: bs) =>
         forall tr2 w2, ingest tr rg (b :: bs) w = Ret (tr2, w2) -> P tr2 w2 s1
     | _ => P tr w s1
     end) ->
  forall s tr w r tr' w' s',
    track_ok tr w -> P tr w s -> read_loop s tr w = Ret (r, tr', w', s') -> P tr' w' s'.
Proof.
  intros Hacc Hread. induction s as [s IH] using script_size_ind.
  intros tr w r tr' w' s' OK HP. rewrite read_loop_step.
  destruct (access_ret CK tr w OK) as (o & tr1 & w1 & Ha). rewrite Ha. simpl.
  pose proof (access_ok CK _ _ _ _ _ OK Ha) as OK1.
  pose proof (Hacc _ _ _ _ _ _ OK HP Ha) as HP1.
  destruct o as [rg|]; [|intros [= <- <- <- <-]; exact HP1].
  destruct (access_region_at CK _ _ _ _ _ OK Ha) as (R & _).
  destruct (read_script s (rg_len rg)) as [[[|b bs]| |] s1] eqn:Er;
    pose proof (Hread _ _ _ _ _ _ R HP1 Er) as Hrd; simpl in Hrd;
    try (intros [= <- <- <- <-]; exact Hrd).
  pose proof (region_len_pos CK _ _ _ R) as Hpos.
  assert (0 <= rg_len rg) as Hnn by lia.
  pose proof (read_script_length _ _ _ _ Hnn Er) as Hlen.
  destruct (ingest_ret CK tr1 w1 rg (b :: bs) R) as (tr2 & w2 & Hi & OK2 & _);
    [simpl in *; lia|].
  rewrite Hi. simpl. intros Hl.
  exact (IH s1 (read_script_consumes _ _ _ _ _ Er) tr2 w2 r tr' w' s' OK2 (Hrd _ _ Hi) Hl).
Qed.

Lemma script_bytes_data cs : script_bytes (map Data cs) = concat cs.
Proof. induction cs as [|c cs IH]; simpl; [reflexivity|]. rewrite IH. reflexivity. Qed.

(** No byte is lost, repeated or moved by the loop. *)
Lemma read_loop_stored s tr w r tr' w' s' :
  track_ok tr w -> read_loop s tr w = Ret (r, tr', w', s') ->
  stored_pcm tr' w' ++ script_bytes s' = stored_pcm tr w ++ script_bytes s.
Proof.
  intros OK Hl. set (K := stored_pcm tr w ++ script_bytes s).
  apply (read_loop_invariant (fun tr w s => stored_pcm tr w ++ script_bytes s = K))
    with (s := s) (tr := tr) (w := w) (r := r); [| |exact OK|reflexivity|exact Hl].
  - intros tr0 w0 s0 o tr1 w1 OK0 HP Ha. rewrite (stored_access _ _ _ _ _ OK0 Ha). exact HP.
  - intros tr0 w0 s0 rg res s1 R HP Er.
    pose proof (region_len_pos CK _ _ _ R) as Hpos.
    assert (0 <= rg_len rg) as Hnn by lia.
    pose proof (script_bytes_read _ _ _ _ Hnn Er) as Hsb.
    destruct res as [[|b bs]| |]; try (simpl in Hsb; rewrite <- Hsb; exact HP).
    intros tr2 w2 Hi. pose proof (read_script_length _ _ _ _ Hnn Er) as Hlen.
    assert (0 < Z.of_nat (length (b :: bs)) <= rg_len rg) as Hm by (simpl in *; lia).
    rewrite (stored_ingest _ _ _ _ _ _ R Hm Hi).
    rewrite <- app_assoc. rewrite <- Hsb. exact HP.
Qed.

(** While the track is not full and malloc gives blocks, a region is
    given. *)
Lemma access_granted tr w :
  track_ok tr w -> malloc_grants w (TRACK_MAX_BLOCKS - tr_blocks tr) ->
  tr_bytes tr < TRACK_MAX_BLOCKS * TRACK_BLOCK_PCM_BYTES ->
  exists rg tr1 w1, access_pcm_data tr w = Ret (Some rg, tr1, w1) /\
    malloc_grants w1 (TRACK_MAX_BLOCKS - tr_blocks tr1).
Proof.
  intros OK HG Hroom. pose proof (ok_bytes _ _ OK) as Hy. pose proof (ok_blocks _ _ OK) as Hb.
  pose proof (block_bytes_pos CK) as HB.
  destruct (decide (tr_bytes tr < tr_blocks tr * TRACK_BLOCK_PCM_BYTES)) as [Hlt|Hge].
  - destruct (access_inside CK tr w OK Hlt) as (p & Hp & Hl & E). rewrite E.
    do 3 eexists. split; [reflexivity|exact HG].
  - assert (tr_bytes tr = tr_blocks tr * TRACK_BLOCK_PCM_BYTES) as Heq by lia.
    assert (tr_blocks tr < TRACK_MAX_BLOCKS) as Hnf by nia.
    rewrite (access_grow CK tr w OK Heq Hnf).
    destruct (HG 0 ltac:(lia)) as (g & Hg). unfold malloc.
    destruct (w_malloc w) as [|o ms] eqn:Em; [discriminate|].
    simpl in Hg. injection Hg as ->.
    do 3 eexists. split; [reflexivity|]. simpl. intros i Hi.
    destruct (HG (i + 1) ltac:(lia)) as (g' & Hg'). exists g'.
    rewrite Em in Hg'. replace (Z.to_nat (i + 1)) with (S (Z.to_nat i)) in Hg' by lia.
    exact Hg'.
Qed.

(** A child that writes the chunks [cs] and exits: the loop ends at
    end of file, or before when the track is full. *)
Lemma read_loop_stream s : forall cs tr w,
  s = map Data cs ->
  track_ok tr w -> malloc_grants w (TRACK_MAX_BLOCKS - tr_blocks tr) ->
  exists r tr' w' s', read_loop s tr w = Ret (r, tr', w', s') /\
    (tr_bytes tr + Z.of_nat (length (concat cs)) < TRACK_MAX_BLOCKS * TRACK_BLOCK_PCM_BYTES ->
       r = 1 /\ s' = []) /\
    (TRACK_MAX_BLOCKS * TRACK_BLOCK_PCM_BYTES <= tr_bytes tr + Z.of_nat (length (concat cs)) ->
       r = -1 /\ tr_bytes tr' = TRACK_MAX_BLOCKS * TRACK_BLOCK_PCM_BYTES).
Proof.
  induction s as [s IH] using script_size_ind. intros cs tr w -> OK HG.
  pose proof (ok_bytes _ _ OK) as Hy. pose proof (ok_blocks _ _ OK) as Hb.
  pose proof (block_bytes_pos CK) as HB.
  destruct (decide (tr_bytes tr < TRACK_MAX_BLOCKS * TRACK_BLOCK_PCM_BYTES)) as [Hroom|Hfull].
  2:{ assert (tr_blocks tr = TRACK_MAX_BLOCKS) as E1 by nia.
      assert (tr_bytes tr = tr_blocks tr * TRACK_BLOCK_PCM_BYTES) as E2 by nia.
      rewrite read_loop_step, (access_full CK tr w OK E2 E1). simpl.
      do 4 eexists. split; [reflexivity|]. split; [lia|]. intros _. split; [reflexivity|lia]. }
  destruct (access_granted tr w OK HG Hroom) as (rg & tr1 & w1 & Ha & HG1).
  destruct (access_region_at CK _ _ _ _ _ OK Ha) as (R & _).
  destruct (access_same_import _ _ _ _ _ Ha) as (_ & Hb1 & _).
  pose proof (region_len_pos CK _ _ _ R) as Hpos.
  destruct cs as [|a cs].
  - rewrite read_loop_step, Ha. simpl.
    do 4 eexists. split; [reflexivity|]. split; [auto|]. simpl. lia.
  - destruct (decide (a = [])) as [->|Hne].
    { change (map Data ([] :: cs)) with (Data [] :: map Data cs).
      assert (read_loop (Data [] :: map Data cs) tr w = read_loop (map Data cs) tr w) as ->
        by (rewrite (read_loop_step (Data [] :: map Data cs) tr w),
              (read_loop_step (map Data cs) tr w), Ha; reflexivity).
      assert (script_size (map Data cs) < script_size (Data [] :: map Data cs))%nat as Hsz
        by (simpl; lia).
      exact (IH (map Data cs) Hsz cs tr w eq_refl OK HG). }
    change (map Data (a :: cs)) with (Data a :: map Data cs).
    rewrite (read_loop_data tr w rg tr1 w1 a (map Data cs) Ha Hne Hpos).
    simpl concat. rewrite length_app, Nat2Z.inj_add.
    destruct (decide (Z.of_nat (length a) <= rg_len rg)) as [Hle|Hgt].
    + destruct (ingest_ret CK tr1 w1 rg a R)
        as (tr2 & w2 & -> & OK2 & Hb2 & _ & Hn2 & _ & _ & _ & _ & _ & _ & _ & _ & Hm2);
        [destruct a; [congruence|simpl in *; lia]|].
      simpl.
      assert (script_size (map Data cs) < script_size (Data a :: map Data cs))%nat as Hsz
        by (simpl; lia).
      destruct (IH (map Data cs) Hsz cs tr2 w2 eq_refl OK2)
        as (r & tr' & w' & s' & Hl & H1 & H2).
      { unfold malloc_grants. rewrite Hm2, Hn2. exact HG1. }
      exists r, tr', w', s'. split; [exact Hl|]. rewrite Hb2, Hb1 in H1, H2.
      split; intros H; [apply H1|apply H2]; lia.
    + destruct (ingest_ret CK tr1 w1 rg (take (Z.to_nat (rg_len rg)) a) R)
        as (tr2 & w2 & -> & OK2 & Hb2 & _ & Hn2 & _ & _ & _ & _ & _ & _ & _ & _ & Hm2);
        [rewrite length_take; lia|].
      simpl.
      assert (0 < Z.to_nat (rg_len rg))%nat as Hk by lia.
      destruct (IH (Data (drop (Z.to_nat (rg_len rg)) a) :: map Data cs)
                  (script_size_data_drop a _ _ Hne Hk)
                  (drop (Z.to_nat (rg_len rg)) a :: cs) tr2 w2 eq_refl OK2)
        as (r & tr' & w' & s' & Hl & H1 & H2).
      { unfold malloc_grants. rewrite Hm2, Hn2. exact HG1. }
      exists r, tr', w', s'. split; [exact Hl|]. rewrite Hb2, Hb1 in H1, H2.
      simpl concat in H1, H2. rewrite length_app, Nat2Z.inj_add, length_drop in H1, H2.
      rewrite length_take in H1, H2.
      split; intros H; [apply H1|apply H2]; lia.
Qed.





End Stored.

Lemma demo_grants : malloc_grants demo_world (@TRACK_MAX_BLOCKS demo_consts - tr_blocks demo_track).
Proof.
  intros i Hi. change (0 <= i < 2) in Hi.
  assert (i = 0 \/ i = 1) as [-> | ->] by lia; eexists; reflexivity.
Qed.

Section StoredClaims.
Context `{C : track_consts}.

(** X5. From every reachable state and on every script, the loop of
    [read_from_pipe] returns, and no byte is lost, repeated or
    reordered: the audio the track holds followed by the bytes left in
    the pipe is the same before and after.  The audio held is [tr_bytes]
    bytes long. *)
Theorem read_loop_conserves_bytes (tr : track_t) (w : world) (s : list pipe_event) :
  consts_ok -> reachable tr w ->
  exists r tr' w' s', read_loop s tr w = Ret (r, tr', w', s') /\
    stored_pcm tr' w' ++ script_bytes s' = stored_pcm tr w ++ script_bytes s /\
    Z.of_nat (length (stored_pcm tr w)) = tr_bytes tr /\
    Z.of_nat (length (stored_pcm tr' w')) = tr_bytes tr'.
Proof.
  intros CK Hr. pose proof (reachable_ok CK _ _ Hr) as OK.
  destruct (read_loop_ret CK s tr w OK) as (r & tr' & w' & s' & Hl & OK' & _).
  exists r, tr', w', s'. split; [exact Hl|].
  split; [exact (read_loop_stored CK _ _ _ _ _ _ _ OK Hl)|].
  split; apply stored_length; assumption.
Qed.

(** X6. A child that writes the chunks [cs] and exits, while malloc
    gives blocks and the bytes fit the track strictly: the loop returns
    1 with the pipe empty, the track holds its former audio followed by
    the bytes written, [tr_bytes] has grown by their number and
    [tr_length] counts the whole samples; the bytes of a partial last
    sample are kept but not counted. *)
Theorem read_loop_to_eof (tr : track_t) (w : world) (cs : list (list byte)) :
  consts_ok -> reachable tr w ->
  malloc_grants w (TRACK_MAX_BLOCKS - tr_blocks tr) ->
  tr_bytes tr + Z.of_nat (length (concat cs)) < TRACK_MAX_BLOCKS * TRACK_BLOCK_PCM_BYTES ->
  exists tr' w', read_loop (map Data cs) tr w = Ret (1, tr', w', []) /\
    stored_pcm tr' w' = stored_pcm tr w ++ concat cs /\
    tr_bytes tr' = tr_bytes tr + Z.of_nat (length (concat cs)) /\
    tr_length tr' = tr_bytes tr' / 4.
Proof.
  intros CK Hr HG Hroom. pose proof (reachable_ok CK _ _ Hr) as OK.
  destruct (read_loop_stream CK (map Data cs) cs tr w eq_refl OK HG)
    as (r & tr' & w' & s' & Hl & H1 & _).
  destruct (H1 Hroom) as (-> & ->).
  destruct (read_loop_ret CK (map Data cs) tr w OK) as (r & tr2 & w2 & s2 & Hl2 & OK' & _).
  rewrite Hl in Hl2. injection Hl2 as <- <- <- <-.
  pose proof (read_loop_stored CK _ _ _ _ _ _ _ OK Hl) as Hs.
  simpl in Hs. rewrite app_nil_r, script_bytes_data in Hs.
  exists tr', w'. split; [exact Hl|]. split; [exact Hs|].
  pose proof (stored_length _ _ OK') as L1. pose proof (stored_length _ _ OK) as L0.
  rewrite Hs, length_app in L1. split; [lia|].
  apply (track_bytes_length _ _ OK').
Qed.

(** X7. The same child when its bytes reach or pass the capacity of
    [TRACK_MAX_BLOCKS] blocks: the loop returns -1 with the track
    exactly full, the bytes that fit stored and the others left in the
    pipe.  This is also what happens when the bytes fill the track
    exactly: end of file is not seen, since a region is asked for before
    each read. *)
Theorem read_loop_track_full (tr : track_t) (w : world) (cs : list (list byte)) :
  consts_ok -> reachable tr w ->
  malloc_grants w (TRACK_MAX_BLOCKS - tr_blocks tr) ->
  TRACK_MAX_BLOCKS * TRACK_BLOCK_PCM_BYTES <= tr_bytes tr + Z.of_nat (length (concat cs)) ->
  let room := Z.to_nat (TRACK_MAX_BLOCKS * TRACK_BLOCK_PCM_BYTES - tr_bytes tr) in
  exists tr' w' s', read_loop (map Data cs) tr w = Ret (-1, tr', w', s') /\
    tr_bytes tr' = TRACK_MAX_BLOCKS * TRACK_BLOCK_PCM_BYTES /\
    tr_length tr' = TRACK_MAX_BLOCKS * TRACK_BLOCK_SAMPLES /\
    stored_pcm tr' w' = stored_pcm tr w ++ take room (concat cs) /\
    script_bytes s' = drop room (concat cs).
Proof.
  intros CK Hr HG Hfull room. pose proof (reachable_ok CK _ _ Hr) as OK.
  destruct (read_loop_stream CK (map Data cs) cs tr w eq_refl OK HG)
    as (r & tr' & w' & s' & Hl & _ & H2).
  destruct (H2 Hfull) as (-> & Hb).
  destruct (read_loop_ret CK (map Data cs) tr w OK) as (r & tr2 & w2 & s2 & Hl2 & OK' & _).
  rewrite Hl in Hl2. injection Hl2 as <- <- <- <-.
  pose proof (read_loop_stored CK _ _ _ _ _ _ _ OK Hl) as Hs.
  rewrite script_bytes_data in Hs.
  pose proof (stored_length _ _ OK') as L1. pose proof (stored_length _ _ OK) as L0.
  pose proof (ok_bytes _ _ OK) as Hy.
  exists tr', w', s'. split; [exact Hl|]. split; [exact Hb|]. split.
  - rewrite (track_bytes_length _ _ OK'), Hb, (block_bytes_eq).
    replace (TRACK_MAX_BLOCKS * (TRACK_BLOCK_SAMPLES * 4))
      with (TRACK_MAX_BLOCKS * TRACK_BLOCK_SAMPLES * 4) by ring.
    apply Z.div_mul. lia.
  - pose proof (ok_blocks _ _ OK) as Hbl. pose proof (block_bytes_pos CK) as HB.
    assert (tr_bytes tr <= TRACK_MAX_BLOCKS * TRACK_BLOCK_PCM_BYTES) as Hcap by nia.
    assert (length (stored_pcm tr' w') = (length (stored_pcm tr w) + room)%nat) as HL
      by (unfold room; lia).
    pose proof (f_equal (take (length (stored_pcm tr' w'))) Hs) as Ht.
    rewrite take_app_length in Ht. rewrite HL, take_app_add in Ht.
    pose proof (f_equal (drop (length (stored_pcm tr' w'))) Hs) as Hd.
    rewrite drop_app_length in Hd. rewrite HL, drop_app_add in Hd.
    split; assumption.
Qed.


End StoredClaims.

(* ================================================================= *)
(** ** The meter bytes of a block *)

Section MeterBytes.
Context `{C : track_consts}.
Hypothesis CK : consts_ok.

Lemma store_idx_before {A} (l l' : list A) i a j :
  store_idx l i a = Ret l' -> Z.of_nat j < i -> l' !! j = l !! j.
Proof.
  unfold store_idx. destruct (decide _); [|discriminate]. intros [= <-] Hj.
  apply list_lookup_insert_ne. lia.
Qed.

(** The turns from sample [fill] on leave the meter bytes of the
    buckets before the one of [fill] as they are. *)
Lemma meter_blk_before n : forall fill ppm ov blk ppm' ov' blk',
  0 <= fill -> fill + Z.of_nat n < 2 ^ 32 ->
  meter_blk n fill ppm ov blk = Ret (ppm', ov', blk') ->
  (forall j, Z.of_nat j < fill / TRACK_PPM_RES -> blk_ppm blk' !! j = blk_ppm blk !! j) /\
  (forall j, Z.of_nat j < fill / TRACK_OVERVIEW_RES ->
     blk_overview blk' !! j = blk_overview blk !! j).
Proof.
  pose proof (ck_ppm CK) as Hp. pose proof (ck_overview CK) as Ho.
  induction n as [|n IH]; intros fill ppm ov blk ppm' ov' blk' Hf Hn; simpl.
  - intros [= <- <- <-]. auto.
  - unfold meter_step.
    destruct (load_short _ _) as [l| |]; simpl; try discriminate.
    destruct (load_short _ _) as [r| |]; simpl; try discriminate.
    destruct (store_idx (blk_ppm blk) _ _) as [ppms| |] eqn:E1; simpl; try discriminate.
    destruct (store_idx (blk_overview blk) _ _) as [ovs| |] eqn:E2; simpl; try discriminate.
    rewrite uint_small by lia. intros H.
    apply IH in H; [|lia|lia]. simpl in H. destruct H as (H1 & H2).
    assert (fill / TRACK_PPM_RES <= (fill + 1) / TRACK_PPM_RES) by (apply Z.div_le_mono; lia).
    assert (fill / TRACK_OVERVIEW_RES <= (fill + 1) / TRACK_OVERVIEW_RES)
      by (apply Z.div_le_mono; lia).
    split; intros j Hj.
    + rewrite H1 by lia. exact (store_idx_before _ _ _ _ _ E1 Hj).
    + rewrite H2 by lia. exact (store_idx_before _ _ _ _ _ E2 Hj).
Qed.

End MeterBytes.

Section AppendOnly.
Context `{C : track_consts}.

(** X9. A commit into the region just returned succeeds and changes
    no other block; in the block of the region the bytes before the
    offset of the region and those after the bytes written, and the
    meter bytes of the buckets before the one of the first new sample,
    are left as they were. *)
Theorem ingest_append_only (tr0 : track_t) (w0 : world) rg tr w (bs : list byte) :
  consts_ok -> reachable tr0 w0 ->
  access_pcm_data tr0 w0 = Ret (Some rg, tr, w) ->
  0 < Z.of_nat (length bs) <= rg_len rg ->
  exists tr2 w2, ingest tr rg bs w = Ret (tr2, w2) /\
  (forall q, q ≠ rg_block rg -> w_heap w2 !! q = w_heap w !! q) /\
  exists blk blk',
    w_heap w !! rg_block rg = Some (Some blk) /\
    w_heap w2 !! rg_block rg = Some (Some blk') /\
    take (Z.to_nat (rg_fill rg)) (blk_pcm blk') = take (Z.to_nat (rg_fill rg)) (blk_pcm blk) /\
    drop (Z.to_nat (rg_fill rg) + length bs) (blk_pcm blk')
      = drop (Z.to_nat (rg_fill rg) + length bs) (blk_pcm blk) /\
    (forall j, Z.of_nat j < (tr_length tr mod TRACK_BLOCK_SAMPLES) / TRACK_PPM_RES ->
       blk_ppm blk' !! j = blk_ppm blk !! j) /\
    (forall j, Z.of_nat j < (tr_length tr mod TRACK_BLOCK_SAMPLES) / TRACK_OVERVIEW_RES ->
       blk_overview blk' !! j = blk_overview blk !! j).
Proof.
  intros CK Hr Ha Hm. pose proof (reachable_ok CK _ _ Hr) as OK0.
  destruct (access_region_at CK _ _ _ _ _ OK0 Ha) as (R & _).
  destruct (ingest_ret CK tr w rg bs R Hm) as (tr2 & w2 & Hi & _).
  exists tr2, w2. split; [exact Hi|].
  pose proof R as (OK & Hlt & Hblk & _ & Hfill & Hlen).
  destruct (ingest_world CK _ _ _ _ _ _ R Hm Hi)
    as (blk & blk' & Hp & Hsz & -> & Hpcm & Hb2 & Hn2 & Ha2 & Hmb).
  pose proof (ok_bytes _ _ OK) as Hy. pose proof (ok_length _ _ OK) as HL.
  change SAMPLE with 4 in HL. pose proof (block_bytes_pos CK) as HB.
  pose proof (Z.mod_pos_bound (tr_bytes tr) TRACK_BLOCK_PCM_BYTES HB) as Hrm.
  pose proof (block_bytes_small CK) as HS. rewrite block_bytes_eq in HS.
  rewrite Hlen in Hm.
  destruct (commit_arith CK (tr_bytes tr) (tr_length tr) (Z.of_nat (length bs)))
    as (_ & Hf & Hn0 & Hn1 & _); [lia|lia|lia|].
  split.
  - intros q Hq. unfold heap_store. simpl. apply list_lookup_insert_ne. congruence.
  - exists blk, blk'. split; [exact Hp|]. split; [exact (heap_store_lookup _ _ _ _ Hp)|].
    destruct Hsz as (Hpl & _).
    assert (Z.to_nat (rg_fill rg) + length bs <= length (blk_pcm blk))%nat as Hfit
      by (rewrite Hfill; lia).
    split; [|split].
    + rewrite Hpcm. unfold splice. rewrite take_app_le by (rewrite length_take; lia).
      rewrite take_take. f_equal. lia.
    + rewrite Hpcm. unfold splice. rewrite app_assoc.
      rewrite drop_app_length'; [reflexivity|]. rewrite length_app, length_take. lia.
    + apply (meter_blk_before CK) in Hmb; [exact Hmb|lia|lia].
Qed.

End AppendOnly.

(* ================================================================= *)
(** ** The importer process *)

Section Importer.
Context `{C : track_consts}.

Lemma stop_import_spec tr w :
  import_ok tr w -> tr_pid tr ≠ 0 ->
  stop_import tr w =
    Ret (set_pid tr 0,
         set_children (set_fds w (delete (tr_fd tr) (w_fds w)))
                      (w_children w ∖ {[ tr_pid tr ]})).
Proof.
  intros Hi Hp. destruct (Hi Hp) as (Hpos & Hc & s & Hfd).
  unfold stop_import, close, waitpid.
  destruct (decide (tr_pid tr = 0)); [contradiction|].
  rewrite Hfd. destruct (decide (0 ≠ 0)); [lia|]. simpl.
  destruct (decide (0 < tr_pid tr)); [|lia].
  destruct (decide (tr_pid tr ∈ w_children w)); [|contradiction].
  destruct (decide (tr_pid tr = -1)); [lia|]. reflexivity.
Qed.

Lemma read_from_pipe_import_ok (CK : consts_ok) tr w r tr' w' :
  track_ok tr w -> import_ok tr w -> tr_pid tr ≠ 0 ->
  read_from_pipe tr w = Ret (r, tr', w') -> import_ok tr' w' /\ tr_pid tr' = tr_pid tr.
Proof.
  intros OK Hi Hp. destruct (Hi Hp) as (Hpos & Hc & s & Hfd).
  unfold read_from_pipe. rewrite Hfd.
  destruct (read_loop_ret CK s tr w OK) as (r1 & tr1 & w1 & s1 & -> & _ & _ & Hs & _).
  simpl. intros [= <- <- <-]. destruct Hs as (E1 & E2 & _ & _ & E5 & _).
  split; [|exact E1]. intros _. rewrite E1, E2. simpl. rewrite E5.
  split; [exact Hpos|]. split; [exact Hc|]. exists s1. apply lookup_insert_eq.
Qed.

(** X10. In a well-formed state whose import, if any, has its child
    and its pipe, and whose poll entry, if set, exists, [track_handle]
    returns 0: no abort and no access outside a block.  The state stays
    well formed, [tr_length] does not decrease, and either the import
    goes on, or the track is idle with the descriptor closed and the
    child reaped. *)
Theorem track_handle_safe (tr : track_t) (w : world) :
  consts_ok -> track_ok tr w -> import_ok tr w ->
  (forall pe, tr_pe tr = Some pe -> is_Some (w_pollfds w !! pe)) ->
  exists tr' w', track_handle tr w = Ret (0, tr', w') /\
    track_ok tr' w' /\ import_ok tr' w' /\
    tr_length tr <= tr_length tr' /\
    tr_pe tr' = tr_pe tr /\ w_pollfds w' = w_pollfds w /\
    (tr_pid tr' = tr_pid tr \/
     tr_pid tr' = 0 /\ w_fds w' !! tr_fd tr = None /\ tr_pid tr ∉ w_children w').
Proof.
  intros CK OK Hi Hpe.
  assert (exists tr' w', track_handle tr w = Ret (0, tr', w') /\
            import_ok tr' w' /\ tr_length tr <= tr_length tr' /\
            tr_pe tr' = tr_pe tr /\ w_pollfds w' = w_pollfds w /\
            (tr_pid tr' = tr_pid tr \/
             tr_pid tr' = 0 /\ w_fds w' !! tr_fd tr = None /\ tr_pid tr ∉ w_children w'))
    as (tr' & w' & Hh & Hrest).
  { unfold track_handle.
    destruct (tr_pe tr) as [pe|] eqn:Epe.
    2:{ exists tr, w. rewrite Epe. auto 10 with lia. }
    destruct (Hpe pe eq_refl) as (e & ->).
    destruct (decide (pfd_revents e = 0)); [exists tr, w; rewrite Epe; auto 10 with lia|].
    destruct (decide (tr_pid tr ≠ 0)) as [Hp|Hp]; [|exists tr, w; rewrite Epe; auto 10 with lia].
    destruct (read_from_pipe_ret CK tr w OK)
      as (r & tr1 & w1 & Hrd & OK1 & _ & Hp1 & Hf1 & Hpe1 & Hc1 & Hpo1 & _ & HL1).
    destruct (read_from_pipe_import_ok CK _ _ _ _ _ OK Hi Hp Hrd) as (Hi1 & _).
    rewrite Hrd. simpl.
    destruct (decide (r ≠ 0)).
    - rewrite (stop_import_spec tr1 w1 Hi1) by congruence. simpl.
      do 2 eexists. split; [reflexivity|]. simpl.
      split; [intros Hne; contradiction|]. split; [exact HL1|].
      split; [congruence|]. split; [exact Hpo1|]. right. split; [reflexivity|].
      rewrite <- Hf1, <- Hp1. split; [apply lookup_delete_eq|].
      intros Hin. apply elem_of_difference in Hin as [_ Hn]. apply Hn.
      apply elem_of_singleton. reflexivity.
    - exists tr1, w1. split; [reflexivity|]. split; [exact Hi1|]. split; [exact HL1|].
      split; [congruence|]. split; [exact Hpo1|]. left. exact Hp1. }
  exists tr', w'. split; [exact Hh|]. split; [|exact Hrest].
  exact (track_handle_ok CK _ _ _ _ _ OK Hh).
Qed.


(** X12. [track_import] on an importing track when pipe() or fcntl()
    fails: it returns -1 after having aborted the running import; the
    track is idle ([tr_pid = 0]) with its counters and blocks as they
    were, the old child is reaped, and the rig is not awakened.  When it
    is pipe() that fails, closing the old descriptor is the only change
    of the descriptors. *)
Theorem track_import_failed_start (tr : track_t) (path : string)
    (sc : spawn_calls) (w : world) :
  import_ok tr w -> tr_pid tr ≠ 0 ->
  sc_pipe sc = None \/ sc_fcntl sc = false ->
  exists w', track_import tr path sc w = Ret (-1, set_pid tr 0, w') /\
    (tr_pid tr ∉ w_children w') /\
    w_children w' = w_children w ∖ {[ tr_pid tr ]} /\
    w_heap w' = w_heap w /\ w_awakened w' = w_awakened w /\
    (sc_pipe sc = None -> w_fds w' = delete (tr_fd tr) (w_fds w)).
Proof.
  intros Hi Hp Hsc. unfold track_import.
  destruct (decide (tr_pid tr ≠ 0)); [|contradiction].
  rewrite (abort_import_spec tr w Hi Hp). simpl.
  assert (forall X : gset Z, tr_pid tr ∉ X ∖ {[ tr_pid tr ]}) as Hnot.
  { intros X Hin. apply elem_of_difference in Hin as [_ Hn]. apply Hn.
    apply elem_of_singleton. reflexivity. }
  unfold start_import. destruct (sc_pipe sc) as [[rd wr]|] eqn:Epipe.
  - destruct Hsc as [Hsc|Hsc]; [discriminate|]. rewrite Hsc. simpl.
    destruct (decide (-1 < 0)); [|lia].
    eexists. split; [reflexivity|]. simpl. split; [apply Hnot|].
    repeat (split; [reflexivity|]). discriminate.
  - simpl. destruct (decide (-1 < 0)); [|lia].
    eexists. split; [reflexivity|]. simpl. split; [apply Hnot|].
    repeat (split; [reflexivity|]). reflexivity.
Qed.

(** X13. [start_import] with fresh descriptors and a new child,
    followed by [stop_import]: in between, only the read end of the pipe
    is open and the child is recorded; afterwards the world is the one
    before, no descriptor and no child is left. *)
Theorem start_stop_round_trip (tr : track_t) (path : string) (w : world) rd wr pid out :
  rd ≠ wr -> 0 < pid ->
  w_fds w !! rd = None -> w_fds w !! wr = None -> pid ∉ w_children w ->
  let sc := {| sc_pipe := Some (rd, wr); sc_fcntl := true; sc_vfork := Some (pid, out) |} in
  exists tr1 w1,
    start_import tr path sc w = Ret (0, tr1, w1) /\
    w_fds w1 = <[rd := PipeRead out]> (w_fds w) /\
    w_children w1 = {[ pid ]} ∪ w_children w /\
    stop_import tr1 w1 = Ret (set_pid tr1 0, w).
Proof.
  intros Hne Hpid Hrd Hwr Hch sc. unfold start_import, close. simpl.
  destruct (decide (pid = 0)); [lia|].
  rewrite lookup_insert_ne by congruence. rewrite lookup_insert_eq.
  destruct (decide (0 ≠ 0)); [lia|].
  assert (delete wr (<[rd:=PipeRead out]> (<[wr:=PipeWrite]> (<[rd:=PipeRead []]> (w_fds w))))
          = <[rd := PipeRead out]> (w_fds w)) as Efd.
  { rewrite delete_insert_ne by congruence. rewrite delete_insert_eq.
    rewrite delete_insert_ne by congruence. rewrite delete_id by exact Hwr.
    apply insert_insert_eq. }
  do 2 eexists. split; [reflexivity|]. simpl. split; [exact Efd|]. split; [reflexivity|].
  unfold stop_import, close, waitpid. simpl.
  destruct (decide (pid = 0)); [lia|]. rewrite Efd, lookup_insert_eq.
  destruct (decide (0 ≠ 0)); [lia|]. simpl.
  destruct (decide (0 < pid)); [|lia].
  destruct (decide (pid ∈ {[pid]} ∪ w_children w)) as [_|Hn];
    [|exfalso; apply Hn, elem_of_union_l, elem_of_singleton; reflexivity].
  destruct (decide (pid = -1)); [lia|].
  f_equal. f_equal. unfold set_children, set_fds. simpl.
  rewrite delete_insert_eq, delete_id by exact Hrd.
  assert (({[pid]} ∪ w_children w) ∖ {[pid]} = w_children w) as ->.
  { apply set_eq. intros z. rewrite elem_of_difference, elem_of_union, !elem_of_singleton.
    split; [intros [[Hz|Hz] Hn]; [contradiction|exact Hz]|].
    intros Hz. split; [right; exact Hz|]. intros ->. contradiction. }
  destruct w; reflexivity.
Qed.

(** X14. When [start_import] fails after pipe() has succeeded (fcntl()
    or vfork() fails) it returns -1 and closes neither end of the pipe:
    both descriptors stay open.  No child is recorded and the counters
    are unchanged. *)
Theorem start_import_failure_keeps_pipe (tr : track_t) (path : string)
    (sc : spawn_calls) (w : world) rd wr :
  sc_pipe sc = Some (rd, wr) -> rd ≠ wr ->
  sc_fcntl sc = false \/ sc_vfork sc = None ->
  exists tr' w', start_import tr path sc w = Ret (-1, tr', w') /\
    w_fds w' !! rd = Some (PipeRead []) /\ w_fds w' !! wr = Some PipeWrite /\
    w_children w' = w_children w /\
    tr_fd tr' = tr_fd tr /\ tr_bytes tr' = tr_bytes tr /\ tr_length tr' = tr_length tr /\
    (sc_fcntl sc = false -> tr' = tr).
Proof.
  intros Hpipe Hne Hsc. unfold start_import. rewrite Hpipe.
  assert (<[wr:=PipeWrite]> (<[rd:=PipeRead []]> (w_fds w)) !! rd = Some (PipeRead []))
    as H1 by (rewrite lookup_insert_ne by congruence; apply lookup_insert_eq).
  assert (<[wr:=PipeWrite]> (<[rd:=PipeRead []]> (w_fds w)) !! wr = Some PipeWrite)
    as H2 by apply lookup_insert_eq.
  destruct (sc_fcntl sc) eqn:Ef.
  - destruct Hsc as [Hsc|Hsc]; [discriminate|]. rewrite Hsc.
    do 2 eexists. split; [reflexivity|]. simpl. repeat (split; [assumption || reflexivity|]).
    discriminate.
  - do 2 eexists. split; [reflexivity|]. simpl. repeat (split; [assumption || reflexivity|]).
    reflexivity.
Qed.

(** X15. [track_pollfd] on a poll entry: with an import running it
    returns 1, fills the entry with the descriptor, POLLIN and no
    returned event, and remembers it; on an idle track it returns 0,
    forgets the entry and changes nothing; other entries are untouched.
    [track_handle] called before poll() has reported an event then does
    nothing. *)
Theorem track_pollfd_then_handle (tr : track_t) (pe : Z) (w : world) :
  is_Some (w_pollfds w !! pe) ->
  exists n tr1 w1, track_pollfd tr pe w = Ret (n, tr1, w1) /\
  (tr_pid tr ≠ 0 ->
     n = 1 /\ tr_pe tr1 = Some pe /\
     w_pollfds w1 !! pe = Some {| pfd_fd := tr_fd tr; pfd_events := POLLIN; pfd_revents := 0 |}) /\
  (tr_pid tr = 0 -> n = 0 /\ tr_pe tr1 = None /\ w1 = w) /\
  (forall pe', pe' ≠ pe -> w_pollfds w1 !! pe' = w_pollfds w !! pe') /\
  track_handle tr1 w1 = Ret (0, tr1, w1).
Proof.
  intros (e & Ee). unfold track_pollfd. destruct (decide (tr_pid tr ≠ 0)) as [Hp|Hp].
  - rewrite Ee. do 3 eexists. split; [reflexivity|]. simpl.
    split; [intros _; split; [reflexivity|]; split; [reflexivity|apply lookup_insert_eq]|].
    split; [intros; contradiction|].
    split; [intros pe' Hne; apply lookup_insert_ne; congruence|].
    unfold track_handle. simpl. rewrite lookup_insert_eq. simpl. reflexivity.
  - do 3 eexists. split; [reflexivity|]. split; [intros; contradiction|].
    split; [intros _; auto|]. split; [reflexivity|]. reflexivity.
Qed.

(** X16. After [track_clear] of a track that owns a block, a second
    [track_clear] frees the same blocks again, which is undefined,
    since [tr_blocks] is not reset; [track_init] makes the track usable
    again, owning no block. *)
Theorem track_clear_then (tr : track_t) (w : world) :
  consts_ok -> reachable tr w -> import_ok tr w -> 0 < tr_blocks tr ->
  exists tr' w', track_clear tr w = Ret (tr', w') /\
  track_clear tr' w' = Undefined /\
  (forall importer, reachable (track_init tr' importer) w' /\
     owned_blocks (track_init tr' importer) = []).
Proof.
  intros CK Hr Hi Hblocks. pose proof (reachable_ok CK _ _ Hr) as OK.
  assert (exists tr1 w1,
            (if decide (tr_pid tr ≠ 0) then abort_import tr w else Ret (tr, w)) = Ret (tr1, w1) /\
            tr1 = set_pid tr 0 /\ track_ok tr1 w1) as (tr1 & w1 & Ea & -> & OK1).
  { destruct (decide (tr_pid tr ≠ 0)) as [Hp|Hp].
    - rewrite (abort_import_spec tr w Hi Hp). do 2 eexists. split; [reflexivity|].
      split; [reflexivity|]. eapply track_ok_same; [exact OK|]. unfold same_store. simpl. auto 10.
    - exists tr, w. split; [reflexivity|]. assert (tr_pid tr = 0) as E by lia.
      split; [destruct tr; simpl in *; subst; reflexivity|].
      eapply track_ok_same; [exact OK|]. unfold same_store. simpl. auto 10. }
  destruct (free_owned _ _ OK1) as (h & Hf & Hfreed). simpl in Hf.
  exists (set_pid tr 0), (set_heap w1 h).
  split; [unfold track_clear; rewrite Ea; simpl; rewrite Hf; reflexivity|].
  destruct (owned_lookup (set_pid tr 0) w1 0 OK1) as (p & Hp & Hop & _); [simpl; lia|].
  pose proof (proj1 (Forall_lookup _ _) Hfreed _ _ Hop) as Hnone.
  split.
  - unfold track_clear. simpl. destruct (decide (0 ≠ 0)); [lia|]. simpl.
    destruct (Z.to_nat (tr_blocks tr)) as [|k] eqn:Ek; [lia|]. simpl.
    simpl in Hp. rewrite array_get_lookup by lia. simpl. rewrite Hp. simpl.
    unfold free. simpl. rewrite Hnone. reflexivity.
  - intros importer. split; [|reflexivity].
    apply reach_init; [exact (ok_array _ _ OK1)|].
    exact (ok_malloc _ _ OK1).
Qed.

End Importer.

Section Sessions.
Context `{C : track_consts}.

(** X17. In every reachable state the track has at most
    [TRACK_MAX_BLOCKS] blocks, the samples committed fit the blocks
    allocated, [tr_bytes] fits a signed 32-bit integer, and the blocks
    owned are distinct, allocated and of the size of their three
    arrays. *)
Theorem reachable_capacity (tr : track_t) (w : world) :
  consts_ok -> reachable tr w ->
  0 <= tr_blocks tr <= TRACK_MAX_BLOCKS /\
  0 <= tr_length tr <= tr_blocks tr * TRACK_BLOCK_SAMPLES /\
  tr_length tr <= TRACK_MAX_BLOCKS * TRACK_BLOCK_SAMPLES /\
  tr_bytes tr < 2 ^ 31 /\
  Z.of_nat (length (owned_blocks tr)) = tr_blocks tr /\
  NoDup (owned_blocks tr) /\
  Forall (fun p => exists blk, w_heap w !! p = Some (Some blk) /\
            Z.of_nat (length (blk_pcm blk)) = 4 * TRACK_BLOCK_SAMPLES /\
            Z.of_nat (length (blk_ppm blk)) = TRACK_BLOCK_SAMPLES / TRACK_PPM_RES /\
            Z.of_nat (length (blk_overview blk)) = TRACK_BLOCK_SAMPLES / TRACK_OVERVIEW_RES)
         (owned_blocks tr).
Proof.
  intros CK Hr. pose proof (reachable_ok CK _ _ Hr) as OK.
  pose proof (ok_blocks _ _ OK) as Hb. pose proof (ok_bytes _ _ OK) as Hy.
  pose proof (ok_length _ _ OK) as HL. change SAMPLE with 4 in HL.
  rewrite block_bytes_eq in Hy. pose proof (ck_samples CK) as HS.
  split; [exact Hb|]. split; [split; nia|]. split; [nia|].
  split; [apply (track_bytes_small CK _ _ OK)|].
  split; [apply (owned_length _ _ OK)|]. split; [exact (ok_nodup _ _ OK)|].
  eapply Forall_impl; [exact (ok_live _ _ OK)|].
  intros p (blk & Hl & H1 & H2 & H3). exists blk. rewrite block_bytes_eq in H1.
  split; [exact Hl|]. split; [lia|]. split; assumption.
Qed.

(** X18. [track_handle] when poll() reports an event and the child
    has written the chunks [cs] and exited (malloc gives blocks, the
    bytes fit strictly): it returns 0, the track holds its former audio
    followed by the bytes written and counts their whole samples, and
    it is idle: the descriptor is closed, the child reaped, and
    [track_pollfd] now returns 0. *)
Theorem track_handle_completes_import (tr : track_t) (w : world) (pe : Z) (e : pollfd)
    (cs : list (list byte)) :
  consts_ok -> track_ok tr w ->
  0 < tr_pid tr -> tr_pid tr ∈ w_children w ->
  w_fds w !! tr_fd tr = Some (PipeRead (map Data cs)) ->
  tr_pe tr = Some pe -> w_pollfds w !! pe = Some e -> pfd_revents e ≠ 0 ->
  malloc_grants w (TRACK_MAX_BLOCKS - tr_blocks tr) ->
  tr_bytes tr + Z.of_nat (length (concat cs)) < TRACK_MAX_BLOCKS * TRACK_BLOCK_PCM_BYTES ->
  exists tr' w', track_handle tr w = Ret (0, tr', w') /\
    track_ok tr' w' /\
    tr_pid tr' = 0 /\ w_fds w' !! tr_fd tr = None /\ (tr_pid tr ∉ w_children w') /\
    stored_pcm tr' w' = stored_pcm tr w ++ concat cs /\
    tr_bytes tr' = tr_bytes tr + Z.of_nat (length (concat cs)) /\
    tr_length tr' = tr_bytes tr' / 4 /\
    (forall pe', track_pollfd tr' pe' w' = Ret (0, set_pe tr' None, w')).
Proof.
  intros CK OK Hpid Hch Hfd Hpe He Hrev HG Hroom.
  unfold track_handle. rewrite Hpe, He.
  destruct (decide (pfd_revents e = 0)); [contradiction|].
  destruct (decide (tr_pid tr ≠ 0)); [|lia].
  unfold read_from_pipe. rewrite Hfd.
  destruct (read_loop_stream CK (map Data cs) cs tr w eq_refl OK HG)
    as (r & tr1 & w1 & s1 & Hl & H1 & _).
  destruct (H1 Hroom) as (-> & ->).
  destruct (read_loop_ret CK (map Data cs) tr w OK)
    as (r & tr2 & w2 & s2 & Hl2 & OK1 & _ & Hs & _).
  rewrite Hl in Hl2. injection Hl2 as <- <- <- <-.
  pose proof (read_loop_stored CK _ _ _ _ _ _ _ OK Hl) as Hst.
  simpl in Hst. rewrite app_nil_r, script_bytes_data in Hst.
  rewrite Hl. simpl. destruct (decide (1 ≠ 0)); [|lia].
  destruct Hs as (E1 & E2 & E3 & E4 & E5 & E6 & E7).
  set (w1' := set_fds w1 (<[tr_fd tr := PipeRead []]> (w_fds w1))).
  assert (import_ok tr1 w1') as Hi1.
  { intros _. rewrite E1, E2. unfold w1'. simpl. rewrite E5.
    split; [exact Hpid|]. split; [exact Hch|]. exists []. apply lookup_insert_eq. }
  rewrite (stop_import_spec tr1 w1' Hi1) by lia. simpl.
  do 2 eexists. split; [reflexivity|].
  assert (track_ok (set_pid tr1 0)
            (set_children (set_fds w1' (delete (tr_fd tr1) (w_fds w1')))
                          (w_children w1' ∖ {[tr_pid tr1]}))) as OK'.
  { eapply track_ok_same; [exact OK1|]. unfold same_store. simpl. auto 10. }
  split; [exact OK'|]. simpl. split; [reflexivity|].
  rewrite E2, E1. split; [apply lookup_delete_eq|]. split.
  { intros Hin. apply elem_of_difference in Hin as [_ Hn]. apply Hn.
    apply elem_of_singleton. reflexivity. }
  split; [exact Hst|].
  pose proof (stored_length _ _ OK1) as L1. pose proof (stored_length _ _ OK) as L0.
  rewrite Hst, length_app in L1.
  split; [lia|]. split; [apply (track_bytes_length _ _ OK1)|].
  intros pe'. unfold track_pollfd. simpl. destruct (decide (0 ≠ 0)); [lia|]. reflexivity.
Qed.

End Sessions.

(* ================================================================= *)
(** ** The properties on the small configuration *)

Lemma polled_ok `{C : track_consts} pe p :
  track_ok (fst p) (snd p) -> track_ok (fst (polled pe p)) (snd (polled pe p)).
Proof.
  intros OK. unfold polled.
  destruct (track_pollfd (fst p) pe (snd p)) as [[[n tr] w]| |] eqn:E; try exact OK.
  pose proof (track_pollfd_ok _ _ _ _ _ _ OK E) as OK1. simpl.
  eapply track_ok_same; [exact OK1|]. unfold same_store. simpl. auto 10.
Qed.

Lemma demo_importing_grants :
  malloc_grants (snd demo_importing)
    (@TRACK_MAX_BLOCKS demo_consts - tr_blocks (fst demo_importing)).
Proof.
  intros i Hi. change (0 <= i < 1) in Hi. assert (i = 0) as -> by lia.
  exists demo_block. reflexivity.
Qed.


Lemma demo_polled_ok : @track_ok demo_consts (fst demo_polled) (snd demo_polled).
Proof.
  apply (polled_ok (C := demo_consts)).
  exact (reachable_ok demo_consts_ok _ _ demo_importing_reachable).
Qed.

Lemma demo_polled_import_ok : import_ok (fst demo_polled) (snd demo_polled).
Proof.
  intros _. split; [vm_compute; reflexivity|]. split.
  - assert (w_children (snd demo_polled) = {[ 1234 ]}) as -> by (vm_compute; reflexivity).
    assert (tr_pid (fst demo_polled) = 1234) as -> by (vm_compute; reflexivity).
    apply elem_of_singleton. reflexivity.
  - exists demo_script. vm_compute. reflexivity.
Qed.

Lemma demo_short_ok : @track_ok demo_consts (fst demo_short) (snd demo_short).
Proof.
  apply (polled_ok (C := demo_consts)).
  destruct (track_import (C := demo_consts) demo_track "track.ogg" demo_spawn_short demo_world)
    as [[[r tr] w]| |] eqn:E; simpl;
    try exact (reachable_ok demo_consts_ok _ _ demo_reachable).
  exact (track_import_ok demo_consts_ok _ _ _ _ _ _ _
           (reachable_ok demo_consts_ok _ _ demo_reachable) E).
Qed.

Lemma demo_short_grants :
  malloc_grants (snd demo_short) (@TRACK_MAX_BLOCKS demo_consts - tr_blocks (fst demo_short)).
Proof.
  intros i Hi. change (0 <= i < 2) in Hi.
  assert (i = 0 \/ i = 1) as [-> | ->] by lia; exists demo_block; reflexivity.
Qed.

Lemma demo_short_child : tr_pid (fst demo_short) ∈ w_children (snd demo_short).
Proof.
  assert (w_children (snd demo_short) = {[ 1234 ]}) as -> by (vm_compute; reflexivity).
  assert (tr_pid (fst demo_short) = 1234) as -> by (vm_compute; reflexivity).
  apply elem_of_singleton. reflexivity.
Qed.

Lemma demo_polled_entry pe :
  tr_pe (fst demo_polled) = Some pe -> is_Some (w_pollfds (snd demo_polled) !! pe).
Proof.
  intros H. vm_compute in H. injection H as <-.
  exists {| pfd_fd := 3; pfd_events := 1; pfd_revents := 1 |}. vm_compute. reflexivity.
Qed.

Lemma demo_importing_entry : is_Some (w_pollfds (snd demo_importing) !! 100).
Proof.
  exists {| pfd_fd := 0; pfd_events := 0; pfd_revents := 0 |}. vm_compute. reflexivity.
Qed.

(** [read_loop_conserves_bytes] on the small script. *)
Lemma read_loop_conserves_bytes_witness :
  exists r tr' w' s',
    read_loop (C := demo_consts) demo_script demo_track demo_world = Ret (r, tr', w', s') /\
    stored_pcm tr' w' ++ script_bytes s'
      = stored_pcm demo_track demo_world ++ script_bytes demo_script /\
    Z.of_nat (length (stored_pcm demo_track demo_world)) = tr_bytes demo_track /\
    Z.of_nat (length (stored_pcm tr' w')) = tr_bytes tr'.
Proof.
  exact (read_loop_conserves_bytes (C := demo_consts) demo_track demo_world demo_script
           demo_consts_ok demo_reachable).
Defined.

(** [read_loop_to_eof] on eight bytes written in two chunks. *)
Lemma read_loop_to_eof_witness :
  let cs := [["000"; "128"; "000"; "128"; "016"]; ["039"; "240"; "216"]]%byte in
  exists tr' w',
    read_loop (C := demo_consts) (map Data cs) demo_track demo_world = Ret (1, tr', w', []) /\
    stored_pcm tr' w' = stored_pcm demo_track demo_world ++ concat cs /\
    tr_bytes tr' = tr_bytes demo_track + Z.of_nat (length (concat cs)) /\
    tr_length tr' = tr_bytes tr' / 4.
Proof.
  intros cs.
  apply (read_loop_to_eof (C := demo_consts) demo_track demo_world cs
           demo_consts_ok demo_reachable demo_grants).
  vm_compute. reflexivity.
Defined.

(** [read_loop_track_full] on 33 bytes, one more than the two blocks
    of the small configuration hold. *)
Lemma read_loop_track_full_witness :
  let cs := [repeat "001"%byte 33] in
  exists tr' w' s',
    read_loop (C := demo_consts) (map Data cs) demo_track demo_world = Ret (-1, tr', w', s') /\
    tr_bytes tr' = 32 /\ tr_length tr' = 8 /\
    stored_pcm tr' w' = stored_pcm demo_track demo_world ++ take 32 (concat cs) /\
    script_bytes s' = drop 32 (concat cs).
Proof.
  intros cs.
  apply (read_loop_track_full (C := demo_consts) demo_track demo_world cs
           demo_consts_ok demo_reachable demo_grants).
  vm_compute. discriminate.
Defined.


(** [ingest_append_only] on a first commit of five bytes. *)
Lemma ingest_append_only_witness :
  let bs := ["000"; "128"; "000"; "128"; "016"]%byte in
  exists tr2 w2, ingest (C := demo_consts) demo_track1 demo_region bs demo_world1 = Ret (tr2, w2) /\
    (forall q, q ≠ rg_block demo_region -> w_heap w2 !! q = w_heap demo_world1 !! q).
Proof.
  intros bs.
  destruct (ingest_append_only (C := demo_consts) demo_track demo_world demo_region
              demo_track1 demo_world1 bs demo_consts_ok demo_reachable demo_access)
    as (tr2 & w2 & Hi & Hq & _); [simpl; lia|].
  exists tr2, w2. split; [exact Hi|exact Hq].
Defined.

(** [track_handle_safe] on the small track, polled while it imports. *)
Lemma track_handle_safe_witness :
  exists tr' w',
    track_handle (C := demo_consts) (fst demo_polled) (snd demo_polled) = Ret (0, tr', w') /\
    @track_ok demo_consts tr' w' /\ import_ok tr' w'.
Proof.
  destruct (track_handle_safe (C := demo_consts) (fst demo_polled) (snd demo_polled)
              demo_consts_ok demo_polled_ok demo_polled_import_ok demo_polled_entry)
    as (tr' & w' & Hh & OK & Hi & _).
  exists tr', w'. auto.
Defined.


(** [track_import_failed_start] on the small track while it imports,
    when pipe() fails. *)
Lemma track_import_failed_start_witness :
  let tr := fst demo_importing in
  let w := snd demo_importing in
  exists w', track_import (C := demo_consts) tr "other.ogg"
               {| sc_pipe := None; sc_fcntl := true; sc_vfork := None |} w
             = Ret (-1, set_pid tr 0, w') /\
    w_awakened w' = w_awakened w.
Proof.
  intros tr w.
  destruct (track_import_failed_start (C := demo_consts) tr "other.ogg"
              {| sc_pipe := None; sc_fcntl := true; sc_vfork := None |} w demo_importing_ok)
    as (w' & Hi & _ & _ & _ & Ha & _).
  - vm_compute. discriminate.
  - left. reflexivity.
  - exists w'. auto.
Defined.

(** [start_stop_round_trip] on the small track. *)
Lemma start_stop_round_trip_witness :
  exists tr1 w1,
    start_import (C := demo_consts) demo_track "track.ogg" demo_spawn demo_world
      = Ret (0, tr1, w1) /\
    w_fds w1 = <[3 := PipeRead demo_script]> (w_fds demo_world) /\
    w_children w1 = {[ 1234 ]} ∪ w_children demo_world /\
    stop_import tr1 w1 = Ret (set_pid tr1 0, demo_world).
Proof.
  apply (start_stop_round_trip (C := demo_consts) demo_track "track.ogg" demo_world
           3 4 1234 demo_script).
  - lia.
  - lia.
  - reflexivity.
  - reflexivity.
  - apply not_elem_of_empty.
Defined.

(** [start_import_failure_keeps_pipe] on the small track, when vfork()
    fails. *)
Lemma start_import_failure_keeps_pipe_witness :
  exists tr' w',
    start_import (C := demo_consts) demo_track "track.ogg" demo_spawn_fails demo_world
      = Ret (-1, tr', w') /\
    w_fds w' !! 3 = Some (PipeRead []) /\ w_fds w' !! 4 = Some PipeWrite.
Proof.
  destruct (start_import_failure_keeps_pipe (C := demo_consts) demo_track "track.ogg"
              demo_spawn_fails demo_world 3 4 eq_refl)
    as (tr' & w' & Hs & H3 & H4 & _); [lia|right; reflexivity|].
  exists tr', w'. auto.
Defined.

(** [track_pollfd_then_handle] on the small track while it imports. *)
Lemma track_pollfd_then_handle_witness :
  exists n tr1 w1,
    track_pollfd (fst demo_importing) 100 (snd demo_importing) = Ret (n, tr1, w1) /\
    track_handle (C := demo_consts) tr1 w1 = Ret (0, tr1, w1).
Proof.
  destruct (track_pollfd_then_handle (C := demo_consts) (fst demo_importing) 100
              (snd demo_importing) demo_importing_entry)
    as (n & tr1 & w1 & Hp & _ & _ & _ & Hh).
  exists n, tr1, w1. auto.
Defined.

(** [track_clear_then] on the small track while it imports, with one
    block. *)
Lemma track_clear_then_witness :
  exists tr' w',
    track_clear (fst demo_importing) (snd demo_importing) = Ret (tr', w') /\
    track_clear tr' w' = Undefined.
Proof.
  destruct (track_clear_then (C := demo_consts) (fst demo_importing) (snd demo_importing)
              demo_consts_ok demo_importing_reachable demo_importing_ok)
    as (tr' & w' & Hc & Hu & _); [vm_compute; reflexivity|].
  exists tr', w'. auto.
Defined.

(** [reachable_capacity] on the small track while it imports. *)
Lemma reachable_capacity_witness :
  let tr := fst demo_importing in
  0 <= tr_blocks tr <= 2 /\ 0 <= tr_length tr <= tr_blocks tr * 4 /\ tr_length tr <= 2 * 4.
Proof.
  intros tr.
  destruct (reachable_capacity (C := demo_consts) tr (snd demo_importing)
              demo_consts_ok demo_importing_reachable) as (H1 & H2 & H3 & _).
  auto.
Defined.

(** [track_handle_completes_import] on the small track and a child that
    writes eight bytes and exits. *)
Lemma track_handle_completes_import_witness :
  let cs := [["000"; "128"; "000"; "128"; "016"]; ["039"; "240"; "216"]]%byte in
  exists tr' w',
    track_handle (C := demo_consts) (fst demo_short) (snd demo_short) = Ret (0, tr', w') /\
    tr_pid tr' = 0 /\
    stored_pcm tr' w' = stored_pcm (fst demo_short) (snd demo_short) ++ concat cs /\
    tr_length tr' = tr_bytes tr' / 4.
Proof.
  intros cs.
  destruct (track_handle_completes_import (C := demo_consts) (fst demo_short) (snd demo_short)
              100 {| pfd_fd := 3; pfd_events := 1; pfd_revents := 1 |} cs
              demo_consts_ok demo_short_ok)
    as (tr' & w' & Hh & _ & Hp & _ & _ & Hs & _ & HL & _).
  - vm_compute. reflexivity.
  - exact demo_short_child.
  - vm_compute. reflexivity.
  - vm_compute. reflexivity.
  - vm_compute. reflexivity.
  - simpl. lia.
  - exact demo_short_grants.
  - vm_compute. reflexivity.
  - exists tr', w'. auto.
Defined.

Lemma script_bytes_app s1 s2 : script_bytes (s1 ++ s2) = script_bytes s1 ++ script_bytes s2.
Proof.
  induction s1 as [|[a| |] s1 IH]; simpl; [reflexivity| |exact IH|exact IH].
  rewrite IH, app_assoc. reflexivity.
Qed.

Section Pauses.
Context `{C : track_consts}.
Hypothesis CK : consts_ok.

(** A child that writes the chunks [cs] and then pauses: the loop
    takes them all and returns 0 at the pause. *)
Lemma read_loop_stream_pause s : forall cs rest tr w,
  s = map Data cs ++ WouldBlock :: rest ->
  track_ok tr w -> malloc_grants w (TRACK_MAX_BLOCKS - tr_blocks tr) ->
  tr_bytes tr + Z.of_nat (length (concat cs)) < TRACK_MAX_BLOCKS * TRACK_BLOCK_PCM_BYTES ->
  exists tr' w', read_loop s tr w = Ret (0, tr', w', rest).
Proof.
  induction s as [s IH] using script_size_ind. intros cs rest tr w -> OK HG Hroom.
  assert (tr_bytes tr < TRACK_MAX_BLOCKS * TRACK_BLOCK_PCM_BYTES) as Hroom0 by lia.
  destruct (access_granted CK tr w OK HG Hroom0) as (rg & tr1 & w1 & Ha & HG1).
  destruct (access_region_at CK _ _ _ _ _ OK Ha) as (R & _).
  destruct (access_same_import _ _ _ _ _ Ha) as (_ & Hb1 & _).
  pose proof (region_len_pos CK _ _ _ R) as Hpos.
  destruct cs as [|a cs].
  - simpl. rewrite read_loop_step, Ha. simpl. eauto.
  - change (map Data (a :: cs) ++ WouldBlock :: rest)
      with (Data a :: (map Data cs ++ WouldBlock :: rest)) in *.
    set (s' := map Data cs ++ WouldBlock :: rest) in *.
    destruct (decide (a = [])) as [->|Hne].
    { assert (read_loop (Data [] :: s') tr w = read_loop s' tr w) as ->
        by (rewrite (read_loop_step (Data [] :: s') tr w), (read_loop_step s' tr w), Ha;
            reflexivity).
      assert (script_size s' < script_size (Data [] :: s'))%nat as Hsz by (simpl; lia).
      exact (IH s' Hsz cs rest tr w eq_refl OK HG Hroom). }
    rewrite (read_loop_data tr w rg tr1 w1 a s' Ha Hne Hpos).
    simpl concat in Hroom. rewrite length_app, Nat2Z.inj_add in Hroom.
    destruct (decide (Z.of_nat (length a) <= rg_len rg)) as [Hle|Hgt].
    + destruct (ingest_ret CK tr1 w1 rg a R)
        as (tr2 & w2 & -> & OK2 & Hb2 & _ & Hn2 & _ & _ & _ & _ & _ & _ & _ & _ & Hm2);
        [destruct a; [congruence|simpl in *; lia]|].
      simpl.
      assert (script_size s' < script_size (Data a :: s'))%nat as Hsz by (simpl; lia).
      apply (IH s' Hsz cs rest tr2 w2 eq_refl OK2).
      * unfold malloc_grants. rewrite Hm2, Hn2. exact HG1.
      * lia.
    + destruct (ingest_ret CK tr1 w1 rg (take (Z.to_nat (rg_len rg)) a) R)
        as (tr2 & w2 & -> & OK2 & Hb2 & _ & Hn2 & _ & _ & _ & _ & _ & _ & _ & _ & Hm2);
        [rewrite length_take; lia|].
      simpl.
      assert (0 < Z.to_nat (rg_len rg))%nat as Hk by lia.
      apply (IH (Data (drop (Z.to_nat (rg_len rg)) a) :: s')
                (script_size_data_drop a _ _ Hne Hk)
                (drop (Z.to_nat (rg_len rg)) a :: cs) rest tr2 w2 eq_refl OK2).
      * unfold malloc_grants. rewrite Hm2, Hn2. exact HG1.
      * simpl concat. rewrite length_app, Nat2Z.inj_add, length_drop.
        rewrite length_take in Hb2. lia.
Qed.

End Pauses.

Section PauseClaims.
Context `{C : track_consts}.

(** X19. [track_handle] when poll() reports an event and the child
    has written the chunks [cs] and paused: it returns 0 with the bytes
    written appended to the audio and their whole samples counted; the
    import is still running, and what the child writes later is left in
    the pipe. *)
Theorem track_handle_pending (tr : track_t) (w : world) (pe : Z) (e : pollfd)
    (cs : list (list byte)) (rest : list pipe_event) :
  consts_ok -> track_ok tr w ->
  tr_pid tr ≠ 0 ->
  w_fds w !! tr_fd tr = Some (PipeRead (map Data cs ++ WouldBlock :: rest)) ->
  tr_pe tr = Some pe -> w_pollfds w !! pe = Some e -> pfd_revents e ≠ 0 ->
  malloc_grants w (TRACK_MAX_BLOCKS - tr_blocks tr) ->
  tr_bytes tr + Z.of_nat (length (concat cs)) < TRACK_MAX_BLOCKS * TRACK_BLOCK_PCM_BYTES ->
  exists tr' w', track_handle tr w = Ret (0, tr', w') /\
    track_ok tr' w' /\
    tr_pid tr' = tr_pid tr /\ tr_fd tr' = tr_fd tr /\
    w_fds w' = <[tr_fd tr := PipeRead rest]> (w_fds w) /\
    w_children w' = w_children w /\
    stored_pcm tr' w' = stored_pcm tr w ++ concat cs /\
    tr_bytes tr' = tr_bytes tr + Z.of_nat (length (concat cs)) /\
    tr_length tr' = tr_bytes tr' / 4.
Proof.
  intros CK OK Hpid Hfd Hpe He Hrev HG Hroom.
  unfold track_handle. rewrite Hpe, He.
  destruct (decide (pfd_revents e = 0)); [contradiction|].
  destruct (decide (tr_pid tr ≠ 0)); [|contradiction].
  unfold read_from_pipe. rewrite Hfd.
  destruct (read_loop_stream_pause CK _ cs rest tr w eq_refl OK HG Hroom) as (tr1 & w1 & Hl).
  destruct (read_loop_ret CK (map Data cs ++ WouldBlock :: rest) tr w OK)
    as (r & tr2 & w2 & s2 & Hl2 & OK1 & _ & Hs & _).
  rewrite Hl in Hl2. injection Hl2 as <- <- <- <-.
  pose proof (read_loop_stored CK _ _ _ _ _ _ _ OK Hl) as Hst.
  rewrite script_bytes_app, script_bytes_data in Hst. simpl in Hst.
  rewrite app_assoc in Hst. apply app_inv_tail in Hst.
  rewrite Hl. simpl. destruct (decide (0 ≠ 0)); [lia|].
  destruct Hs as (E1 & E2 & E3 & E4 & E5 & E6 & E7).
  do 2 eexists. split; [reflexivity|].
  assert (track_ok tr1 (set_fds w1 (<[tr_fd tr:=PipeRead rest]> (w_fds w1)))) as OK'.
  { eapply track_ok_same; [exact OK1|]. unfold same_store. simpl. auto 10. }
  split; [exact OK'|]. simpl. split; [exact E1|]. split; [exact E2|].
  split; [rewrite E4; reflexivity|]. split; [exact E5|].
  split; [exact Hst|].
  pose proof (stored_length _ _ OK1) as L1. pose proof (stored_length _ _ OK) as L0.
  rewrite Hst, length_app in L1.
  split; [lia|]. apply (track_bytes_length _ _ OK1).
Qed.

End PauseClaims.

Lemma demo_polled_grants :
  malloc_grants (snd demo_polled) (@TRACK_MAX_BLOCKS demo_consts - tr_blocks (fst demo_polled)).
Proof.
  intros i Hi. change (0 <= i < 1) in Hi. assert (i = 0) as -> by lia.
  exists demo_block. reflexivity.
Qed.

(** [track_handle_pending] on the small track, polled while it imports:
    nine bytes, then a pause. *)
Lemma track_handle_pending_witness :
  let cs := [["000"; "128"; "000"; "128"; "016"; "039"; "240"; "216"; "001"]]%byte in
  exists tr' w',
    track_handle (C := demo_consts) (fst demo_polled) (snd demo_polled) = Ret (0, tr', w') /\
    tr_pid tr' = tr_pid (fst demo_polled) /\
    stored_pcm tr' w' = stored_pcm (fst demo_polled) (snd demo_polled) ++ concat cs /\
    tr_length tr' = tr_bytes tr' / 4.
Proof.
  intros cs.
  destruct (track_handle_pending (C := demo_consts) (fst demo_polled) (snd demo_polled)
              100 {| pfd_fd := 3; pfd_events := 1; pfd_revents := 1 |} cs
              [Data ["000"; "255"; "127"]%byte]
              demo_consts_ok demo_polled_ok)
    as (tr' & w' & Hh & _ & Hp & _ & _ & _ & Hs & _ & HL).
  - vm_compute. discriminate.
  - vm_compute. reflexivity.
  - vm_compute. reflexivity.
  - vm_compute. reflexivity.
  - simpl. lia.
  - exact demo_polled_grants.
  - vm_compute. reflexivity.
  - exists tr', w'. auto.
Defined.
